(** * STRETCHER: the audio engine of the multitrack looper

    A shallow embedding of [AudioTrack] and [MainComponent] (the
    SoundTouch-based revision with selectable loop regions) and the
    properties of its tempo estimation, tempo synchronisation,
    loop-region playback and mixing callback.

    Conventions of the embedding.
    - [double] and [float] values are exact rationals ([Q]): arithmetic
      is the code's arithmetic without rounding, NaN or infinities, and
      [x / 0] is [0] as in [Qdiv].
    - [int] values are integers ([Z]); the conversion [(int) x] of a
      floating value truncates toward zero ([to_int]).  Executions in
      which an [int] would overflow are outside the model.
    - [juce::AudioBuffer<float>] is a record of its two dimensions and
      its channels; a read outside the stored data yields [0] and a
      write outside it is dropped.
    - The SoundTouch object is an external collaborator: a state type
      with the operations the track calls ([SoundTouch] class).
    - Locks, logging, file names and painting are left out.  Of the
      GUI, the handlers of a track's controls and the time axis, zoom
      and beat grid of [WaveformComponent] are modelled. *)

From Stdlib Require Import ZArith QArith Qabs Qround List Bool Lia Lqa.
From Stdlib Require Import Sorting.Permutation Sorting.Sorted FinFun.
Import ListNotations.

Open Scope Q_scope.

(** ** Numeric helpers *)

Module Num.

(** [a < b] and [a <= b] on doubles, as booleans. *)
Definition ltb (a b : Q) : bool := negb (Qle_bool b a).
Definition leb (a b : Q) : bool := Qle_bool a b.

Definition jmax (a b : Q) : Q := if ltb a b then b else a.
Definition jlimit (lo hi v : Q) : Q :=
  if ltb v lo then lo else if ltb hi v then hi else v.

(** [(int) x]: truncation toward zero. *)
Definition to_int (x : Q) : Z :=
  if ltb x 0 then Qceiling x else Qfloor x.

(** The half-open integer range [lo, lo+1, ..., hi-1] of a [for] loop. *)
Definition zrange (lo hi : Z) : list Z :=
  map (fun k => (lo + Z.of_nat k)%Z) (seq 0 (Z.to_nat (hi - lo))).

(** [v[i]] on a vector, [0] outside. *)
Definition at_ (l : list Q) (i : Z) : Q :=
  if (i <? 0)%Z then 0 else nth (Z.to_nat i) l 0.

(** Sum of a list of doubles, left to right. *)
Definition qsum (l : list Q) : Q := fold_left Qplus l 0.

(** [l] with element [i] replaced by [f (l[i])]; [l] itself when [i]
    is out of range. *)
Fixpoint update_nat (i : nat) (f : Q -> Q) (l : list Q) : list Q :=
  match l, i with
  | [], _ => []
  | x :: r, O => f x :: r
  | x :: r, S j => x :: update_nat j f r
  end.
Definition update (i : Z) (f : Q -> Q) (l : list Q) : list Q :=
  if (i <? 0)%Z then l else update_nat (Z.to_nat i) f l.

(** [2 ^ n], the factor reached after [n] doublings. *)
Definition pow2 (n : nat) : Q := inject_Z (2 ^ Z.of_nat n).

End Num.
Import Num.

Notation "a <? b" := (ltb a b) : Q_scope.
Notation "a <=? b" := (leb a b) : Q_scope.

(** ** juce::AudioBuffer<float> *)

Record AudioBuffer : Type := mkBuffer {
  getNumChannels : Z;
  getNumSamples : Z;
  channelData : list (list Q)
}.

Module Buffer.

Definition empty : AudioBuffer := mkBuffer 0 0 [].

Definition channel (b : AudioBuffer) (ch : Z) : list Q :=
  if (ch <? 0)%Z then [] else nth (Z.to_nat ch) (channelData b) [].

Definition getSample (b : AudioBuffer) (ch i : Z) : Q := at_ (channel b ch) i.

Fixpoint update_channel_nat (ch : nat) (f : list Q -> list Q)
    (cs : list (list Q)) : list (list Q) :=
  match cs, ch with
  | [], _ => []
  | c :: r, O => f c :: r
  | c :: r, S k => c :: update_channel_nat k f r
  end.

Definition update_channel (b : AudioBuffer) (ch : Z) (f : list Q -> list Q)
    : AudioBuffer :=
  if (ch <? 0)%Z then b
  else mkBuffer (getNumChannels b) (getNumSamples b)
         (update_channel_nat (Z.to_nat ch) f (channelData b)).

(** [buffer.addSample (ch, i, v)]. *)
Definition addSample (b : AudioBuffer) (ch i : Z) (v : Q) : AudioBuffer :=
  update_channel b ch (update i (fun x => x + v)).

(** [dest.addFrom (destCh, destStart, src, srcCh, srcStart, num, gain)]:
    [dest[destCh][destStart + k] += src[srcCh][srcStart + k] * gain]
    for [0 <= k < num]. *)
Definition addFrom (dest : AudioBuffer) (destCh destStart : Z)
    (src : AudioBuffer) (srcCh srcStart num : Z) (gain : Q) : AudioBuffer :=
  fold_left
    (fun d k => addSample d destCh (destStart + k)
                  (getSample src srcCh (srcStart + k) * gain))
    (zrange 0 num) dest.

(** [buffer.clear (start, num)]: zero the region on every channel. *)
Definition clearRegion (b : AudioBuffer) (start num : Z) : AudioBuffer :=
  mkBuffer (getNumChannels b) (getNumSamples b)
    (map (fun c =>
            fold_left (fun c' k => update (start + k) (fun _ => 0) c')
                      (zrange 0 num) c)
         (channelData b)).

(** The samples [src[ch][start .. start+num)] ([copyFrom] into a fresh
    buffer). *)
Definition slice (src : AudioBuffer) (ch start num : Z) : list Q :=
  map (fun k => getSample src ch (start + k)) (zrange 0 num).

End Buffer.

(** ** The time-stretch primitive (soundtouch::SoundTouch) *)

Class SoundTouch (ST : Type) : Type := {
  st_new : ST;
  st_setSampleRate : Z -> ST -> ST;
  st_setChannels : Z -> ST -> ST;
  st_setTempo : Q -> ST -> ST;
  st_setPitch : Q -> ST -> ST;
  st_clear : ST -> ST;
  (** [putSamples (samples, numFrames)], samples interleaved. *)
  st_putSamples : list Q -> Z -> ST -> ST;
  (** [receiveSamples (out, maxFrames)]: the interleaved samples
      written to [out] and the number of frames produced. *)
  st_receiveSamples : Z -> ST -> (list Q * Z) * ST
}.

(** ** AudioTrack *)

(** What [formatManager.createReaderFor (file)] yields for a decodable
    file: the decoded channels with their dimensions and sample rate. *)
Record AudioFormatReader : Type := mkReader {
  numChannels : Z;
  lengthInSamples : Z;
  readerSampleRate : Q;
  decoded : list (list Q)
}.

(** One read of the track's source buffer: [count] consecutive frames
    starting at frame [first] ([addFrom] / [copyFrom] from
    [audioBuffer]). *)
Record SourceRead : Type := mkRead { first : Z; count : Z }.

Section Track.

Context {ST : Type} `{SoundTouch ST}.

Record AudioTrack : Type := mkTrack {
  audioBuffer : AudioBuffer;
  soundTouch : ST;
  waveformPeaks : list Q;
  stretchedBuffer : AudioBuffer;
  sampleRate : Q;
  currentPosition : Q;
  stretchRatio : Q;
  detectedBPM : Q;
  masterBPM : Q;
  muted : bool;
  solo : bool;
  looping : bool;
  volume : Q;
  hasCustomLoopRegion : bool;
  loopStartTime : Q;
  loopEndTime : Q
}.

(** Field assignments. *)
Definition with_currentPosition (v : Q) (t : AudioTrack) : AudioTrack :=
  mkTrack (audioBuffer t) (soundTouch t) (waveformPeaks t) (stretchedBuffer t)
    (sampleRate t) v (stretchRatio t) (detectedBPM t) (masterBPM t)
    (muted t) (solo t) (looping t) (volume t)
    (hasCustomLoopRegion t) (loopStartTime t) (loopEndTime t).

Definition with_stretchRatio (v : Q) (t : AudioTrack) : AudioTrack :=
  mkTrack (audioBuffer t) (soundTouch t) (waveformPeaks t) (stretchedBuffer t)
    (sampleRate t) (currentPosition t) v (detectedBPM t) (masterBPM t)
    (muted t) (solo t) (looping t) (volume t)
    (hasCustomLoopRegion t) (loopStartTime t) (loopEndTime t).

Definition with_detectedBPM (v : Q) (t : AudioTrack) : AudioTrack :=
  mkTrack (audioBuffer t) (soundTouch t) (waveformPeaks t) (stretchedBuffer t)
    (sampleRate t) (currentPosition t) (stretchRatio t) v (masterBPM t)
    (muted t) (solo t) (looping t) (volume t)
    (hasCustomLoopRegion t) (loopStartTime t) (loopEndTime t).

Definition with_masterBPM (v : Q) (t : AudioTrack) : AudioTrack :=
  mkTrack (audioBuffer t) (soundTouch t) (waveformPeaks t) (stretchedBuffer t)
    (sampleRate t) (currentPosition t) (stretchRatio t) (detectedBPM t) v
    (muted t) (solo t) (looping t) (volume t)
    (hasCustomLoopRegion t) (loopStartTime t) (loopEndTime t).

Definition with_soundTouch (v : ST) (t : AudioTrack) : AudioTrack :=
  mkTrack (audioBuffer t) v (waveformPeaks t) (stretchedBuffer t)
    (sampleRate t) (currentPosition t) (stretchRatio t) (detectedBPM t)
    (masterBPM t) (muted t) (solo t) (looping t) (volume t)
    (hasCustomLoopRegion t) (loopStartTime t) (loopEndTime t).

Definition with_stretchedBuffer (v : AudioBuffer) (t : AudioTrack) : AudioTrack :=
  mkTrack (audioBuffer t) (soundTouch t) (waveformPeaks t) v
    (sampleRate t) (currentPosition t) (stretchRatio t) (detectedBPM t)
    (masterBPM t) (muted t) (solo t) (looping t) (volume t)
    (hasCustomLoopRegion t) (loopStartTime t) (loopEndTime t).

Definition with_waveformPeaks (v : list Q) (t : AudioTrack) : AudioTrack :=
  mkTrack (audioBuffer t) (soundTouch t) v (stretchedBuffer t)
    (sampleRate t) (currentPosition t) (stretchRatio t) (detectedBPM t)
    (masterBPM t) (muted t) (solo t) (looping t) (volume t)
    (hasCustomLoopRegion t) (loopStartTime t) (loopEndTime t).

Definition with_loopRegion (has : bool) (s e : Q) (t : AudioTrack)
    : AudioTrack :=
  mkTrack (audioBuffer t) (soundTouch t) (waveformPeaks t) (stretchedBuffer t)
    (sampleRate t) (currentPosition t) (stretchRatio t) (detectedBPM t)
    (masterBPM t) (muted t) (solo t) (looping t) (volume t) has s e.

Definition setMuted (b : bool) (t : AudioTrack) : AudioTrack :=
  mkTrack (audioBuffer t) (soundTouch t) (waveformPeaks t) (stretchedBuffer t)
    (sampleRate t) (currentPosition t) (stretchRatio t) (detectedBPM t)
    (masterBPM t) b (solo t) (looping t) (volume t)
    (hasCustomLoopRegion t) (loopStartTime t) (loopEndTime t).

Definition setSolo (b : bool) (t : AudioTrack) : AudioTrack :=
  mkTrack (audioBuffer t) (soundTouch t) (waveformPeaks t) (stretchedBuffer t)
    (sampleRate t) (currentPosition t) (stretchRatio t) (detectedBPM t)
    (masterBPM t) (muted t) b (looping t) (volume t)
    (hasCustomLoopRegion t) (loopStartTime t) (loopEndTime t).

Definition setLooping (b : bool) (t : AudioTrack) : AudioTrack :=
  mkTrack (audioBuffer t) (soundTouch t) (waveformPeaks t) (stretchedBuffer t)
    (sampleRate t) (currentPosition t) (stretchRatio t) (detectedBPM t)
    (masterBPM t) (muted t) (solo t) b (volume t)
    (hasCustomLoopRegion t) (loopStartTime t) (loopEndTime t).

Definition setVolume (v : Q) (t : AudioTrack) : AudioTrack :=
  mkTrack (audioBuffer t) (soundTouch t) (waveformPeaks t) (stretchedBuffer t)
    (sampleRate t) (currentPosition t) (stretchRatio t) (detectedBPM t)
    (masterBPM t) (muted t) (solo t) (looping t) v
    (hasCustomLoopRegion t) (loopStartTime t) (loopEndTime t).

(** [AudioTrack::AudioTrack ()]. *)
Definition newTrack : AudioTrack :=
  mkTrack Buffer.empty st_new [] Buffer.empty 44100 0 1 0 120
    false false true 1 false 0 0.

Definition isLoaded (t : AudioTrack) : bool :=
  (0 <? getNumSamples (audioBuffer t))%Z.

(** [AudioTrack::getDurationInSeconds]. *)
Definition getDurationInSeconds (t : AudioTrack) : Q :=
  if (0 <? getNumSamples (audioBuffer t))%Z && (0 <? sampleRate t)
  then inject_Z (getNumSamples (audioBuffer t)) / sampleRate t
  else 0.

(** [AudioTrack::setStretchRatio]. *)
Definition setStretchRatio (ratio : Q) (t : AudioTrack) : AudioTrack :=
  let newRatio := jlimit 0.25 4 ratio in
  if 0.001 <? Qabs (newRatio - stretchRatio t)
  then with_stretchRatio newRatio t
  else t.

(** [AudioTrack::scaleStretchRatio]. *)
Definition scaleStretchRatio (scaleFactor : Q) (t : AudioTrack) : AudioTrack :=
  let newRatio := stretchRatio t * scaleFactor in
  let newRatio := jlimit 0.25 4 newRatio in
  if 0.001 <? Qabs (newRatio - stretchRatio t)
  then with_stretchRatio newRatio t
  else t.

(** [AudioTrack::setPosition]. *)
Definition setPosition (positionInSeconds : Q) (t : AudioTrack) : AudioTrack :=
  if hasCustomLoopRegion t && (loopStartTime t <? loopEndTime t)
  then with_currentPosition
         (jlimit (loopStartTime t) (loopEndTime t) positionInSeconds) t
  else with_currentPosition
         (jlimit 0 (getDurationInSeconds t) positionInSeconds) t.

(** [AudioTrack::reset]. *)
Definition reset (t : AudioTrack) : AudioTrack :=
  let t1 := if hasCustomLoopRegion t && (0 <=? loopStartTime t)
            then with_currentPosition (loopStartTime t) t
            else with_currentPosition 0 t in
  with_soundTouch (st_clear (soundTouch t1)) t1.

(** [AudioTrack::setMasterBPM]. *)
Definition setMasterBPM (newMasterBPM : Q) (t : AudioTrack) : AudioTrack :=
  with_masterBPM newMasterBPM t.

(** [AudioTrack::setManualBPM]. *)
Definition setManualBPM (bpm : Q) (t : AudioTrack) : AudioTrack :=
  if (60 <=? bpm) && (bpm <=? 200) then with_detectedBPM bpm t else t.

(** [AudioTrack::autoSyncToMaster]. *)
Definition autoSyncToMaster (t : AudioTrack) : AudioTrack :=
  if (0 <? detectedBPM t) && (0 <? masterBPM t)
  then setStretchRatio (detectedBPM t / masterBPM t) t
  else t.

(** [AudioTrack::setLoopRegion]. *)
Definition setLoopRegion (startTime endTime : Q) (t : AudioTrack)
    : AudioTrack :=
  if (0 <=? startTime) && (startTime <? endTime)
     && (endTime <=? getDurationInSeconds t)
  then
    let t1 := with_loopRegion true startTime endTime t in
    if (currentPosition t1 <? loopStartTime t1)
       || (loopEndTime t1 <? currentPosition t1)
    then with_currentPosition (loopStartTime t1) t1
    else t1
  else t.

(** [AudioTrack::clearLoopRegion]. *)
Definition clearLoopRegion (t : AudioTrack) : AudioTrack :=
  let t1 := with_loopRegion false 0 0 t in
  if getDurationInSeconds t1 <? currentPosition t1
  then with_currentPosition 0 t1
  else t1.

End Track.

Arguments AudioTrack ST : clear implicits.

(** ** BPM estimation (pure analysis of the loaded buffer) *)

Module BPM.

Definition hopSize : Z := 512.
Definition frameSize : Z := 1024.

(** The values of [pos] visited by
    [for (pos = 0; pos < numSamples - frameSize; pos += hopSize)]. *)
Definition framePositions (nSamples : Z) : list Z :=
  map (fun k => (k * hopSize)%Z)
      (zrange 0 ((nSamples - frameSize + hopSize - 1) / hopSize)).

(** [*std::max_element (v.begin (), v.end ())] on a non-empty vector. *)
Definition maxElement (v : list Q) : Q :=
  fold_left (fun m x => if m <? x then x else m) (tl v) (hd 0 v).

(** The indices [1 <= i < size - 1] that are strict local maxima above
    the threshold, converted by [convert i]. *)
Definition pickPeaks (strength : list Q) (adaptiveThreshold : Q)
    (convert : Z -> Q) : list Q :=
  map convert
    (filter (fun i => (adaptiveThreshold <? at_ strength i)
                      && (at_ strength (i - 1) <? at_ strength i)
                      && (at_ strength (i + 1) <? at_ strength i))
            (zrange 1 (Z.of_nat (length strength) - 1))).

(** [while (bpm < 70.0 && bpm > 0.0) bpm *= 2.0;] *)
Fixpoint doubleWhileSlow (fuel : nat) (bpm : Q) : Q :=
  match fuel with
  | O => bpm
  | S f => if (bpm <? 70) && (0 <? bpm)
           then doubleWhileSlow f (bpm * 2) else bpm
  end.

(** [while (bpm > 180.0) bpm /= 2.0;] *)
Fixpoint halveWhileFast (fuel : nat) (bpm : Q) : Q :=
  match fuel with
  | O => bpm
  | S f => if 180 <? bpm then halveWhileFast f (bpm / 2) else bpm
  end.

(** Iteration bounds of the two loops: a positive [n/d] reaches 70
    after at most [log2 (70 d) + 1] doublings, and drops to 180 or
    below after at most [log2 n + 1] halvings. *)
Definition fuelUp (bpm : Q) : nat :=
  Pos.to_nat (Pos.size (70 * Qden bpm)).
Definition fuelDown (bpm : Q) : nat :=
  match Qnum bpm with Zpos p => Pos.to_nat (Pos.size p) | _ => O end.

(** The octave correction applied by both estimators. *)
Definition octaveCorrection (bpm : Q) : Q :=
  let bpm1 := doubleWhileSlow (fuelUp bpm) bpm in
  halveWhileFast (fuelDown bpm1) bpm1.

(** [std::sort] on doubles (ascending). *)
Fixpoint insertSorted (x : Q) (l : list Q) : list Q :=
  match l with
  | [] => [x]
  | y :: r => if x <=? y then x :: l else y :: insertSorted x r
  end.
Definition sort (l : list Q) : list Q := fold_right insertSorted [] l.

(** The differences [v[i] - v[i-1]], [1 <= i < size], that lie in the
    open interval (0.1, 2.0). *)
Fixpoint beatIntervals (onsetTimes : list Q) : list Q :=
  match onsetTimes with
  | a :: ((b :: _) as rest) =>
      let interval := b - a in
      if (0.1 <? interval) && (interval <? 2)
      then interval :: beatIntervals rest
      else beatIntervals rest
  | _ => []
  end.

Definition tolerance : Q := 0.05.

(** The inner loop over [j > i]: how many consecutive followers stay
    within the tolerance of [currentInterval] before the [break]. *)
Fixpoint followers (currentInterval : Q) (rest : list Q) : Z :=
  match rest with
  | [] => 0
  | x :: r => if Qabs (x - currentInterval) <=? tolerance
              then (1 + followers currentInterval r)%Z else 0%Z
  end.

(** The outer loop over [i], carrying [(bestInterval, maxCount)]. *)
Fixpoint histogram (intervals : list Q) (bestInterval : Q) (maxCount : Z)
    : Q * Z :=
  match intervals with
  | [] => (bestInterval, maxCount)
  | currentInterval :: rest =>
      let count := (1 + followers currentInterval rest)%Z in
      if (maxCount <? count)%Z
      then histogram rest currentInterval count
      else histogram rest bestInterval maxCount
  end.

(** [AudioTrack::findBestBPMCandidate]. *)
Definition findBestBPMCandidate (onsetTimes : list Q) : Q :=
  if (length onsetTimes <? 4)%nat then 120 else
  let intervals := beatIntervals onsetTimes in
  match intervals with
  | [] => 120
  | _ =>
    let intervals := sort intervals in
    let bestInterval := fst (histogram intervals 0 0) in
    if 0 <? bestInterval
    then octaveCorrection (60 / bestInterval)
    else 120
  end.

(** [beats * 60.0 / duration] for [beats] in {4, 8, 16, 32}, kept when
    inside [60, 200]. *)
Definition possibleBPMs (duration : Q) : list Q :=
  filter (fun bpm => (60 <=? bpm) && (bpm <=? 200))
         (map (fun beats : Z => (inject_Z beats * 60) / duration)
              [4; 8; 16; 32]%Z).

Section Estimators.

Context {ST : Type} `{SoundTouch ST}.

Variable t : AudioTrack ST.

Let buf : AudioBuffer := audioBuffer t.
Let nSamples : Z := getNumSamples (audioBuffer t).
Let nChannels : Z := getNumChannels (audioBuffer t).

(** The per-bin magnitude summary of the frame at [pos]. *)
Definition spectrumAt (pos : Z) : list Q :=
  map (fun bin =>
         let magnitude :=
           fold_left
             (fun m ch =>
                if (pos + bin <? nSamples)%Z
                then m + Qabs (Buffer.getSample buf ch (pos + bin))
                else m)
             (zrange 0 nChannels) 0 in
         magnitude / inject_Z nChannels)
      (zrange 0 (frameSize / 2)).

(** The positive part of the difference to the previous frame, summed
    over the bins. *)
Definition spectralFlux (currentSpectrum prevSpectrum : list Q) : Q :=
  fold_left
    (fun flux bin =>
       let diff := at_ currentSpectrum bin - at_ prevSpectrum bin in
       if 0 <? diff then flux + diff else flux)
    (zrange 0 (frameSize / 2)) 0.

Fixpoint onsetFrames (positions : list Z) (prevSpectrum : list Q) : list Q :=
  match positions with
  | [] => []
  | pos :: rest =>
      let currentSpectrum := spectrumAt pos in
      spectralFlux currentSpectrum prevSpectrum
        :: onsetFrames rest currentSpectrum
  end.

(** [AudioTrack::calculateOnsetStrength]. *)
Definition calculateOnsetStrength : list Q :=
  onsetFrames (framePositions nSamples)
              (repeat 0 (Z.to_nat (frameSize / 2))).

(** The onset times found by the peak picking of
    [detectBPMFromOnsets]. *)
Definition onsetTimesOf (onsetStrength : list Q) : list Q :=
  match onsetStrength with
  | [] => []
  | _ =>
    let maxOnset := maxElement onsetStrength in
    let adaptiveThreshold := maxOnset * 0.3 in
    pickPeaks onsetStrength adaptiveThreshold
      (fun i => (inject_Z i * 512) / sampleRate t)
  end.

(** [AudioTrack::detectBPMFromOnsets]. *)
Definition detectBPMFromOnsets : Q :=
  if negb (isLoaded t) || (nSamples <? to_int (sampleRate t))%Z
  then 120
  else
    let onsetStrength := calculateOnsetStrength in
    if (length onsetStrength <? 10)%nat then 120
    else
      let onsetTimes := onsetTimesOf onsetStrength in
      if (length onsetTimes <? 4)%nat then 120
      else findBestBPMCandidate onsetTimes.

(** The channel average of every frame ([monoSignal]). *)
Definition monoSignal : list Q :=
  map (fun i =>
         fold_left (fun sum ch => sum + Buffer.getSample buf ch i)
                   (zrange 0 nChannels) 0
         / inject_Z nChannels)
      (zrange 0 nSamples).

(** Energy of the frame of [monoSignal] starting at [from], over the
    indices that exist. *)
Definition frameEnergy (mono : list Q) (from : Z) : Q :=
  fold_left
    (fun e i =>
       if (0 <=? from + i)%Z && (from + i <? nSamples)%Z
       then e + at_ mono (from + i) * at_ mono (from + i)
       else e)
    (zrange 0 frameSize) 0.

(** The energy-difference onset series of the autocorrelation stage. *)
Definition energyOnsets (mono : list Q) : list Q :=
  map (fun pos =>
         let energy := frameEnergy mono pos in
         let prevEnergy := frameEnergy mono (pos - hopSize) in
         jmax 0 (energy - prevEnergy))
      (framePositions nSamples).

(** The mean product of the series with itself shifted by [lag]. *)
Definition correlationAt (onsetStrength : list Q) (lag : Z) : Q * Z :=
  let n := (Z.of_nat (length onsetStrength) - lag)%Z in
  (fold_left
     (fun c i => c + at_ onsetStrength i * at_ onsetStrength (i + lag))
     (zrange 0 n) 0,
   Z.max 0 n).

(** The lag loop, carrying [(bestCorr, bestLag)]. *)
Definition bestLagOf (onsetStrength : list Q) (minLag maxLag : Z) : Q * Z :=
  fold_left
    (fun (best : Q * Z) lag =>
       let (correlation, count) := correlationAt onsetStrength lag in
       if (0 <? count)%Z
       then
         let correlation := correlation / inject_Z count in
         if fst best <? correlation then (correlation, lag) else best
       else best)
    (zrange minLag (Z.min maxLag (Z.quot (Z.of_nat (length onsetStrength)) 2)))
    (0, minLag).

(** [AudioTrack::detectBPMAutocorrelation]. *)
Definition detectBPMAutocorrelation : Q :=
  if (nSamples <? to_int (sampleRate t))%Z then 120
  else
    let onsetStrength := energyOnsets monoSignal in
    if (length onsetStrength <? 10)%nat then 120
    else
      let minLag :=
        to_int (60 * sampleRate t / (200 * inject_Z hopSize)) in
      let maxLag :=
        to_int (60 * sampleRate t / (60 * inject_Z hopSize)) in
      let bestLag := snd (bestLagOf onsetStrength minLag maxLag) in
      let beatInterval := inject_Z (bestLag * hopSize) / sampleRate t in
      let bpm := 60 / beatInterval in
      octaveCorrection bpm.

(** [AudioTrack::detectBPMImproved]. *)
Definition detectBPMImproved : Q :=
  if negb (isLoaded t) || (nSamples =? 0)%Z then 120
  else
    let duration := getDurationInSeconds t in
    let candidates := possibleBPMs duration in
    match candidates with
    | [] => 120
    | firstCandidate :: _ =>
        match find (fun bpm => (65 <=? bpm) && (bpm <=? 150)) candidates
        with
        | Some bpm => bpm
        | None => firstCandidate
        end
    end.

(** The estimation chain of [loadAudioFile]: each later stage runs only
    when the value so far is outside [60, 200]. *)
Definition outOfRange (bpm : Q) : bool := (bpm <? 60) || (200 <? bpm).

Definition estimateBPM : Q :=
  let bpm := detectBPMFromOnsets in
  let bpm := if outOfRange bpm then detectBPMAutocorrelation else bpm in
  let bpm := if outOfRange bpm then detectBPMImproved else bpm in
  if outOfRange bpm then 120 else bpm.

End Estimators.

End BPM.

(** ** AudioTrack: loading and block rendering *)

Section Playback.

Context {ST : Type} `{SoundTouch ST}.

(** The result of rendering one block: the track afterwards, the output
    buffer afterwards, and the reads of the source buffer it made. *)
Definition Rendered : Type := (AudioTrack ST * AudioBuffer * list SourceRead)%type.

(** [audioBuffer.setSize (numChannels, lengthInSamples)] followed by
    [reader->read]: the decoded data in a buffer of exactly that shape. *)
Definition fit {A : Type} (n : Z) (pad : A) (l : list A) : list A :=
  firstn (Z.to_nat n) (l ++ repeat pad (Z.to_nat n)).

Definition readInto (r : AudioFormatReader) : AudioBuffer :=
  mkBuffer (numChannels r) (lengthInSamples r)
    (map (fit (lengthInSamples r) 0) (fit (numChannels r) [] (decoded r))).

(** [AudioTrack::generateWaveformPeaks]: the new [waveformPeaks]. *)
Definition generateWaveformPeaks (t : AudioTrack ST) : list Q :=
  let nSamples := getNumSamples (audioBuffer t) in
  let nChannels := getNumChannels (audioBuffer t) in
  if (nSamples =? 0)%Z then []
  else
    let samplesPerPeak := Z.max 1 (to_int (sampleRate t / 100)) in
    let numPeaks := Z.quot (nSamples + samplesPerPeak - 1) samplesPerPeak in
    map (fun peakIndex =>
           let startSample := (peakIndex * samplesPerPeak)%Z in
           let endSample := Z.min (startSample + samplesPerPeak) nSamples in
           fold_left
             (fun maxPeak channel =>
                fold_left
                  (fun maxPeak sample =>
                     jmax maxPeak
                       (Qabs (Buffer.getSample (audioBuffer t) channel sample)))
                  (zrange startSample endSample) maxPeak)
             (zrange 0 nChannels) 0)
        (zrange 0 numPeaks).

(** [AudioTrack::initializeSoundTouch]. *)
Definition initializeSoundTouch (t : AudioTrack ST) : AudioTrack ST :=
  if (0 <? getNumSamples (audioBuffer t))%Z
  then
    with_soundTouch
      (st_clear
         (st_setPitch 1
            (st_setTempo (stretchRatio t)
               (st_setChannels (getNumChannels (audioBuffer t))
                  (st_setSampleRate (to_int (sampleRate t))
                     (soundTouch t)))))) t
  else t.

(** [AudioTrack::loadAudioFile]; [reader] is [None] when the file
    cannot be decoded. *)
Definition loadAudioFile (reader : option AudioFormatReader)
    (t : AudioTrack ST) : AudioTrack ST :=
  match reader with
  | None => t
  | Some r =>
      let t1 :=
        mkTrack (readInto r) (soundTouch t) (waveformPeaks t)
          (stretchedBuffer t) (readerSampleRate r) 0 1
          (detectedBPM t) (masterBPM t) (muted t) (solo t) (looping t)
          (volume t) false 0 0 in
      let t2 := with_waveformPeaks (generateWaveformPeaks t1) t1 in
      let t3 := with_detectedBPM (BPM.estimateBPM t2) t2 in
      let t4 := initializeSoundTouch t3 in
      with_stretchedBuffer
        (mkBuffer (numChannels r) 8192
           [repeat 0 (Z.to_nat (numChannels r * 8192))]) t4
  end.

(** The active loop bounds in seconds. *)
Definition loopBounds (t : AudioTrack ST) : Q * Q :=
  if hasCustomLoopRegion t && (loopStartTime t <? loopEndTime t)
  then (loopStartTime t, loopEndTime t)
  else (0, getDurationInSeconds t).

Definition loopStartSample (t : AudioTrack ST) : Z :=
  to_int (fst (loopBounds t) * sampleRate t).

Definition loopEndSample (t : AudioTrack ST) : Z :=
  Z.min (to_int (snd (loopBounds t) * sampleRate t))
        (getNumSamples (audioBuffer t)).

(** Where a block starts reading.  [Stop]: not looping and at or past
    the end of the region.  [At cs pos wrapped]: read from sample [cs],
    the position now being [pos]; [wrapped] tells whether the position
    was moved back into the region. *)
Inductive Located : Type :=
| Stop
| At (currentSample : Z) (position : Q) (wrapped : bool).

(** The block "Handle looping within the defined region", which both
    playback paths contain. *)
Definition locate (t : AudioTrack ST) : Located :=
  let loopStart := fst (loopBounds t) in
  let loopLengthSamples := (loopEndSample t - loopStartSample t)%Z in
  let currentSample := to_int (currentPosition t * sampleRate t) in
  if looping t then
    if (currentSample <? loopStartSample t)%Z
    then At (loopStartSample t) loopStart true
    else if (loopEndSample t <=? currentSample)%Z
    then
      let currentSample :=
        (loopStartSample t
         + Z.rem (currentSample - loopStartSample t) loopLengthSamples)%Z in
      At currentSample (inject_Z currentSample / sampleRate t) true
    else At currentSample (currentPosition t) false
  else if (loopEndSample t <=? currentSample)%Z then Stop
  else At currentSample (currentPosition t) false.

(** The position after [samplesToRead] frames were consumed:
    advanced, then wrapped to the loop start when looping and at or
    past the loop end. *)
Definition advance (t : AudioTrack ST) (position : Q) (samplesToRead : Z)
    : Q * bool :=
  let position := position + inject_Z samplesToRead / sampleRate t in
  if looping t && (snd (loopBounds t) <=? position)
  then (fst (loopBounds t), true)
  else (position, false).

(** [AudioTrack::processDirectPlayback]. *)
Definition processDirectPlayback (t : AudioTrack ST) (buffer : AudioBuffer)
    (startSample numSamples : Z) : Rendered :=
  let outputChannels := getNumChannels buffer in
  let inputChannels := getNumChannels (audioBuffer t) in
  let channelsToProcess := Z.min outputChannels inputChannels in
  if (loopEndSample t - loopStartSample t <=? 0)%Z then (t, buffer, [])
  else
    match locate t with
    | Stop => (t, buffer, [])
    | At currentSample position _ =>
        let t1 := with_currentPosition position t in
        let samplesToRead :=
          Z.min numSamples (loopEndSample t - currentSample) in
        if (samplesToRead <=? 0)%Z then (t1, buffer, [])
        else
          let buffer1 :=
            fold_left
              (fun b ch =>
                 Buffer.addFrom b ch startSample (audioBuffer t) ch
                   currentSample samplesToRead (volume t))
              (zrange 0 channelsToProcess) buffer in
          let reads1 :=
            map (fun _ => mkRead currentSample samplesToRead)
                (zrange 0 channelsToProcess) in
          let mono := (inputChannels =? 1)%Z && (2 <=? outputChannels)%Z in
          let buffer2 :=
            if mono
            then Buffer.addFrom buffer1 1 startSample (audioBuffer t) 0
                   currentSample samplesToRead (volume t)
            else buffer1 in
          let reads2 :=
            if mono then [mkRead currentSample samplesToRead] else [] in
          (with_currentPosition (fst (advance t position samplesToRead)) t1,
           buffer2, reads1 ++ reads2)
    end.

(** The input handed to [putSamples]: the frames
    [currentSample .. currentSample + samplesToRead) of every channel,
    interleaved when there is more than one channel. *)
Definition stretchInput (t : AudioTrack ST) (currentSample samplesToRead : Z)
    : list Q :=
  let inputChannels := getNumChannels (audioBuffer t) in
  let inputBuffer :=
    mkBuffer inputChannels samplesToRead
      (map (fun ch => Buffer.slice (audioBuffer t) ch currentSample
                        samplesToRead)
           (zrange 0 inputChannels)) in
  if (inputChannels =? 1)%Z then Buffer.channel inputBuffer 0
  else
    flat_map
      (fun sample =>
         map (fun ch => Buffer.getSample inputBuffer ch sample)
             (zrange 0 inputChannels))
      (zrange 0 samplesToRead).

(** The received frames written through [stretchedBuffer.getWritePointer (0)]. *)
Definition storeReceived (data : list Q) (b : AudioBuffer) : AudioBuffer :=
  Buffer.update_channel b 0
    (fun old => data ++ skipn (length data) old).

(** Mixing of [receivedSamples] stretched frames into the output. *)
Definition mixStretched (t : AudioTrack ST) (stretched buffer : AudioBuffer)
    (startSample numSamples receivedSamples : Z) : AudioBuffer :=
  let outputChannels := getNumChannels buffer in
  let inputChannels := getNumChannels (audioBuffer t) in
  let channelsToProcess := Z.min outputChannels inputChannels in
  let frames := zrange 0 (Z.min receivedSamples numSamples) in
  if (inputChannels =? 1)%Z
  then
    fold_left
      (fun b i =>
         let sample := Buffer.getSample stretched 0 i in
         let b1 := Buffer.addSample b 0 (startSample + i) (sample * volume t) in
         if (2 <=? outputChannels)%Z
         then Buffer.addSample b1 1 (startSample + i) (sample * volume t)
         else b1)
      frames buffer
  else
    fold_left
      (fun b i =>
         fold_left
           (fun b ch =>
              let sample :=
                Buffer.getSample stretched 0 (i * inputChannels + ch) in
              Buffer.addSample b ch (startSample + i) (sample * volume t))
           (zrange 0 channelsToProcess) b)
      frames buffer.

(** [AudioTrack::processWithSoundTouch]. *)
Definition processWithSoundTouch (t : AudioTrack ST) (buffer : AudioBuffer)
    (startSample numSamples : Z) : Rendered :=
  let inputChannels := getNumChannels (audioBuffer t) in
  let t0 := with_soundTouch (st_setTempo (stretchRatio t) (soundTouch t)) t in
  if (loopEndSample t - loopStartSample t <=? 0)%Z then (t0, buffer, [])
  else
    match locate t with
    | Stop => (t0, buffer, [])
    | At currentSample position wrapped =>
        let t1 := with_currentPosition position t0 in
        let t1 :=
          if wrapped then with_soundTouch (st_clear (soundTouch t1)) t1
          else t1 in
        let samplesToRead :=
          Z.min (numSamples * 2) (loopEndSample t - currentSample) in
        if (samplesToRead <=? 0)%Z then (t1, buffer, [])
        else
          let reads :=
            map (fun _ => mkRead currentSample samplesToRead)
                (zrange 0 inputChannels) in
          let st2 :=
            st_putSamples (stretchInput t currentSample samplesToRead)
              samplesToRead (soundTouch t1) in
          let '((data, receivedSamples), st3) :=
            st_receiveSamples numSamples st2 in
          let stretched := storeReceived data (stretchedBuffer t1) in
          let stretched :=
            if (0 <? receivedSamples)%Z
               && (negb (getNumChannels stretched =? inputChannels)%Z
                   || (getNumSamples stretched <? receivedSamples)%Z)
            then mkBuffer inputChannels receivedSamples (channelData stretched)
            else stretched in
          let buffer1 :=
            if (0 <? receivedSamples)%Z
            then mixStretched t stretched buffer startSample numSamples
                   receivedSamples
            else buffer in
          let t2 := with_stretchedBuffer stretched (with_soundTouch st3 t1) in
          let (position, atEnd) := advance t position samplesToRead in
          let t3 := with_currentPosition position t2 in
          let t3 :=
            if atEnd then with_soundTouch (st_clear (soundTouch t3)) t3
            else t3 in
          (t3, buffer1, reads)
    end.

(** [AudioTrack::processBlock]. *)
Definition processBlock (t : AudioTrack ST) (buffer : AudioBuffer)
    (startSample numSamples : Z) : Rendered :=
  if negb (isLoaded t) || muted t || (numSamples <=? 0)%Z
     || (startSample <? 0)%Z
  then (t, buffer, [])
  else
    let outputChannels := getNumChannels buffer in
    let inputChannels := getNumChannels (audioBuffer t) in
    let totalSamples := getNumSamples (audioBuffer t) in
    if (outputChannels <=? 0)%Z || (inputChannels <=? 0)%Z
       || (totalSamples <=? 0)%Z
    then (t, buffer, [])
    else if (getNumSamples buffer <? startSample + numSamples)%Z
    then (t, buffer, [])
    else if Qabs (stretchRatio t - 1) <? 0.02
    then processDirectPlayback t buffer startSample numSamples
    else processWithSoundTouch t buffer startSample numSamples.

End Playback.

(** ** MainComponent: the session, tempo synchronisation and the mixer *)

(** [std::sin] and pi, used only by the metronome click. *)
Class LibM : Type := {
  sin : Q -> Q;
  pi : Q
}.

(** [juce::AudioSourceChannelInfo]. *)
Record AudioSourceChannelInfo : Type := mkInfo {
  buffer : AudioBuffer;
  startSample : Z;
  numSamples : Z
}.

Section Session.

Context {ST : Type} `{SoundTouch ST} `{LibM}.

Record MainComponent : Type := mkMain {
  audioTracks : list (AudioTrack ST);
  masterTempo : Q;
  previousMasterTempo : Q;
  currentPlayPosition : Q;
  isPlaying : bool;
  isRecording : bool;
  autoSyncEnabled : bool;
  metronomeEnabled : bool;
  metronomePhase : Q;
  metronomeBeatInterval : Q;
  lastBeatTime : Q;
  metronomeVolume : Q
}.

Definition maxTracks : nat := 8.

(** [MainComponent::MainComponent ()] with [setupTracks]. *)
Definition newMainComponent : MainComponent :=
  mkMain (repeat (setMasterBPM 120 newTrack) maxTracks)
    120 120 0 false false true false 0 (60 / 120) 0 0.5.

Definition with_audioTracks (ts : list (AudioTrack ST)) (m : MainComponent)
    : MainComponent :=
  mkMain ts (masterTempo m) (previousMasterTempo m) (currentPlayPosition m)
    (isPlaying m) (isRecording m) (autoSyncEnabled m) (metronomeEnabled m)
    (metronomePhase m) (metronomeBeatInterval m) (lastBeatTime m)
    (metronomeVolume m).

Definition with_playing (playing : bool) (position : Q) (m : MainComponent)
    : MainComponent :=
  mkMain (audioTracks m) (masterTempo m) (previousMasterTempo m) position
    playing (isRecording m) (autoSyncEnabled m) (metronomeEnabled m)
    (metronomePhase m) (metronomeBeatInterval m) (lastBeatTime m)
    (metronomeVolume m).

Definition with_tempo (previous master interval : Q) (m : MainComponent)
    : MainComponent :=
  mkMain (audioTracks m) master previous (currentPlayPosition m)
    (isPlaying m) (isRecording m) (autoSyncEnabled m) (metronomeEnabled m)
    (metronomePhase m) interval (lastBeatTime m) (metronomeVolume m).

Definition with_metronome (enabled : bool) (phase interval lastBeat : Q)
    (m : MainComponent) : MainComponent :=
  mkMain (audioTracks m) (masterTempo m) (previousMasterTempo m)
    (currentPlayPosition m) (isPlaying m) (isRecording m)
    (autoSyncEnabled m) enabled phase interval lastBeat (metronomeVolume m).

Definition with_autoSync (enabled : bool) (m : MainComponent)
    : MainComponent :=
  mkMain (audioTracks m) (masterTempo m) (previousMasterTempo m)
    (currentPlayPosition m) (isPlaying m) (isRecording m) enabled
    (metronomeEnabled m) (metronomePhase m) (metronomeBeatInterval m)
    (lastBeatTime m) (metronomeVolume m).

(** [f] applied to the track at index [i] only. *)
Fixpoint atTrack (i : nat) (f : AudioTrack ST -> AudioTrack ST)
    (ts : list (AudioTrack ST)) : list (AudioTrack ST) :=
  match ts, i with
  | [], _ => []
  | t :: r, O => f t :: r
  | t :: r, S j => t :: atTrack j f r
  end.

(** [f i t] for every track [t] at index [i]. *)
Fixpoint mapTracksFrom (i : nat)
    (f : nat -> AudioTrack ST -> AudioTrack ST)
    (ts : list (AudioTrack ST)) : list (AudioTrack ST) :=
  match ts with
  | [] => []
  | t :: r => f i t :: mapTracksFrom (S i) f r
  end.

(** [MainComponent::generateClickSound]. *)
Definition generateClickSound (phase : Q) : Q :=
  let clickDuration := 0.01 in
  if clickDuration <? phase then 0
  else
    let frequency := 2000 in
    let envelope := 1 - phase / clickDuration in
    let envelope := envelope * envelope in
    let sineWave := sin (2 * pi * frequency * phase) in
    sineWave * envelope * 0.3.

(** [MainComponent::processMetronome]. *)
Definition processMetronome (m : MainComponent) (out : AudioBuffer)
    (nSamples : Z) : MainComponent * AudioBuffer :=
  if negb (metronomeEnabled m) || negb (isPlaying m) then (m, out)
  else
    let sampleRate := 44100 in
    let beatInterval := 60 / masterTempo m in
    let '(lastBeat, phase, out1) :=
      fold_left
        (fun (st : Q * Q * AudioBuffer) sample =>
           let '(lastBeat, phase, b) := st in
           let currentTime :=
             currentPlayPosition m + inject_Z sample / sampleRate in
           let timeSinceLastBeat := currentTime - lastBeat in
           let '(lastBeat, phase) :=
             if beatInterval <=? timeSinceLastBeat
             then (currentTime, 0) else (lastBeat, phase) in
           let clickSample := generateClickSound phase in
           let b :=
             if (1 <=? getNumChannels b)%Z
             then Buffer.addSample b 0 sample (clickSample * metronomeVolume m)
             else b in
           let b :=
             if (2 <=? getNumChannels b)%Z
             then Buffer.addSample b 1 sample (clickSample * metronomeVolume m)
             else b in
           (lastBeat, phase + 1 / sampleRate, b))
        (zrange 0 nSamples)
        (lastBeatTime m, metronomePhase m, out) in
    (with_metronome (metronomeEnabled m) phase beatInterval lastBeat m, out1).

(** The track loop of [getNextAudioBlock]. *)
Fixpoint renderTracks (hasSolo : bool) (ts : list (AudioTrack ST))
    (out : AudioBuffer) (start n : Z) : list (AudioTrack ST) * AudioBuffer :=
  match ts with
  | [] => ([], out)
  | t :: r =>
      let '(t', out') :=
        if isLoaded t then
          if muted t || (hasSolo && negb (solo t)) then (t, out)
          else fst (processBlock t out start n)
        else (t, out) in
      let '(r', out'') := renderTracks hasSolo r out' start n in
      (t' :: r', out'')
  end.

(** [MainComponent::getNextAudioBlock]: the session afterwards and the
    buffer of [bufferToFill] afterwards. *)
Definition getNextAudioBlock (m : MainComponent)
    (bufferToFill : AudioSourceChannelInfo) : MainComponent * AudioBuffer :=
  let out :=
    Buffer.clearRegion (buffer bufferToFill) (startSample bufferToFill)
      (numSamples bufferToFill) in
  if negb (isPlaying m) then (m, out)
  else
    let n := numSamples bufferToFill in
    let hasSolo := existsb solo (audioTracks m) in
    let '(ts, out1) :=
      renderTracks hasSolo (audioTracks m) out (startSample bufferToFill) n in
    let m1 := with_audioTracks ts m in
    let '(m2, out2) :=
      if metronomeEnabled m1 then processMetronome m1 out1 n
      else (m1, out1) in
    let sampleRate := 44100 in
    (with_playing (isPlaying m2)
       (currentPlayPosition m2 + inject_Z n / sampleRate) m2,
     out2).

(** [MainComponent::play]. *)
Definition play (m : MainComponent) : MainComponent :=
  if negb (isPlaying m)
  then
    with_audioTracks
      (map (setPosition (currentPlayPosition m)) (audioTracks m))
      (with_playing true (currentPlayPosition m) m)
  else with_playing false (currentPlayPosition m) m.

(** [MainComponent::stop]. *)
Definition stop (m : MainComponent) : MainComponent :=
  with_audioTracks (map reset (audioTracks m)) (with_playing false 0 m).

(** [MainComponent::setTempo]. *)
Definition setTempo (bpm : Q) (m : MainComponent) : MainComponent :=
  let scaleFactor := bpm / previousMasterTempo m in
  let ts :=
    map (fun t => if isLoaded t then scaleStretchRatio scaleFactor t else t)
        (audioTracks m) in
  let m1 := with_tempo (masterTempo m) bpm (60 / bpm) m in
  with_audioTracks (map (setMasterBPM bpm) ts) m1.

(** [MainComponent::setInitialMasterBPM]; [definingTrack] is the index
    of the track the pointer designates, [None] for [nullptr]. *)
Definition setInitialMasterBPM (bpm : Q) (definingTrack : option nat)
    (m : MainComponent) : MainComponent :=
  let m1 := with_tempo (masterTempo m) bpm (60 / bpm) m in
  let ts :=
    match definingTrack with
    | Some d =>
        atTrack d (fun t => setMasterBPM bpm (setStretchRatio 1 t))
                (audioTracks m)
    | None => audioTracks m
    end in
  let ts :=
    mapTracksFrom 0
      (fun i t =>
         match definingTrack with
         | Some d => if Nat.eqb i d then t else setMasterBPM bpm t
         | None => setMasterBPM bpm t
         end) ts in
  with_audioTracks ts m1.

(** [MainComponent::findAverageBPM]. *)
Definition findAverageBPM (m : MainComponent) : Q :=
  let bpms :=
    filter (fun bpm => (60 <? bpm) && (bpm <? 200))
           (map detectedBPM (filter isLoaded (audioTracks m))) in
  match bpms with
  | [] => 0
  | _ => qsum bpms / inject_Z (Z.of_nat (length bpms))
  end.

(** [MainComponent::autoSyncAllTracks]. *)
Definition autoSyncAllTracks (m : MainComponent) : MainComponent :=
  let m1 := with_autoSync (negb (autoSyncEnabled m)) m in
  if autoSyncEnabled m1 then
    let avgBPM := findAverageBPM m1 in
    if 0 <? avgBPM then setTempo avgBPM m1 else m1
  else m1.

(** [MainComponent::syncNewTrackToMaster] on the track at index [i]. *)
Definition syncNewTrackToMaster (i : nat) (m : MainComponent)
    : MainComponent :=
  with_audioTracks
    (atTrack i
       (fun t =>
          if isLoaded t
          then autoSyncToMaster (setMasterBPM (masterTempo m) t)
          else t)
       (audioTracks m)) m.

(** [MainComponent::toggleMetronome]. *)
Definition toggleMetronome (m : MainComponent) : MainComponent :=
  with_metronome (negb (metronomeEnabled m)) 0 (metronomeBeatInterval m)
    0 m.

(** The counting loop of [onTrackLoaded]: the number of loaded tracks
    and the index of the last one. *)
Fixpoint countLoadedFrom (i : nat) (ts : list (AudioTrack ST))
    (tracksWithAudio : Z) (loadedTrack : option nat) : Z * option nat :=
  match ts with
  | [] => (tracksWithAudio, loadedTrack)
  | t :: r =>
      if isLoaded t
      then countLoadedFrom (S i) r (tracksWithAudio + 1) (Some i)
      else countLoadedFrom (S i) r tracksWithAudio loadedTrack
  end.

(** [MainComponent::onTrackLoaded]. *)
Definition onTrackLoaded (trackBPM : Q) (m : MainComponent) : MainComponent :=
  let '(tracksWithAudio, loadedTrack) :=
    countLoadedFrom 0 (audioTracks m) 0 None in
  match loadedTrack with
  | Some d =>
      if (tracksWithAudio =? 1)%Z && (0 <? trackBPM)
      then setInitialMasterBPM trackBPM (Some d) m
      else m
  | None => m
  end.

(** The callback of [TrackComponent::loadButtonClicked] for track [i]:
    load the chosen file, then notify the session when a BPM was
    detected. *)
Definition loadButtonClicked (i : nat) (reader : option AudioFormatReader)
    (m : MainComponent) : MainComponent :=
  let m1 := with_audioTracks (atTrack i (loadAudioFile reader) (audioTracks m)) m in
  match nth_error (audioTracks m1) i with
  | Some t =>
      if 0 <? detectedBPM t then onTrackLoaded (detectedBPM t) m1 else m1
  | None => m
  end.

End Session.

Arguments MainComponent ST : clear implicits.


(** ** Call sequences *)

(** The calls that can change a stretch ratio: the three track methods,
    on the track at a given index, and the two session methods. *)
Inductive TempoCall : Type :=
| CallSetStretchRatio (track : nat) (ratio : Q)
| CallScaleStretchRatio (track : nat) (scaleFactor : Q)
| CallAutoSyncToMaster (track : nat)
| CallSetTempo (bpm : Q)
| CallSetInitialMasterBPM (bpm : Q) (definingTrack : option nat).

(** One [processBlock] call: the output buffer and the region to fill. *)
Record BlockCall : Type := mkCall {
  callBuffer : AudioBuffer;
  callStart : Z;
  callFrames : Z
}.

Section Sequences.

Context {ST : Type} `{SoundTouch ST}.

Definition applyCall (m : MainComponent ST) (c : TempoCall)
    : MainComponent ST :=
  match c with
  | CallSetStretchRatio i ratio =>
      with_audioTracks (atTrack i (setStretchRatio ratio) (audioTracks m)) m
  | CallScaleStretchRatio i scaleFactor =>
      with_audioTracks
        (atTrack i (scaleStretchRatio scaleFactor) (audioTracks m)) m
  | CallAutoSyncToMaster i =>
      with_audioTracks (atTrack i autoSyncToMaster (audioTracks m)) m
  | CallSetTempo bpm => setTempo bpm m
  | CallSetInitialMasterBPM bpm d => setInitialMasterBPM bpm d m
  end.

Definition applyCalls (cs : list TempoCall) (m : MainComponent ST)
    : MainComponent ST :=
  fold_left applyCall cs m.

(** A sequence of [processBlock] calls on one track: the track
    afterwards and every read of the source buffer, in order. *)
Fixpoint renderBlocks (t : AudioTrack ST) (calls : list BlockCall)
    : AudioTrack ST * list SourceRead :=
  match calls with
  | [] => (t, [])
  | c :: rest =>
      let '(t1, _, reads) :=
        processBlock t (callBuffer c) (callStart c) (callFrames c) in
      let '(t2, reads') := renderBlocks t1 rest in
      (t2, reads ++ reads')
  end.

(** The clamp range of the stretch ratio. *)
Definition ratioInRange (t : AudioTrack ST) : Prop :=
  0.25 <= stretchRatio t <= 4.

(** The loop regions [setLoopRegion] accepts. *)
Definition validRegion (t : AudioTrack ST) (startTime endTime : Q) : Prop :=
  0 <= startTime /\ startTime < endTime /\ endTime <= getDurationInSeconds t.

(** [t'] differs from [t] at most in its position, its stretcher and
    its stretched-output scratch buffer. *)
Definition sameSource (t t' : AudioTrack ST) : Prop :=
  audioBuffer t' = audioBuffer t /\ waveformPeaks t' = waveformPeaks t /\
  sampleRate t' = sampleRate t /\ stretchRatio t' = stretchRatio t /\
  detectedBPM t' = detectedBPM t /\ masterBPM t' = masterBPM t /\
  muted t' = muted t /\ solo t' = solo t /\ looping t' = looping t /\
  volume t' = volume t /\
  hasCustomLoopRegion t' = hasCustomLoopRegion t /\
  loopStartTime t' = loopStartTime t /\ loopEndTime t' = loopEndTime t.

(** What a playback path asked for at most [cap] input frames does to
    the position and which source frames it reads: nothing at all
    ([Idle]); only the looping adjustment of the position, with no
    frame left to read ([Parked]); or a read of [consumed] frames at
    [cs] followed by the advance of the position ([Played]). *)
Inductive Outcome (t : AudioTrack ST) (cap : Z) (t' : AudioTrack ST)
    (reads : list SourceRead) : Prop :=
| Idle :
    currentPosition t' = currentPosition t -> reads = [] ->
    Outcome t cap t' reads
| Parked (cs : Z) (p : Q) (w : bool) :
    (loopStartSample t < loopEndSample t)%Z ->
    locate t = At cs p w ->
    (Z.min cap (loopEndSample t - cs) <= 0)%Z ->
    currentPosition t' = p -> reads = [] ->
    Outcome t cap t' reads
| Played (cs : Z) (p : Q) (w : bool) :
    (loopStartSample t < loopEndSample t)%Z ->
    locate t = At cs p w ->
    (0 < Z.min cap (loopEndSample t - cs))%Z ->
    currentPosition t'
    = fst (advance t p (Z.min cap (loopEndSample t - cs))) ->
    Forall (fun r => r = mkRead cs (Z.min cap (loopEndSample t - cs)))
           reads ->
    Outcome t cap t' reads.

(** The position maps to a frame at or after the start of the active
    region. *)
Definition notBeforeRegion (t : AudioTrack ST) : Prop :=
  (loopStartSample t <= to_int (currentPosition t * sampleRate t))%Z.

(** The source frames touched by a read. *)
Definition touches (r : SourceRead) (i : Z) : Prop :=
  (first r <= i < first r + count r)%Z.

End Sequences.

(** ** Concrete collaborators and inputs used by the examples *)

Module Fixtures.

(** A stretcher that queues what it is given and hands it back
    unchanged, oldest first. *)
#[export] Instance queueStretcher : SoundTouch (list Q) := {
  st_new := [];
  st_setSampleRate := fun _ q => q;
  st_setChannels := fun _ q => q;
  st_setTempo := fun _ q => q;
  st_setPitch := fun _ q => q;
  st_clear := fun _ => [];
  st_putSamples := fun samples _ q => q ++ samples;
  st_receiveSamples := fun maxFrames q =>
    let out := firstn (Z.to_nat maxFrames) q in
    ((out, Z.of_nat (length out)), skipn (Z.to_nat maxFrames) q)
}.

(** A decoded mono clip of [n] frames of silence at [rate] Hz. *)
Definition silence (n : Z) (rate : Q) : AudioFormatReader :=
  mkReader 1 n rate [repeat 0 (Z.to_nat n)].

(** A decoded mono clip holding the ramp 0, 1, ..., n-1 at [rate] Hz. *)
Definition ramp (n : Z) (rate : Q) : AudioFormatReader :=
  mkReader 1 n rate [map inject_Z (zrange 0 n)].

(** A fresh track with a clip loaded. *)
Definition loaded (r : AudioFormatReader) : AudioTrack (list Q) :=
  loadAudioFile (Some r) (setMasterBPM 120 newTrack).

(** A one-channel output buffer of [n] frames, all zero. *)
Definition outMono (n : Z) : AudioBuffer :=
  mkBuffer 1 n [repeat 0 (Z.to_nat n)].

(** One second of silence at 8000 Hz. *)
Definition quietSecond : AudioFormatReader := silence 8000 8000.

(** A ramp of 1000 frames at 44100 Hz (about 23 ms). *)
Definition shortRamp : AudioFormatReader := ramp 1000 44100.

(** Track 0 loaded through the load button in a fresh session. *)
Definition oneLoaded : MainComponent (list Q) :=
  loadButtonClicked 0 (Some shortRamp) newMainComponent.

(** Tracks 0 and 1 loaded, track 1 then set to the ratio 0.8. *)
Definition twoLoaded : MainComponent (list Q) :=
  applyCall (loadButtonClicked 1 (Some shortRamp) oneLoaded)
            (CallSetStretchRatio 1 0.8).

(** The stretch ratio of track [i] of a session. *)
Definition ratioOf (i : nat) (m : MainComponent (list Q)) : Q :=
  stretchRatio (nth i (audioTracks m) newTrack).

(** The loaded ramp stretched to double tempo. *)
Definition fastRamp : AudioTrack (list Q) :=
  setStretchRatio 2 (loaded shortRamp).

End Fixtures.

(** ** Further operations of the track and the session *)

(** The calls a track receives from its component and from the
    session. *)
Inductive TrackCall : Type :=
| DoLoadAudioFile (reader : option AudioFormatReader)
| DoSetStretchRatio (ratio : Q)
| DoScaleStretchRatio (scaleFactor : Q)
| DoSetPosition (positionInSeconds : Q)
| DoReset
| DoSetMasterBPM (bpm : Q)
| DoSetManualBPM (bpm : Q)
| DoAutoSyncToMaster
| DoSetLoopRegion (startTime endTime : Q)
| DoClearLoopRegion
| DoSetMuted (b : bool)
| DoSetSolo (b : bool)
| DoSetLooping (b : bool)
| DoSetVolume (v : Q)
| DoProcessBlock (c : BlockCall).

Section MoreTrack.

Context {ST : Type} `{SoundTouch ST}.

Definition applyTrackCall (t : AudioTrack ST) (c : TrackCall)
    : AudioTrack ST :=
  match c with
  | DoLoadAudioFile reader => loadAudioFile reader t
  | DoSetStretchRatio ratio => setStretchRatio ratio t
  | DoScaleStretchRatio k => scaleStretchRatio k t
  | DoSetPosition p => setPosition p t
  | DoReset => reset t
  | DoSetMasterBPM bpm => setMasterBPM bpm t
  | DoSetManualBPM bpm => setManualBPM bpm t
  | DoAutoSyncToMaster => autoSyncToMaster t
  | DoSetLoopRegion s e => setLoopRegion s e t
  | DoClearLoopRegion => clearLoopRegion t
  | DoSetMuted b => setMuted b t
  | DoSetSolo b => setSolo b t
  | DoSetLooping b => setLooping b t
  | DoSetVolume v => setVolume v t
  | DoProcessBlock c =>
      fst (fst (processBlock t (callBuffer c) (callStart c) (callFrames c)))
  end.

Definition applyTrackCalls (cs : list TrackCall) (t : AudioTrack ST)
    : AudioTrack ST :=
  fold_left applyTrackCall cs t.

(** An installed loop region lies inside the clip. *)
Definition regionInsideClip (t : AudioTrack ST) : Prop :=
  hasCustomLoopRegion t = true ->
  0 <= loopStartTime t /\ loopStartTime t < loopEndTime t
  /\ loopEndTime t <= getDurationInSeconds t.

(** The region fields and the clip they refer to agree. *)
Definition sameRegion (t t' : AudioTrack ST) : Prop :=
  audioBuffer t' = audioBuffer t /\ sampleRate t' = sampleRate t
  /\ hasCustomLoopRegion t' = hasCustomLoopRegion t
  /\ loopStartTime t' = loopStartTime t /\ loopEndTime t' = loopEndTime t.

(** No BPM yet, or one inside the accepted range. *)
Definition bpmSettled (t : AudioTrack ST) : Prop :=
  detectedBPM t = 0 \/ 60 <= detectedBPM t <= 200.

(** Whether [getNextAudioBlock] passes a track by. *)
Definition skipped (hasSolo : bool) (t : AudioTrack ST) : bool :=
  negb (isLoaded t) || muted t || (hasSolo && negb (solo t)).

(** [MainComponent::updatePlayPosition]. *)
Definition updatePlayPosition (m : MainComponent ST) : MainComponent ST :=
  with_audioTracks
    (map (setPosition (currentPlayPosition m)) (audioTracks m)) m.

(** [MainComponent::setTrackPosition]. *)
Definition setTrackPosition (trackIndex : Z) (position : Q)
    (m : MainComponent ST) : MainComponent ST :=
  if (0 <=? trackIndex)%Z && (trackIndex <? Z.of_nat maxTracks)%Z
     && (Z.to_nat trackIndex <? length (audioTracks m))%nat
  then
    with_playing (isPlaying m) position
      (with_audioTracks
         (atTrack (Z.to_nat trackIndex) (setPosition position)
                  (audioTracks m)) m)
  else m.

(** [TrackComponent::onWaveformBPMChanged] for track [i]: the manual
    correction, then the notification of the session. *)
Definition onWaveformBPMChanged (i : nat) (bpm : Q) (m : MainComponent ST)
    : MainComponent ST :=
  onTrackLoaded bpm
    (with_audioTracks (atTrack i (setManualBPM bpm) (audioTracks m)) m).

End MoreTrack.

(** The events the session reacts to: the transport callbacks, the
    handlers of a track's controls (on the track at index [track]),
    the remaining public operations of the session and the audio
    callback. *)
Inductive SessionCall : Type :=
| OnPlay
| OnStop
| OnTempoChanged (bpm : Q)
| OnAutoSync
| OnMetronome
| OnLoadButton (track : nat) (reader : option AudioFormatReader)
| OnMuteButton (track : nat)
| OnSoloButton (track : nat)
| OnLoopButton (track : nat)
| OnVolumeSlider (track : nat) (v : Q)
| OnStretchSlider (track : nat) (ratio : Q)
| OnWaveformPosition (track : nat) (position : Q)
| OnWaveformSelection (track : nat) (startTime endTime : Q)
| OnClearSelection (track : nat)
| OnWaveformBPM (track : nat) (bpm : Q)
| OnUpdatePlayPosition
| OnSetTrackPosition (trackIndex : Z) (position : Q)
| OnSyncNewTrack (track : nat)
| OnAudioBlock (bufferToFill : AudioSourceChannelInfo).

Section SessionCalls.

Context {ST : Type} `{SoundTouch ST} `{LibM}.

(** A handler of [TrackComponent] acting on its own track. *)
Definition onTrack (i : nat) (f : AudioTrack ST -> AudioTrack ST)
    (m : MainComponent ST) : MainComponent ST :=
  with_audioTracks (atTrack i f (audioTracks m)) m.

Definition applySessionCall (m : MainComponent ST) (c : SessionCall)
    : MainComponent ST :=
  match c with
  | OnPlay => play m
  | OnStop => stop m
  | OnTempoChanged bpm => setTempo bpm m
  | OnAutoSync => autoSyncAllTracks m
  | OnMetronome => toggleMetronome m
  | OnLoadButton i reader => loadButtonClicked i reader m
  | OnMuteButton i => onTrack i (fun t => setMuted (negb (muted t)) t) m
  | OnSoloButton i => onTrack i (fun t => setSolo (negb (solo t)) t) m
  | OnLoopButton i => onTrack i (fun t => setLooping (negb (looping t)) t) m
  | OnVolumeSlider i v => onTrack i (setVolume v) m
  | OnStretchSlider i ratio => onTrack i (setStretchRatio ratio) m
  | OnWaveformPosition i p => onTrack i (setPosition p) m
  | OnWaveformSelection i s e => onTrack i (setLoopRegion s e) m
  | OnClearSelection i => onTrack i clearLoopRegion m
  | OnWaveformBPM i bpm => onWaveformBPMChanged i bpm m
  | OnUpdatePlayPosition => updatePlayPosition m
  | OnSetTrackPosition i p => setTrackPosition i p m
  | OnSyncNewTrack i => syncNewTrackToMaster i m
  | OnAudioBlock bufferToFill => fst (getNextAudioBlock m bufferToFill)
  end.

Definition applySessionCalls (cs : list SessionCall) (m : MainComponent ST)
    : MainComponent ST :=
  fold_left applySessionCall cs m.

(** All [maxTracks] tracks are there and refer to the session's master
    tempo. *)
Definition tempoShared (m : MainComponent ST) : Prop :=
  length (audioTracks m) = maxTracks
  /\ Forall (fun t => masterBPM t = masterTempo m) (audioTracks m).

End SessionCalls.

(** The number of samples stored for channel [ch]. *)
Definition sampleCount (b : AudioBuffer) (ch : Z) : Z :=
  Z.of_nat (length (Buffer.channel b ch)).

(** ** WaveformComponent: the time axis of a track's display *)

Module View.


(** The fields of [WaveformComponent] behind the time axis, the beat
    grid and the selection. *)
Record WaveformComponent : Type := mkWave {
  totalDuration : Q;
  zoomFactor : Q;
  viewStartTime : Q;
  detectedBPM : Q;
  gridPositions : list Q;
  draggedGridIndex : Z;
  isDraggingGrid : bool;
  hasSelection : bool;
  selectionStart : Q;
  selectionEnd : Q
}.

Definition with_view (zoom start : Q) (v : WaveformComponent)
    : WaveformComponent :=
  mkWave (totalDuration v) zoom start (detectedBPM v) (gridPositions v)
    (draggedGridIndex v) (isDraggingGrid v) (hasSelection v)
    (selectionStart v) (selectionEnd v).

Definition with_grid (bpm : Q) (grid : list Q) (v : WaveformComponent)
    : WaveformComponent :=
  mkWave (totalDuration v) (zoomFactor v) (viewStartTime v) bpm grid
    (draggedGridIndex v) (isDraggingGrid v) (hasSelection v)
    (selectionStart v) (selectionEnd v).




(** [WaveformComponent::setZoomFactor]. *)
Definition setZoomFactor (zoom : Q) (v : WaveformComponent)
    : WaveformComponent :=
  let newZoom := jlimit 0.1 20 zoom in
  if 0.01 <? Qabs (zoomFactor v - newZoom)
  then
    let visibleDuration := totalDuration v / zoomFactor v in
    let centerTime := viewStartTime v + visibleDuration * 0.5 in
    let newVisibleDuration := totalDuration v / newZoom in
    if (0 <? newVisibleDuration) && (0 <? totalDuration v)
    then
      let start := centerTime - newVisibleDuration * 0.5 in
      with_view newZoom
        (jlimit 0 (jmax 0 (totalDuration v - newVisibleDuration)) start) v
    else with_view newZoom 0 v
  else v.

(** The loop [for (beatTime = 0; beatTime < totalDuration;
    beatTime += beatInterval)] of [initializeGridPositions]. *)
Fixpoint gridLoop (fuel : nat) (beatTime beatInterval total : Q) : list Q :=
  match fuel with
  | O => []
  | S f =>
      if beatTime <? total
      then beatTime :: gridLoop f (beatTime + beatInterval) beatInterval total
      else []
  end.

(** With a positive interval the loop ends after at most
    [ceil (total / interval)] iterations. *)
Definition gridFuel (beatInterval total : Q) : nat :=
  Z.to_nat (Qceiling (total / beatInterval)).

(** [WaveformComponent::initializeGridPositions]: the new
    [gridPositions]. *)
Definition initializeGridPositions (v : WaveformComponent) : list Q :=
  if (detectedBPM v <=? 0) || (totalDuration v <=? 0) then []
  else
    let beatInterval := 60 / detectedBPM v in
    gridLoop (gridFuel beatInterval (totalDuration v)) 0 beatInterval
             (totalDuration v).

(** [WaveformComponent::updateBPMFromGrid]: the component afterwards
    and the BPM passed to [onBPMChanged], if it is called. *)
Definition updateBPMFromGrid (v : WaveformComponent)
    : WaveformComponent * option Q :=
  if (draggedGridIndex v <=? 0)%Z || negb (isDraggingGrid v) then (v, None)
  else
    let draggedBeatTime := at_ (gridPositions v) (draggedGridIndex v) in
    let newBeatInterval := draggedBeatTime / inject_Z (draggedGridIndex v) in
    let newBPM := 60 / newBeatInterval in
    let newBPM := jlimit 60 200 newBPM in
    if 0.1 <? Qabs (newBPM - detectedBPM v)
    then
      let v1 := with_grid newBPM (gridPositions v) v in
      (with_grid newBPM (initializeGridPositions v1) v1, Some newBPM)
    else (v, None).

End View.

(** Onset times that follow each other at the constant distance [d]. *)
Fixpoint evenlySpaced (d : Q) (onsetTimes : list Q) : Prop :=
  match onsetTimes with
  | a :: ((b :: _) as rest) => b - a == d /\ evenlySpaced d rest
  | _ => True
  end.

(** ** Further collaborators and inputs used by the examples *)

Module Inputs.

Import Fixtures.

(** A polynomial stand-in for [std::sin], with 355/113 for pi. *)
#[export] Instance polynomialSine : LibM := {
  sin := fun x => x - x * x * x / 6 + x * x * x * x * x / 120;
  pi := 355 # 113
}.

(** The loaded ramp as a one-shot, moved to its end. *)
Definition finishedRamp : AudioTrack (list Q) :=
  setPosition 1 (setLooping false (loaded shortRamp)).

(** Track 0 loaded, then muted, then the transport started. *)
Definition mutedSession : MainComponent (list Q) :=
  applySessionCalls
    [OnLoadButton 0 (Some shortRamp); OnMuteButton 0; OnPlay]
    newMainComponent.

(** A request to fill frames 16 to 31 of a mono buffer of 64 frames. *)
Definition secondQuarter : AudioSourceChannelInfo :=
  mkInfo (outMono 64) 16 16.

(** A ten-second display zoomed in twice, showing seconds 1 to 6. *)
Definition zoomedView : View.WaveformComponent :=
  View.mkWave 10 2 1 120 [] 0 false false 0 0.

(** The same clip with grid line 1 dragged to 0.4 s. *)
Definition draggedView : View.WaveformComponent :=
  View.mkWave 10 1 0 120 [0; 0.4; 1] 1 true false 0 0.


End Inputs.

(** * Properties *)

(** ** Comparisons and conversions *)

Lemma ltb_lt (a b : Q) : (a <? b) = true <-> a < b.
Proof.
  unfold ltb. rewrite negb_true_iff.
  split; intro Hab.
  - apply Qnot_le_lt. intro Hle. apply Qle_bool_iff in Hle. congruence.
  - destruct (Qle_bool b a) eqn:E; [|reflexivity].
    apply Qle_bool_iff in E. exfalso. apply (Qlt_not_le _ _ Hab E).
Qed.

Lemma ltb_ge (a b : Q) : (a <? b) = false <-> b <= a.
Proof.
  unfold ltb. rewrite negb_false_iff. apply Qle_bool_iff.
Qed.

Lemma leb_le (a b : Q) : (a <=? b) = true <-> a <= b.
Proof. apply Qle_bool_iff. Qed.

Lemma leb_gt (a b : Q) : (a <=? b) = false <-> b < a.
Proof.
  unfold leb. split; intro Hab.
  - apply Qnot_le_lt. intro Hle. apply Qle_bool_iff in Hle. congruence.
  - destruct (Qle_bool a b) eqn:E; [|reflexivity].
    apply Qle_bool_iff in E. exfalso. apply (Qlt_not_le _ _ Hab E).
Qed.

Lemma ltb_reflect (a b : Q) : reflect (a < b) (a <? b).
Proof.
  destruct (a <? b) eqn:E; constructor.
  - now apply ltb_lt.
  - apply ltb_ge in E. now apply Qle_not_lt.
Qed.

Lemma leb_reflect (a b : Q) : reflect (a <= b) (a <=? b).
Proof.
  destruct (a <=? b) eqn:E; constructor.
  - now apply leb_le.
  - apply leb_gt in E. now apply Qlt_not_le.
Qed.

(** Case analysis on every comparison of doubles in the goal. *)
Ltac qcompare :=
  repeat match goal with
  | |- context [?a <? ?b] =>
      let E := fresh "E" in destruct (ltb_reflect a b) as [E|E]
  | |- context [?a <=? ?b] =>
      let E := fresh "E" in destruct (leb_reflect a b) as [E|E]
  end.

Lemma jlimit_range (lo hi v : Q) :
  lo <= hi -> lo <= jlimit lo hi v <= hi.
Proof.
  intro Hlh. unfold jlimit. qcompare; lra.
Qed.

#[export] Instance to_int_comp : Proper (Qeq ==> eq) to_int.
Proof.
  intros x y Hxy. unfold to_int.
  destruct (ltb_reflect x 0) as [Hx|Hx], (ltb_reflect y 0) as [Hy|Hy];
    try (rewrite Hxy in Hx; contradiction).
  - now apply Qceiling_comp.
  - now apply Qfloor_comp.
Qed.

Lemma to_int_inject (z : Z) : to_int (inject_Z z) = z.
Proof.
  unfold to_int. destruct (inject_Z z <? 0).
  - apply Qceiling_Z.
  - apply Qfloor_Z.
Qed.

Lemma Qceiling_nonpos (x : Q) : x <= 0 -> (Qceiling x <= 0)%Z.
Proof.
  intro Hx. change 0%Z with (Qceiling 0). now apply Qceiling_resp_le.
Qed.

Lemma Qfloor_nonneg (x : Q) : 0 <= x -> (0 <= Qfloor x)%Z.
Proof.
  intro Hx. change 0%Z with (Qfloor 0). now apply Qfloor_resp_le.
Qed.

Lemma to_int_mono (x y : Q) : x <= y -> (to_int x <= to_int y)%Z.
Proof.
  intro Hxy. unfold to_int.
  destruct (ltb_reflect x 0) as [Hx|Hx], (ltb_reflect y 0) as [Hy|Hy].
  - now apply Qceiling_resp_le.
  - assert (Qceiling x <= 0)%Z by (apply Qceiling_nonpos; lra).
    assert (0 <= Qfloor y)%Z by (apply Qfloor_nonneg; lra).
    lia.
  - lra.
  - now apply Qfloor_resp_le.
Qed.

Lemma to_int_nonneg (x : Q) : 0 <= x -> (0 <= to_int x)%Z.
Proof.
  intro Hx. change 0%Z with (to_int 0). now apply to_int_mono.
Qed.

(** On a non-negative value the conversion is the floor. *)
Lemma to_int_floor (x : Q) : 0 <= x -> to_int x = Qfloor x.
Proof.
  intro Hx. unfold to_int.
  destruct (ltb_reflect x 0); [lra | reflexivity].
Qed.

Lemma to_int_below (x : Q) : 0 <= x -> inject_Z (to_int x) <= x.
Proof.
  intro Hx. rewrite to_int_floor by assumption. apply Qfloor_le.
Qed.

(** ** The stretch ratio stays in [0.25, 4] *)

Section RatioBounds.

Context {ST : Type} `{SoundTouch ST}.

Lemma setStretchRatio_range (ratio : Q) (t : AudioTrack ST) :
  ratioInRange t -> ratioInRange (setStretchRatio ratio t).
Proof.
  unfold ratioInRange, setStretchRatio. intro Ht.
  destruct (0.001 <? _); [|exact Ht].
  simpl. apply jlimit_range. lra.
Qed.

Lemma scaleStretchRatio_range (scaleFactor : Q) (t : AudioTrack ST) :
  ratioInRange t -> ratioInRange (scaleStretchRatio scaleFactor t).
Proof.
  unfold ratioInRange, scaleStretchRatio. intro Ht.
  destruct (0.001 <? _); [|exact Ht].
  simpl. apply jlimit_range. lra.
Qed.

Lemma autoSyncToMaster_range (t : AudioTrack ST) :
  ratioInRange t -> ratioInRange (autoSyncToMaster t).
Proof.
  unfold autoSyncToMaster. intro Ht.
  destruct (_ && _); [|exact Ht].
  now apply setStretchRatio_range.
Qed.

Lemma setMasterBPM_range (bpm : Q) (t : AudioTrack ST) :
  ratioInRange t -> ratioInRange (setMasterBPM bpm t).
Proof. intro Ht. exact Ht. Qed.

Lemma atTrack_Forall (P : AudioTrack ST -> Prop) (f : AudioTrack ST -> AudioTrack ST)
    (i : nat) (ts : list (AudioTrack ST)) :
  (forall t, P t -> P (f t)) -> Forall P ts -> Forall P (atTrack i f ts).
Proof.
  intros Hf Hts. revert i.
  induction Hts as [|t r Ht Hr IH]; intros [|i]; simpl; constructor; auto.
Qed.

Lemma mapTracksFrom_Forall (P : AudioTrack ST -> Prop)
    (f : nat -> AudioTrack ST -> AudioTrack ST)
    (i : nat) (ts : list (AudioTrack ST)) :
  (forall j t, P t -> P (f j t)) -> Forall P ts ->
  Forall P (mapTracksFrom i f ts).
Proof.
  intros Hf Hts. revert i.
  induction Hts as [|t r Ht Hr IH]; intro i; simpl; constructor; auto.
Qed.

Lemma map_Forall (P : AudioTrack ST -> Prop) (f : AudioTrack ST -> AudioTrack ST)
    (ts : list (AudioTrack ST)) :
  (forall t, P t -> P (f t)) -> Forall P ts -> Forall P (map f ts).
Proof.
  intros Hf Hts. induction Hts; simpl; constructor; auto.
Qed.

Lemma setTempo_range (bpm : Q) (m : MainComponent ST) :
  Forall ratioInRange (audioTracks m) ->
  Forall ratioInRange (audioTracks (setTempo bpm m)).
Proof.
  intro Hm. unfold setTempo. simpl.
  apply map_Forall; [apply setMasterBPM_range|].
  apply map_Forall; [|exact Hm].
  intros t Ht. destruct (isLoaded t); [|exact Ht].
  now apply scaleStretchRatio_range.
Qed.

Lemma setInitialMasterBPM_range (bpm : Q) (d : option nat)
    (m : MainComponent ST) :
  Forall ratioInRange (audioTracks m) ->
  Forall ratioInRange (audioTracks (setInitialMasterBPM bpm d m)).
Proof.
  intro Hm. unfold setInitialMasterBPM. simpl.
  apply mapTracksFrom_Forall.
  - intros j t Ht. destruct d as [d|]; [destruct (Nat.eqb j d)|]; exact Ht.
  - destruct d as [d|]; [|exact Hm].
    apply atTrack_Forall; [|exact Hm].
    intros t Ht. apply setMasterBPM_range. now apply setStretchRatio_range.
Qed.

Lemma applyCall_range (c : TempoCall) (m : MainComponent ST) :
  Forall ratioInRange (audioTracks m) ->
  Forall ratioInRange (audioTracks (applyCall m c)).
Proof.
  intro Hm. destruct c as [i r|i s|i|bpm|bpm d]; simpl.
  - apply atTrack_Forall; [apply setStretchRatio_range | exact Hm].
  - apply atTrack_Forall; [apply scaleStretchRatio_range | exact Hm].
  - apply atTrack_Forall; [apply autoSyncToMaster_range | exact Hm].
  - now apply setTempo_range.
  - now apply setInitialMasterBPM_range.
Qed.

Lemma applyCalls_range (cs : list TempoCall) (m : MainComponent ST) :
  Forall ratioInRange (audioTracks m) ->
  Forall ratioInRange (audioTracks (applyCalls cs m)).
Proof.
  revert m. induction cs as [|c cs IH]; intros m Hm; simpl.
  - exact Hm.
  - apply IH. now apply applyCall_range.
Qed.

(** C3.  Starting from tracks whose stretch ratio is 1.0, after any
    finite sequence of [setStretchRatio], [scaleStretchRatio],
    [autoSyncToMaster], [setTempo] and [setInitialMasterBPM] calls,
    with any arguments and on any tracks, every track's stretch ratio
    lies in [0.25, 4.0]. *)
Theorem stretchRatio_always_clamped (m : MainComponent ST)
    (calls : list TempoCall) :
  Forall (fun t => stretchRatio t == 1) (audioTracks m) ->
  Forall (fun t => 0.25 <= stretchRatio t <= 4)
         (audioTracks (applyCalls calls m)).
Proof.
  intro Hstart. apply applyCalls_range.
  eapply Forall_impl; [|exact Hstart].
  intros t Ht. unfold ratioInRange. simpl in Ht. rewrite Ht. lra.
Qed.

End RatioBounds.

(** ** Loop regions and the guards of [processBlock] *)

Section Regions.

Context {ST : Type} `{SoundTouch ST}.

Lemma validRegion_test (t : AudioTrack ST) (s e : Q) :
  (0 <=? s) && (s <? e) && (e <=? getDurationInSeconds t) = true
  <-> validRegion t s e.
Proof.
  unfold validRegion. rewrite !andb_true_iff, !leb_le, ltb_lt. tauto.
Qed.

(** An accepted region is installed, and the position moves to its
    start exactly when it lies outside [start, end]. *)
Lemma setLoopRegion_installed (t : AudioTrack ST) (s e : Q) :
  validRegion t s e ->
  exists p,
    setLoopRegion s e t = with_currentPosition p (with_loopRegion true s e t)
    /\ (currentPosition t < s \/ e < currentPosition t -> p = s)
    /\ (s <= currentPosition t <= e -> p = currentPosition t).
Proof.
  intro Hv. apply validRegion_test in Hv.
  unfold setLoopRegion. rewrite Hv.
  cbn [currentPosition loopStartTime loopEndTime with_loopRegion].
  destruct (ltb_reflect (currentPosition t) s) as [Hlo|Hlo];
    [|destruct (ltb_reflect e (currentPosition t)) as [Hhi|Hhi]]; simpl.
  - exists s. split; [reflexivity|]. split; [reflexivity|]. lra.
  - exists s. split; [reflexivity|]. split; [reflexivity|]. lra.
  - exists (currentPosition t). split.
    + destruct t; reflexivity.
    + split; [lra | reflexivity].
Qed.

Lemma setLoopRegion_rejected (t : AudioTrack ST) (s e : Q) :
  ~ validRegion t s e -> setLoopRegion s e t = t.
Proof.
  intro Hnv. unfold setLoopRegion.
  destruct ((0 <=? s) && (s <? e) && (e <=? getDurationInSeconds t)) eqn:V;
    [|reflexivity].
  apply validRegion_test in V. contradiction.
Qed.

Lemma validRegion_dec (t : AudioTrack ST) (s e : Q) :
  validRegion t s e \/ ~ validRegion t s e.
Proof.
  destruct ((0 <=? s) && (s <? e) && (e <=? getDurationInSeconds t)) eqn:V.
  - left. now apply validRegion_test.
  - right. intro Hv. apply validRegion_test in Hv. congruence.
Qed.

(** C5.  [setLoopRegion (start, end)] either finds
    [0 <= start < end <= duration], installs the region and leaves the
    position where it is when it lies in [start, end] and moves it to
    [start] otherwise; or finds the condition false and returns the
    track unchanged. *)
Theorem setLoopRegion_accepts_iff_valid (t : AudioTrack ST) (s e : Q) :
  (validRegion t s e /\
   exists p,
     setLoopRegion s e t = with_currentPosition p (with_loopRegion true s e t)
     /\ (currentPosition t < s \/ e < currentPosition t -> p = s)
     /\ (s <= currentPosition t <= e -> p = currentPosition t))
  \/ (~ validRegion t s e /\ setLoopRegion s e t = t).
Proof.
  destruct (validRegion_dec t s e) as [Hv|Hnv].
  - left. split; [exact Hv|]. now apply setLoopRegion_installed.
  - right. split; [exact Hnv|]. now apply setLoopRegion_rejected.
Qed.

(** C10.  A [processBlock] call whose region starts before the output
    buffer or ends after it changes nothing: the track (position and
    stretcher included) and the output buffer are returned as they
    were, and the source buffer is not read. *)
Theorem processBlock_outside_buffer_is_noop (t : AudioTrack ST)
    (out : AudioBuffer) (start n : Z) :
  (start < 0)%Z \/ (getNumSamples out < start + n)%Z ->
  processBlock t out start n = (t, out, []).
Proof.
  intros [Hneg|Hlong]; unfold processBlock.
  - apply Z.ltb_lt in Hneg. rewrite Hneg, !orb_true_r. reflexivity.
  - apply Z.ltb_lt in Hlong. rewrite Hlong.
    destruct (_ || _); [reflexivity|].
    destruct (_ || _); reflexivity.
Qed.

End Regions.

(** ** BPM estimation: termination of the octave loops and the range
    of the estimate *)

Module BPMFacts.

Import BPM.

Lemma pow2_S (n : nat) : pow2 (S n) == 2 * pow2 n.
Proof.
  unfold pow2. rewrite Nat2Z.inj_succ, Z.pow_succ_r by lia.
  rewrite inject_Z_mult. reflexivity.
Qed.

Lemma pow2_pos (n : nat) : 0 < pow2 n.
Proof.
  unfold pow2. change 0 with (inject_Z 0). rewrite <- Zlt_Qlt.
  apply Z.pow_pos_nonneg; lia.
Qed.

Lemma pow2_size (p : positive) :
  inject_Z (Zpos p) < pow2 (Pos.to_nat (Pos.size p)).
Proof.
  unfold pow2. rewrite <- Zlt_Qlt, positive_nat_Z.
  rewrite <- Pos2Z.inj_pow. apply Pos2Z.pos_lt_pos, Pos.size_gt.
Qed.

Lemma pow2_0 : pow2 0 == 1.
Proof. reflexivity. Qed.

(** The doubling loop has run to its exit when the fuel covers the
    distance to 70. *)
Lemma doubleWhileSlow_exit_gen (fuel : nat) (bpm : Q) :
  (0 < bpm -> 70 <= bpm * pow2 fuel) ->
  let r := doubleWhileSlow fuel bpm in ~ (r < 70 /\ 0 < r).
Proof.
  revert bpm. induction fuel as [|f IH]; intros bpm Hfuel; simpl.
  - rewrite pow2_0 in Hfuel. intros [Hlt Hpos].
    specialize (Hfuel Hpos). lra.
  - destruct (ltb_reflect bpm 70) as [Hlt|Hge];
      [destruct (ltb_reflect 0 bpm) as [Hpos|Hnp]|]; simpl.
    + apply IH. intros _. specialize (Hfuel Hpos).
      rewrite pow2_S in Hfuel. lra.
    + lra.
    + lra.
Qed.

Lemma Qmake_lower (n : Z) (d : positive) :
  0 < n # d -> 1 <= (n # d) * inject_Z (Zpos d).
Proof.
  unfold Qlt, Qle, Qmult, inject_Z. simpl. intro Hn. nia.
Qed.

Lemma Qmake_upper (p d : positive) : Zpos p # d <= inject_Z (Zpos p).
Proof.
  unfold Qle, inject_Z. simpl. nia.
Qed.

Lemma doubleWhileSlow_exit (bpm : Q) :
  let r := doubleWhileSlow (fuelUp bpm) bpm in ~ (r < 70 /\ 0 < r).
Proof.
  apply doubleWhileSlow_exit_gen. intro Hpos.
  unfold fuelUp. destruct bpm as [n d]. simpl Qden.
  pose proof (Qmake_lower n d Hpos) as Hlow.
  pose proof (pow2_size (70 * d)) as Hsize.
  rewrite Pos2Z.inj_mul, inject_Z_mult in Hsize.
  assert (Hd : 0 < inject_Z (Zpos d)).
  { change 0 with (inject_Z 0). rewrite <- Zlt_Qlt. lia. }
  change (inject_Z 70) with 70 in Hsize.
  set (P := pow2 _) in *. set (D := inject_Z (Zpos d)) in *.
  set (b := n # d) in *.
  assert (70 * (b * D) <= b * P); [|lra].
  assert (0 <= b * (P - 70 * D)); [|lra].
  apply Qmult_le_0_compat; lra.
Qed.

Lemma half (x : Q) : x / 2 == x * (1 # 2).
Proof. field. Qed.

Lemma slow_test (bpm : Q) :
  (bpm <? 70) && (0 <? bpm) = true <-> bpm < 70 /\ 0 < bpm.
Proof. now rewrite andb_true_iff, !ltb_lt. Qed.

(** Past its exit the doubling loop does nothing: extra fuel does not
    change the result. *)
Lemma doubleWhileSlow_more_fuel (fuel extra : nat) (bpm : Q) :
  ~ (doubleWhileSlow fuel bpm < 70 /\ 0 < doubleWhileSlow fuel bpm) ->
  doubleWhileSlow (fuel + extra) bpm = doubleWhileSlow fuel bpm.
Proof.
  revert bpm. induction fuel as [|f IH]; intros bpm Hexit; simpl in *.
  - destruct extra as [|k]; [reflexivity|]. simpl.
    destruct ((bpm <? 70) && (0 <? bpm)) eqn:E; [|reflexivity].
    apply slow_test in E. contradiction.
  - destruct ((bpm <? 70) && (0 <? bpm)); [now apply IH | reflexivity].
Qed.

Lemma doubleWhileSlow_pos (fuel : nat) (bpm : Q) :
  0 < bpm -> 0 < doubleWhileSlow fuel bpm.
Proof.
  revert bpm. induction fuel as [|f IH]; intros bpm Hpos; simpl.
  - exact Hpos.
  - destruct (_ && _); [apply IH; lra | exact Hpos].
Qed.

(** The halving loop has run to its exit when the fuel covers the
    distance down to 180. *)
Lemma halveWhileFast_exit_gen (fuel : nat) (bpm : Q) :
  bpm <= 180 * pow2 fuel -> ~ (180 < halveWhileFast fuel bpm).
Proof.
  revert bpm. induction fuel as [|f IH]; intros bpm Hfuel; simpl.
  - rewrite pow2_0 in Hfuel. lra.
  - destruct (ltb_reflect 180 bpm) as [Hgt|Hle].
    + apply IH. rewrite pow2_S in Hfuel. rewrite half. lra.
    + exact Hle.
Qed.

Lemma halveWhileFast_exit (bpm : Q) :
  ~ (180 < halveWhileFast (fuelDown bpm) bpm).
Proof.
  apply halveWhileFast_exit_gen. unfold fuelDown.
  destruct bpm as [[|p|p] d]; simpl Qnum.
  - rewrite pow2_0. unfold Qle. simpl. lia.
  - pose proof (Qmake_upper p d). pose proof (pow2_size p).
    pose proof (pow2_pos (Pos.to_nat (Pos.size p))).
    set (a := Zpos p # d) in *. set (b := inject_Z (Zpos p)) in *.
    set (c := pow2 _) in *. clearbody a b c. lra.
  - rewrite pow2_0. unfold Qle. simpl. lia.
Qed.

Lemma halveWhileFast_more_fuel (fuel extra : nat) (bpm : Q) :
  ~ (180 < halveWhileFast fuel bpm) ->
  halveWhileFast (fuel + extra) bpm = halveWhileFast fuel bpm.
Proof.
  revert bpm. induction fuel as [|f IH]; intros bpm Hexit; simpl in *.
  - destruct extra as [|k]; [reflexivity|]. simpl.
    destruct (ltb_reflect 180 bpm); [contradiction | reflexivity].
  - destruct (180 <? bpm); [now apply IH | reflexivity].
Qed.

Lemma halveWhileFast_lower (fuel : nat) (bpm : Q) :
  70 <= bpm -> 70 <= halveWhileFast fuel bpm.
Proof.
  revert bpm. induction fuel as [|f IH]; intros bpm Hlow; simpl.
  - exact Hlow.
  - destruct (ltb_reflect 180 bpm); [apply IH; rewrite half; lra | exact Hlow].
Qed.

(** Both loops of the octave correction terminate within the fuel the
    model gives them, and on a positive tempo the result lies in
    [70, 180]. *)
Lemma octaveCorrection_range (bpm : Q) :
  0 < bpm -> 70 <= octaveCorrection bpm <= 180.
Proof.
  intro Hpos. unfold octaveCorrection.
  pose proof (doubleWhileSlow_exit bpm) as Hexit. simpl in Hexit.
  pose proof (doubleWhileSlow_pos (fuelUp bpm) bpm Hpos) as Hp.
  set (bpm1 := doubleWhileSlow (fuelUp bpm) bpm) in *.
  assert (Hlow : 70 <= bpm1).
  { destruct (Qlt_le_dec bpm1 70); [exfalso; auto | assumption]. }
  split.
  - now apply halveWhileFast_lower.
  - apply Qnot_lt_le, halveWhileFast_exit.
Qed.

Lemma findBestBPMCandidate_range (onsetTimes : list Q) :
  70 <= findBestBPMCandidate onsetTimes <= 180.
Proof.
  unfold findBestBPMCandidate.
  destruct (length onsetTimes <? 4)%nat; [lra|].
  destruct (beatIntervals onsetTimes) as [|i0 rest]; [lra|].
  destruct (ltb_reflect 0 (fst (histogram (sort (i0 :: rest)) 0 0)))
    as [Hpos|Hnp]; [|lra].
  apply octaveCorrection_range.
  apply Qlt_shift_div_l; [exact Hpos | lra].
Qed.

Section EstimateFacts.

Context {ST : Type} `{SoundTouch ST}.

Lemma detectBPMFromOnsets_range (t : AudioTrack ST) :
  70 <= detectBPMFromOnsets t <= 180.
Proof.
  unfold detectBPMFromOnsets.
  destruct (_ || _); [lra|].
  destruct (_ <? 10)%nat; [lra|].
  destruct (_ <? 4)%nat; [lra|].
  apply findBestBPMCandidate_range.
Qed.

Lemma outOfRange_false (bpm : Q) :
  outOfRange bpm = false <-> 60 <= bpm <= 200.
Proof.
  unfold outOfRange. rewrite orb_false_iff, !ltb_ge. tauto.
Qed.

(** The value of the onset stage is always accepted: the later stages
    of the chain never run. *)
Lemma estimateBPM_is_onset_stage (t : AudioTrack ST) :
  estimateBPM t = detectBPMFromOnsets t.
Proof.
  unfold estimateBPM.
  assert (E : outOfRange (detectBPMFromOnsets t) = false).
  { apply outOfRange_false. pose proof (detectBPMFromOnsets_range t). lra. }
  now rewrite !E.
Qed.

(** Whatever the stages return, the chain ends inside [60, 200]. *)
Lemma estimateBPM_range (t : AudioTrack ST) :
  60 <= estimateBPM t <= 200.
Proof.
  unfold estimateBPM.
  match goal with
  | |- context [if outOfRange ?b then 120 else _] =>
      destruct (outOfRange b) eqn:E
  end.
  - lra.
  - now apply outOfRange_false.
Qed.

(** A clip shorter than one second, or an empty one, gets the
    default. *)
Lemma estimateBPM_short_clip (t : AudioTrack ST) :
  (getNumSamples (audioBuffer t) <= 0
   \/ getNumSamples (audioBuffer t) < to_int (sampleRate t))%Z ->
  estimateBPM t = 120.
Proof.
  intro Hshort. rewrite estimateBPM_is_onset_stage.
  unfold detectBPMFromOnsets, isLoaded.
  destruct Hshort as [Hempty|Hshort].
  - apply Z.ltb_ge in Hempty. now rewrite Hempty.
  - apply Z.ltb_lt in Hshort. now rewrite Hshort, orb_true_r.
Qed.

(** With fewer than four onsets the estimate is the default of the
    onset stage, whatever the autocorrelation stage would return. *)
Lemma estimateBPM_few_onsets (t : AudioTrack ST) :
  (length (onsetTimesOf t (calculateOnsetStrength t)) < 4)%nat ->
  estimateBPM t = 120.
Proof.
  intro Hfew. rewrite estimateBPM_is_onset_stage.
  unfold detectBPMFromOnsets.
  destruct (_ || _); [reflexivity|].
  destruct (_ <? 10)%nat; [reflexivity|].
  apply Nat.ltb_lt in Hfew. now rewrite Hfew.
Qed.

Lemma loadAudioFile_detectedBPM (r : AudioFormatReader) (t : AudioTrack ST) :
  exists t2 : AudioTrack ST,
    audioBuffer t2 = readInto r /\ sampleRate t2 = readerSampleRate r /\
    detectedBPM (loadAudioFile (Some r) t) = estimateBPM t2.
Proof.
  unfold loadAudioFile. eexists. split; [|split]; cycle 2.
  - cbn [detectedBPM with_stretchedBuffer]. unfold initializeSoundTouch.
    match goal with |- context [if ?c then _ else _] => destruct c end;
      cbn [detectedBPM with_soundTouch with_detectedBPM]; reflexivity.
  - reflexivity.
  - reflexivity.
Qed.

Lemma loadAudioFile_bpm_positive (r : AudioFormatReader) (t : AudioTrack ST) :
  0 < detectedBPM (loadAudioFile (Some r) t).
Proof.
  destruct (loadAudioFile_detectedBPM r t) as (t2 & _ & _ & E).
  rewrite E. pose proof (estimateBPM_range t2). lra.
Qed.

(** A clip shorter than one second loads with the default 120. *)
Lemma short_clip_loads_with_default (r : AudioFormatReader)
    (t : AudioTrack ST) :
  (lengthInSamples r < to_int (readerSampleRate r))%Z ->
  detectedBPM (loadAudioFile (Some r) t) = 120.
Proof.
  intro Hshort.
  destruct (loadAudioFile_detectedBPM r t) as (t2 & Hbuf & Hrate & E).
  rewrite E. apply estimateBPM_short_clip. right.
  now rewrite Hbuf, Hrate.
Qed.

(** C6.  Loading any decoded clip leaves the track with a detected BPM
    inside [60, 200]: the estimator is a total function of the buffer,
    and its last step replaces any value outside the range by 120. *)
Theorem loaded_track_bpm_in_range (r : AudioFormatReader)
    (t : AudioTrack ST) :
  60 <= detectedBPM (loadAudioFile (Some r) t) <= 200.
Proof.
  destruct (loadAudioFile_detectedBPM r t) as (t2 & _ & _ & E).
  rewrite E. apply estimateBPM_range.
Qed.

End EstimateFacts.

End BPMFacts.

(** ** Buffers: clearing a region *)

Lemma in_zrange (lo hi k : Z) : In k (zrange lo hi) <-> (lo <= k < hi)%Z.
Proof.
  unfold zrange. rewrite in_map_iff. split.
  - intros (j & <- & Hj). apply in_seq in Hj. lia.
  - intro Hk. exists (Z.to_nat (k - lo)). split; [lia|].
    apply in_seq. lia.
Qed.

Lemma at_nil (i : Z) : at_ [] i = 0.
Proof.
  unfold at_. destruct (i <? 0)%Z; [reflexivity|].
  now destruct (Z.to_nat i).
Qed.

Lemma nth_update_nat_zero (j i : nat) (l : list Q) :
  nth i (update_nat j (fun _ => 0) l) 0
  = if Nat.eqb i j then 0 else nth i l 0.
Proof.
  revert j i. induction l as [|x r IH]; intros j i; simpl.
  - destruct j, i; simpl; try reflexivity; now destruct (Nat.eqb _ _).
  - destruct j as [|j], i as [|i]; simpl; try reflexivity. apply IH.
Qed.

Lemma at_update_zero (j i : Z) (l : list Q) :
  at_ (update j (fun _ => 0) l) i = if (i =? j)%Z then 0 else at_ l i.
Proof.
  unfold at_, update.
  destruct (Z.ltb_spec i 0) as [Hi|Hi], (Z.ltb_spec j 0) as [Hj|Hj],
           (Z.eqb_spec i j) as [Hij|Hij]; try reflexivity; try lia.
  - rewrite nth_update_nat_zero.
    destruct (Nat.eqb_spec (Z.to_nat i) (Z.to_nat j)); [reflexivity | lia].
  - rewrite nth_update_nat_zero.
    destruct (Nat.eqb_spec (Z.to_nat i) (Z.to_nat j)); [lia | reflexivity].
Qed.

Lemma at_clear_fold (start : Z) (ks : list Z) (c : list Q) (i : Z) :
  at_ (fold_left (fun c' k => update (start + k) (fun _ => 0) c') ks c) i
  = if existsb (fun k => (i =? start + k)%Z) ks then 0 else at_ c i.
Proof.
  revert c. induction ks as [|k ks IH]; intro c; simpl.
  - reflexivity.
  - rewrite IH, at_update_zero.
    destruct (i =? start + k)%Z, (existsb _ ks); reflexivity.
Qed.

Lemma clear_fold_nil (start : Z) (ks : list Z) :
  fold_left (fun c' k => update (start + k) (fun _ => 0) c') ks [] = [].
Proof.
  induction ks as [|k ks IH]; simpl; [reflexivity|].
  unfold update at 2. destruct (start + k <? 0)%Z; [exact IH|].
  destruct (Z.to_nat (start + k)); exact IH.
Qed.

(** After [clear (start, num)] every sample of the region is zero on
    every channel, and every other sample is as before. *)
Lemma getSample_clearRegion (b : AudioBuffer) (start num ch i : Z) :
  Buffer.getSample (Buffer.clearRegion b start num) ch i
  = if ((start <=? i) && (i <? start + num))%Z then 0
    else Buffer.getSample b ch i.
Proof.
  unfold Buffer.getSample, Buffer.channel, Buffer.clearRegion. simpl.
  destruct (ch <? 0)%Z.
  - rewrite at_nil. now destruct (_ && _).
  - set (F := fun c => fold_left _ (zrange 0 num) c).
    rewrite <- (clear_fold_nil start (zrange 0 num)) at 1.
    change (fold_left _ (zrange 0 num) []) with (F []).
    rewrite map_nth. unfold F. rewrite at_clear_fold.
    destruct (existsb _ _) eqn:E.
    + apply existsb_exists in E. destruct E as (k & Hk & Hik).
      apply in_zrange in Hk. apply Z.eqb_eq in Hik.
      destruct (Z.leb_spec start i), (Z.ltb_spec i (start + num));
        simpl; try reflexivity; lia.
    + destruct (Z.leb_spec start i), (Z.ltb_spec i (start + num));
        simpl; try reflexivity.
      exfalso. assert (Hex : existsb (fun k => (i =? start + k)%Z)
                               (zrange 0 num) = true); [|congruence].
      apply existsb_exists. exists (i - start)%Z. split.
      * apply in_zrange. lia.
      * apply Z.eqb_eq. lia.
Qed.

(** ** The analysis loops *)

(** [framePositions] lists exactly the values the frame loop visits:
    the multiples of the hop size below [numSamples - frameSize]. *)
Lemma framePositions_spec (n pos : Z) :
  In pos (BPM.framePositions n)
  <-> exists k : Z, (0 <= k)%Z /\ pos = (k * BPM.hopSize)%Z
                    /\ (pos < n - BPM.frameSize)%Z.
Proof.
  unfold BPM.framePositions, BPM.hopSize, BPM.frameSize.
  rewrite in_map_iff. split.
  - intros (k & <- & Hk). apply in_zrange in Hk. exists k.
    split; [lia|]. split; [reflexivity|].
    assert (k * 512 <= (n - 1024 + 512 - 1) / 512 * 512 - 512)%Z by lia.
    pose proof (Z.mul_div_le (n - 1024 + 512 - 1) 512). lia.
  - intros (k & Hk & -> & Hlt). exists k. split; [reflexivity|].
    apply in_zrange. split; [lia|].
    assert (k * 512 + 512 <= n - 1024 + 512 - 1)%Z by lia.
    assert (k + 1 <= (n - 1024 + 512 - 1) / 512)%Z; [|lia].
    apply Z.div_le_lower_bound; lia.
Qed.

(** [BPM.sort] is a sort: it permutes its input into ascending order. *)
Lemma insertSorted_perm (x : Q) (l : list Q) :
  Permutation (BPM.insertSorted x l) (x :: l).
Proof.
  induction l as [|y r IH]; simpl.
  - reflexivity.
  - destruct (x <=? y); [reflexivity|].
    rewrite IH. apply perm_swap.
Qed.

Lemma sort_perm (l : list Q) : Permutation (BPM.sort l) l.
Proof.
  induction l as [|x r IH]; simpl.
  - reflexivity.
  - rewrite insertSorted_perm. now constructor.
Qed.

Lemma insertSorted_sorted (x : Q) (l : list Q) :
  Sorted Qle l -> Sorted Qle (BPM.insertSorted x l).
Proof.
  induction 1 as [|y r Hr IH Hy]; simpl.
  - repeat constructor.
  - destruct (leb_reflect x y) as [Hxy|Hxy].
    + repeat constructor; assumption.
    + constructor; [exact IH|].
      assert (Hyx : y <= x) by lra.
      destruct r as [|z r']; simpl.
      * now constructor.
      * destruct (x <=? z); constructor; [exact Hyx|].
        now inversion Hy.
Qed.

Lemma sort_sorted (l : list Q) : Sorted Qle (BPM.sort l).
Proof.
  induction l as [|x r IH]; simpl.
  - constructor.
  - now apply insertSorted_sorted.
Qed.

(** ** The mixing callback *)

Section Mixer.

Context {ST : Type} `{SoundTouch ST} `{LibM}.

Lemma processMetronome_position (m : MainComponent ST) (out : AudioBuffer)
    (n : Z) :
  currentPlayPosition (fst (processMetronome m out n))
  = currentPlayPosition m.
Proof.
  unfold processMetronome.
  destruct (_ || _); [reflexivity|].
  destruct (fold_left _ _ _) as [[lastBeat phase] out1]. reflexivity.
Qed.

(** C7.  One call of the mixing callback.  While the session is not
    playing, the session is returned as it was (no track position and
    no play position changes) and every sample of the region to fill
    is zero on every channel.  While it is playing, the play position
    advances by [numSamples / 44100], the sample rate the callback
    assumes. *)
Theorem callback_silent_unless_playing (m : MainComponent ST)
    (bufferToFill : AudioSourceChannelInfo) :
  let '(m', out) := getNextAudioBlock m bufferToFill in
  if isPlaying m
  then currentPlayPosition m'
       = currentPlayPosition m
         + inject_Z (numSamples bufferToFill) / 44100
  else m' = m /\
       forall ch i : Z,
         (startSample bufferToFill <= i
          < startSample bufferToFill + numSamples bufferToFill)%Z ->
         Buffer.getSample out ch i = 0.
Proof.
  unfold getNextAudioBlock. destruct (isPlaying m) eqn:P; simpl.
  - destruct (renderTracks _ _ _ _ _) as [ts out1].
    cbn [metronomeEnabled with_audioTracks].
    destruct (metronomeEnabled m).
    + pose proof (processMetronome_position (with_audioTracks ts m) out1
                    (numSamples bufferToFill)) as Hpos.
      destruct (processMetronome _ _ _) as [m2 out2]. simpl in *.
      now rewrite Hpos.
    + reflexivity.
  - split; [reflexivity|]. intros ch i Hi.
    rewrite getSample_clearRegion.
    destruct (Z.leb_spec (startSample bufferToFill) i),
             (Z.ltb_spec i (startSample bufferToFill
                            + numSamples bufferToFill));
      simpl; try reflexivity; lia.
Qed.

End Mixer.

(** ** The first loaded track defines the master tempo *)

Section FirstTrack.

Context {ST : Type} `{SoundTouch ST}.

Lemma nth_error_atTrack (f : AudioTrack ST -> AudioTrack ST) (i j : nat)
    (ts : list (AudioTrack ST)) :
  nth_error (atTrack i f ts) j
  = if Nat.eqb j i then option_map f (nth_error ts j) else nth_error ts j.
Proof.
  revert i j. induction ts as [|t r IH]; intros i j.
  - destruct i, j; simpl; try reflexivity; now destruct (Nat.eqb _ _).
  - destruct i as [|i], j as [|j]; simpl; try reflexivity. apply IH.
Qed.

Lemma nth_error_mapTracksFrom (g : nat -> AudioTrack ST -> AudioTrack ST)
    (k j : nat) (ts : list (AudioTrack ST)) :
  nth_error (mapTracksFrom k g ts) j
  = option_map (g (k + j)%nat) (nth_error ts j).
Proof.
  revert k j. induction ts as [|t r IH]; intros k j.
  - now destruct j.
  - destruct j as [|j]; simpl.
    + now rewrite Nat.add_0_r.
    + rewrite IH. now rewrite Nat.add_succ_r.
Qed.

Lemma countLoadedFrom_none (k : nat) (ts : list (AudioTrack ST)) (c : Z)
    (o : option nat) :
  (forall j tj, nth_error ts j = Some tj -> isLoaded tj = false) ->
  countLoadedFrom k ts c o = (c, o).
Proof.
  revert k. induction ts as [|t r IH]; intros k Hnone; simpl.
  - reflexivity.
  - rewrite (Hnone 0%nat t eq_refl). apply IH.
    intros j tj Hj. exact (Hnone (S j) tj Hj).
Qed.

Lemma countLoadedFrom_only (k i : nat) (ts : list (AudioTrack ST))
    (t : AudioTrack ST) (c : Z) (o : option nat) :
  nth_error ts i = Some t -> isLoaded t = true ->
  (forall j tj, j <> i -> nth_error ts j = Some tj -> isLoaded tj = false) ->
  countLoadedFrom k ts c o = ((c + 1)%Z, Some (k + i)%nat).
Proof.
  revert k i c o. induction ts as [|t0 r IH]; intros k i c o Hi Ht Hothers.
  - now destruct i.
  - destruct i as [|i]; simpl in *.
    + injection Hi as ->. rewrite Ht, Nat.add_0_r.
      apply countLoadedFrom_none.
      intros j tj Hj. apply (Hothers (S j) tj); [lia | exact Hj].
    + rewrite (Hothers 0%nat t0) by (lia || reflexivity).
      rewrite (IH (S k) i c o Hi Ht).
      * now rewrite Nat.add_succ_r.
      * intros j tj Hne Hj. apply (Hothers (S j) tj); [lia | exact Hj].
Qed.

(** With exactly one loaded track and a positive BPM, [onTrackLoaded]
    is [setInitialMasterBPM] on that track. *)
Lemma onTrackLoaded_single (m : MainComponent ST) (i : nat)
    (t : AudioTrack ST) (bpm : Q) :
  nth_error (audioTracks m) i = Some t -> isLoaded t = true ->
  (forall j tj, j <> i -> nth_error (audioTracks m) j = Some tj ->
                isLoaded tj = false) ->
  0 < bpm ->
  onTrackLoaded bpm m = setInitialMasterBPM bpm (Some i) m.
Proof.
  intros Hi Ht Hothers Hbpm. unfold onTrackLoaded.
  rewrite (countLoadedFrom_only 0 i _ t 0 None Hi Ht Hothers). simpl.
  apply ltb_lt in Hbpm. now rewrite Hbpm.
Qed.

(** The tracks after [setInitialMasterBPM]: the defining track gets
    ratio 1.0 (through [setStretchRatio]) and the new reference, every
    other track only the new reference. *)
Lemma setInitialMasterBPM_tracks (m : MainComponent ST) (bpm : Q)
    (d j : nat) :
  nth_error (audioTracks (setInitialMasterBPM bpm (Some d) m)) j
  = option_map
      (fun t => if Nat.eqb j d
                then setMasterBPM bpm (setStretchRatio 1 t)
                else setMasterBPM bpm t)
      (nth_error (audioTracks m) j).
Proof.
  unfold setInitialMasterBPM. simpl.
  rewrite nth_error_mapTracksFrom, nth_error_atTrack. simpl.
  destruct (Nat.eqb j d); destruct (nth_error (audioTracks m) j);
    reflexivity.
Qed.

Lemma loadAudioFile_fields (r : AudioFormatReader) (t : AudioTrack ST) :
  let t' := loadAudioFile (Some r) t in
  audioBuffer t' = readInto r /\ sampleRate t' = readerSampleRate r /\
  stretchRatio t' = 1 /\ currentPosition t' = 0 /\
  hasCustomLoopRegion t' = false.
Proof.
  unfold loadAudioFile, initializeSoundTouch. simpl.
  match goal with |- context [if ?c then _ else _] => destruct c end;
    simpl; repeat split; reflexivity.
Qed.

Lemma setStretchRatio_one_of_one (t : AudioTrack ST) :
  stretchRatio t = 1 -> setStretchRatio 1 t = t.
Proof.
  intro Hr. unfold setStretchRatio. rewrite Hr. reflexivity.
Qed.

(** C8.  A track is loaded through the load button while every other
    track of the session is empty.  Then the master tempo becomes the
    track's detected BPM, the previous master tempo is the old master
    tempo (no rescaling by [setTempo] took place), the loaded track's
    stretch ratio is 1.0, every track's master-BPM reference is the
    new tempo, and every other track keeps its stretch ratio. *)
Theorem only_loaded_track_sets_master_tempo (m : MainComponent ST)
    (i : nat) (r : AudioFormatReader) (t0 : AudioTrack ST) :
  nth_error (audioTracks m) i = Some t0 ->
  (0 < lengthInSamples r)%Z ->
  (forall j tj, j <> i -> nth_error (audioTracks m) j = Some tj ->
                isLoaded tj = false) ->
  let m' := loadButtonClicked i (Some r) m in
  let bpm := detectedBPM (loadAudioFile (Some r) t0) in
  0 < bpm /\
  masterTempo m' = bpm /\
  previousMasterTempo m' = masterTempo m /\
  (exists ti, nth_error (audioTracks m') i = Some ti /\ stretchRatio ti = 1) /\
  Forall (fun t => masterBPM t = bpm) (audioTracks m') /\
  (forall j tj, j <> i -> nth_error (audioTracks m) j = Some tj ->
     exists tj', nth_error (audioTracks m') j = Some tj'
                 /\ stretchRatio tj' = stretchRatio tj).
Proof.
  intros Hi Hlen Hothers m' bpm.
  pose proof (BPMFacts.loadAudioFile_bpm_positive r t0) as Hpos.
  fold bpm in Hpos.
  set (t1 := loadAudioFile (Some r) t0) in *.
  set (m1 := with_audioTracks
               (atTrack i (loadAudioFile (Some r)) (audioTracks m)) m).
  assert (Hi1 : nth_error (audioTracks m1) i = Some t1).
  { unfold m1. simpl. rewrite nth_error_atTrack, Nat.eqb_refl, Hi.
    reflexivity. }
  destruct (loadAudioFile_fields r t0) as (Hbuf & _ & Hratio & _).
  fold t1 in Hbuf, Hratio.
  assert (Hloaded : isLoaded t1 = true).
  { unfold isLoaded. rewrite Hbuf. simpl. now apply Z.ltb_lt. }
  assert (Hothers1 : forall j tj, j <> i ->
            nth_error (audioTracks m1) j = Some tj -> isLoaded tj = false).
  { intros j tj Hne Hj. unfold m1 in Hj. simpl in Hj.
    rewrite nth_error_atTrack in Hj.
    destruct (Nat.eqb_spec j i); [contradiction|]. now apply (Hothers j). }
  assert (Hm' : m' = setInitialMasterBPM bpm (Some i) m1).
  { unfold m', loadButtonClicked. fold m1. rewrite Hi1.
    fold bpm. apply ltb_lt in Hpos. rewrite Hpos.
    apply (onTrackLoaded_single m1 i t1); auto. now apply ltb_lt. }
  rewrite Hm'. split; [exact Hpos|]. split; [reflexivity|].
  split; [reflexivity|]. split; [|split].
  - exists (setMasterBPM bpm (setStretchRatio 1 t1)). split.
    + rewrite setInitialMasterBPM_tracks, Hi1, Nat.eqb_refl. reflexivity.
    + rewrite setStretchRatio_one_of_one by exact Hratio. exact Hratio.
  - apply Forall_forall. intros t Ht.
    apply In_nth_error in Ht. destruct Ht as [j Hj].
    rewrite setInitialMasterBPM_tracks in Hj.
    destruct (nth_error (audioTracks m1) j) as [tj|]; [|discriminate].
    simpl in Hj. injection Hj as <-.
    destruct (Nat.eqb j i); reflexivity.
  - intros j tj Hne Hj. exists (setMasterBPM bpm tj). split.
    + rewrite setInitialMasterBPM_tracks. unfold m1. simpl.
      rewrite nth_error_atTrack.
      destruct (Nat.eqb_spec j i); [contradiction|].
      rewrite Hj. reflexivity.
    + reflexivity.
Qed.

End FirstTrack.

(** ** Block rendering: which frames are read and where the position
    goes *)

Section Rendering.

Context {ST : Type} `{SoundTouch ST}.

Lemma sameSource_refl (t : AudioTrack ST) : sameSource t t.
Proof. unfold sameSource. repeat split. Qed.

Lemma sameSource_trans (t1 t2 t3 : AudioTrack ST) :
  sameSource t1 t2 -> sameSource t2 t3 -> sameSource t1 t3.
Proof.
  unfold sameSource. intros H12 H23.
  repeat match goal with H : _ /\ _ |- _ => destruct H end.
  repeat split; congruence.
Qed.

Lemma sameSource_bounds (t t' : AudioTrack ST) :
  sameSource t t' ->
  loopBounds t' = loopBounds t /\
  loopStartSample t' = loopStartSample t /\
  loopEndSample t' = loopEndSample t.
Proof.
  intros (Ha & _ & Hsr & _ & _ & _ & _ & _ & _ & _ & Hh & Hls & Hle).
  assert (Hb : loopBounds t' = loopBounds t).
  { unfold loopBounds, getDurationInSeconds.
    now rewrite Ha, Hsr, Hh, Hls, Hle. }
  unfold loopStartSample, loopEndSample.
  now rewrite Hb, Ha, Hsr.
Qed.

(** [processDirectPlayback] asks for at most [numSamples] frames. *)
Lemma processDirectPlayback_outcome (t : AudioTrack ST) (out : AudioBuffer)
    (start n : Z) :
  let '(t', _, reads) := processDirectPlayback t out start n in
  sameSource t t' /\ Outcome t n t' reads.
Proof.
  unfold processDirectPlayback.
  destruct (Z.leb_spec (loopEndSample t - loopStartSample t) 0) as [Hlen|Hlen].
  { split; [apply sameSource_refl | now apply Idle]. }
  destruct (locate t) as [|cs p w] eqn:L.
  { split; [apply sameSource_refl | now apply Idle]. }
  destruct (Z.leb_spec (Z.min n (loopEndSample t - cs)) 0) as [Hc|Hc].
  { split; [unfold sameSource; simpl; repeat split|].
    apply (Parked _ _ _ _ cs p w); auto. lia. }
  split; [unfold sameSource; simpl; repeat split|].
  apply (Played _ _ _ _ cs p w); auto; try lia.
  apply Forall_app. split.
  - apply Forall_forall. intros r Hr. apply in_map_iff in Hr.
    now destruct Hr as (_ & <- & _).
  - destruct (_ && _); repeat constructor.
Qed.

(** [processWithSoundTouch] asks for at most [2 * numSamples] frames,
    whatever the stretcher hands back. *)
Lemma processWithSoundTouch_outcome (t : AudioTrack ST) (out : AudioBuffer)
    (start n : Z) :
  let '(t', _, reads) := processWithSoundTouch t out start n in
  sameSource t t' /\ Outcome t (n * 2) t' reads.
Proof.
  unfold processWithSoundTouch.
  destruct (Z.leb_spec (loopEndSample t - loopStartSample t) 0) as [Hlen|Hlen].
  { split; [unfold sameSource; simpl; repeat split | now apply Idle]. }
  destruct (locate t) as [|cs p w] eqn:L.
  { split; [unfold sameSource; simpl; repeat split | now apply Idle]. }
  destruct (Z.leb_spec (Z.min (n * 2) (loopEndSample t - cs)) 0) as [Hc|Hc].
  { split.
    - destruct w; unfold sameSource; simpl; repeat split.
    - apply (Parked _ _ _ _ cs p w); auto; try lia.
      now destruct w. }
  destruct (st_receiveSamples _ _) as [[data received] st3].
  destruct (advance t p _) as [p' atEnd] eqn:A.
  split.
  - destruct w, atEnd; unfold sameSource; simpl; repeat split.
  - apply (Played _ _ _ _ cs p w); auto; try lia.
    + rewrite A. now destruct atEnd.
    + apply Forall_forall. intros r Hr. apply in_map_iff in Hr.
      now destruct Hr as (_ & <- & _).
Qed.

Lemma processBlock_outcome (t : AudioTrack ST) (out : AudioBuffer)
    (start n : Z) :
  let '(t', _, reads) := processBlock t out start n in
  sameSource t t' /\ exists cap, Outcome t cap t' reads.
Proof.
  unfold processBlock.
  destruct (_ || _).
  { split; [apply sameSource_refl | exists n; now apply Idle]. }
  destruct (_ || _).
  { split; [apply sameSource_refl | exists n; now apply Idle]. }
  destruct (_ <? _)%Z.
  { split; [apply sameSource_refl | exists n; now apply Idle]. }
  destruct (Qabs _ <? 0.02).
  - pose proof (processDirectPlayback_outcome t out start n) as Hd.
    destruct (processDirectPlayback t out start n) as [[t' out'] reads].
    destruct Hd as [Hs Ho]. split; [exact Hs | now exists n].
  - pose proof (processWithSoundTouch_outcome t out start n) as Hd.
    destruct (processWithSoundTouch t out start n) as [[t' out'] reads].
    destruct Hd as [Hs Ho]. split; [exact Hs | now exists (n * 2)%Z].
Qed.

Lemma scaled_back (z : Z) (rate : Q) :
  0 < rate -> to_int (inject_Z z / rate * rate) = z.
Proof.
  intro Hr.
  assert (E : inject_Z z / rate * rate == inject_Z z) by (field; lra).
  rewrite E. apply to_int_inject.
Qed.

(** Where a block starts reading: inside the active region, at the
    frame the (possibly adjusted) position maps to. *)
Lemma locate_inside (t : AudioTrack ST) (cs : Z) (p : Q) (w : bool) :
  0 < sampleRate t ->
  (loopStartSample t < loopEndSample t)%Z ->
  notBeforeRegion t ->
  locate t = At cs p w ->
  (loopStartSample t <= cs < loopEndSample t)%Z
  /\ to_int (p * sampleRate t) = cs
  /\ (w = false -> p = currentPosition t).
Proof.
  intros Hr Hlen Hnb. unfold notBeforeRegion in Hnb. unfold locate.
  set (cs0 := to_int (currentPosition t * sampleRate t)) in *.
  destruct (looping t).
  - destruct (Z.ltb_spec cs0 (loopStartSample t)) as [Hlo|Hlo].
    { intro E. injection E as <- <- <-.
      split; [lia|]. split; [reflexivity | discriminate]. }
    destruct (Z.leb_spec (loopEndSample t) cs0) as [Hhi|Hhi].
    + intro E. injection E as <- <- <-.
      pose proof (Z.rem_bound_pos (cs0 - loopStartSample t)
                    (loopEndSample t - loopStartSample t)) as Hrem.
      split; [lia|]. split; [now apply scaled_back | discriminate].
    + intro E. injection E as <- <- <-.
      split; [lia|]. split; reflexivity.
  - destruct (Z.leb_spec (loopEndSample t) cs0) as [Hhi|Hhi];
      [discriminate|].
    intro E. injection E as <- <- <-.
    split; [lia|]. split; reflexivity.
Qed.

(** After consuming [c > 0] frames the position still maps to a frame
    at or after the start of the region. *)
Lemma advance_not_before (t : AudioTrack ST) (p : Q) (c : Z) :
  0 < sampleRate t -> (0 < c)%Z ->
  (loopStartSample t <= to_int (p * sampleRate t))%Z ->
  (loopStartSample t
   <= to_int (fst (advance t p c) * sampleRate t))%Z.
Proof.
  intros Hr Hc Hp. unfold advance.
  destruct (_ && _); simpl.
  - unfold loopStartSample. lia.
  - etransitivity; [exact Hp|]. apply to_int_mono.
    assert (E : (p + inject_Z c / sampleRate t) * sampleRate t
                == p * sampleRate t + inject_Z c) by (field; lra).
    rewrite E.
    assert (0 < inject_Z c) by (change 0 with (inject_Z 0);
                                now rewrite <- Zlt_Qlt).
    lra.
Qed.

(** One playback step keeps the position at or after the region start
    and reads only frames of the active region. *)
Lemma outcome_in_region (t t' : AudioTrack ST) (cap : Z)
    (reads : list SourceRead) :
  0 < sampleRate t -> notBeforeRegion t ->
  sameSource t t' -> Outcome t cap t' reads ->
  notBeforeRegion t' /\
  Forall (fun r => (loopStartSample t <= first r)%Z
                   /\ (first r + count r <= loopEndSample t)%Z) reads.
Proof.
  intros Hr Hnb Hs Ho.
  destruct (sameSource_bounds t t' Hs) as (_ & Hlss & _).
  assert (Hsr : sampleRate t' = sampleRate t) by apply Hs.
  unfold notBeforeRegion. rewrite Hlss, Hsr.
  destruct Ho as [Hpos ->|cs p w Hlen L Hc Hpos ->|cs p w Hlen L Hc Hpos Hreads].
  - rewrite Hpos. split; [exact Hnb | constructor].
  - destruct (locate_inside t cs p w Hr Hlen Hnb L) as (Hcs & Hp & _).
    rewrite Hpos, Hp. split; [lia | constructor].
  - destruct (locate_inside t cs p w Hr Hlen Hnb L) as (Hcs & Hp & _).
    split.
    + rewrite Hpos. apply advance_not_before; auto. lia.
    + eapply Forall_impl; [|exact Hreads].
      intros r ->. simpl. lia.
Qed.

(** Any sequence of blocks reads only frames of the active region. *)
Lemma renderBlocks_in_region (calls : list BlockCall) (t : AudioTrack ST) :
  0 < sampleRate t -> notBeforeRegion t ->
  Forall (fun r => (loopStartSample t <= first r)%Z
                   /\ (first r + count r <= loopEndSample t)%Z)
         (snd (renderBlocks t calls)).
Proof.
  revert t. induction calls as [|c rest IH]; intros t Hr Hnb; simpl.
  - constructor.
  - pose proof (processBlock_outcome t (callBuffer c) (callStart c)
                  (callFrames c)) as Hstep.
    destruct (processBlock t _ _ _) as [[t1 out1] reads].
    destruct Hstep as [Hs [cap Ho]].
    destruct (outcome_in_region t t1 cap reads Hr Hnb Hs Ho) as [Hnb1 Hin].
    destruct (sameSource_bounds t t1 Hs) as (_ & Hlss & Hles).
    assert (Hsr : sampleRate t1 = sampleRate t) by apply Hs.
    specialize (IH t1). rewrite Hsr, Hlss, Hles in IH.
    specialize (IH Hr Hnb1).
    destruct (renderBlocks t1 rest) as [t2 reads']. simpl in *.
    apply Forall_app. split; assumption.
Qed.

Lemma validRegion_rate (t : AudioTrack ST) (s e : Q) :
  validRegion t s e -> 0 < sampleRate t.
Proof.
  unfold validRegion, getDurationInSeconds. intros (Hs & Hse & He).
  destruct (0 <? getNumSamples (audioBuffer t))%Z; simpl in He; [|lra].
  destruct (ltb_reflect 0 (sampleRate t)); [assumption | lra].
Qed.

(** C4 (as the code has it).  After [setLoopRegion (start, end)] with
    [0 <= start < end <= duration], every frame index read from the
    source buffer by any sequence of [processBlock] calls (direct or
    stretched, looping or not, any stretcher) lies in
    [(int)(start * sampleRate), min ((int)(end * sampleRate), total)):
    the region bounds truncated to whole frames.  In particular the
    index is below [end * sampleRate] and above
    [start * sampleRate - 1]. *)
Theorem reads_stay_in_truncated_region (t : AudioTrack ST) (s e : Q)
    (calls : list BlockCall) (r : SourceRead) (i : Z) :
  validRegion t s e ->
  In r (snd (renderBlocks (setLoopRegion s e t) calls)) ->
  touches r i ->
  (to_int (s * sampleRate t) <= i
   < Z.min (to_int (e * sampleRate t)) (getNumSamples (audioBuffer t)))%Z
  /\ s * sampleRate t - 1 < inject_Z i < e * sampleRate t.
Proof.
  intros Hv Hin Htouch.
  pose proof (validRegion_rate t s e Hv) as Hr.
  destruct (setLoopRegion_installed t s e Hv) as (p & Hset & Hout & Hins).
  destruct Hv as (Hs & Hse & He).
  set (t1 := setLoopRegion s e t) in *.
  assert (Hb : loopBounds t1 = (s, e)).
  { rewrite Hset. unfold loopBounds. simpl.
    apply ltb_lt in Hse. now rewrite Hse. }
  assert (Hsr : sampleRate t1 = sampleRate t) by now rewrite Hset.
  assert (Hbuf : audioBuffer t1 = audioBuffer t) by now rewrite Hset.
  assert (Hp : s <= currentPosition t1 <= e).
  { rewrite Hset. simpl.
    destruct (Qlt_le_dec (currentPosition t) s) as [Hlo|Hlo];
      [rewrite Hout by auto; lra|].
    destruct (Qlt_le_dec e (currentPosition t)) as [Hhi|Hhi];
      [rewrite Hout by auto; lra|].
    rewrite Hins by lra. lra. }
  assert (Hlss : loopStartSample t1 = to_int (s * sampleRate t)).
  { unfold loopStartSample. now rewrite Hb, Hsr. }
  assert (Hles : loopEndSample t1
                 = Z.min (to_int (e * sampleRate t))
                         (getNumSamples (audioBuffer t))).
  { unfold loopEndSample. now rewrite Hb, Hsr, Hbuf. }
  assert (Hnb : notBeforeRegion t1).
  { unfold notBeforeRegion. rewrite Hlss, Hsr. apply to_int_mono.
    apply Qmult_le_compat_r; lra. }
  rewrite <- Hsr in Hr.
  pose proof (renderBlocks_in_region calls t1 Hr Hnb) as Hall.
  rewrite Forall_forall in Hall. specialize (Hall r Hin).
  rewrite Hlss, Hles in Hall. unfold touches in Htouch.
  rewrite Hsr in Hr.
  assert (Hi : (to_int (s * sampleRate t) <= i
                < Z.min (to_int (e * sampleRate t))
                        (getNumSamples (audioBuffer t)))%Z) by lia.
  split; [exact Hi|].
  assert (Hs0 : 0 <= s * sampleRate t) by (apply Qmult_le_0_compat; lra).
  assert (He0 : 0 <= e * sampleRate t) by (apply Qmult_le_0_compat; lra).
  pose proof (to_int_below _ He0) as Hup.
  rewrite (to_int_floor _ Hs0) in Hi.
  pose proof (Qlt_floor (s * sampleRate t)) as Hdown.
  assert (H1 : inject_Z (Qfloor (s * sampleRate t)) <= inject_Z i)
    by (rewrite <- Zle_Qle; lia).
  assert (H2 : inject_Z i + 1 <= inject_Z (to_int (e * sampleRate t))).
  { change 1 with (inject_Z 1). rewrite <- inject_Z_plus, <- Zle_Qle. lia. }
  rewrite inject_Z_plus in Hdown. change (inject_Z 1) with 1 in Hdown.
  split; lra.
Qed.

Lemma locate_unwrapped (t : AudioTrack ST) (cs : Z) (p : Q) :
  locate t = At cs p false ->
  p = currentPosition t /\ cs = to_int (currentPosition t * sampleRate t).
Proof.
  unfold locate.
  destruct (looping t);
    repeat match goal with
    | |- context [if ?c then _ else _] => destruct c
    end; intro E; try discriminate; injection E as <- <-; split; reflexivity.
Qed.

(** C9 (as the code has it).  A [processBlock] call in stretched mode
    that feeds input to the stretcher reads
    [consumed = min (2 * numSamples, loopEndSample - cs)] frames at
    [cs], the frame the block starts from, and leaves the position at
    [p + consumed / sampleRate], where [p] is the position the block
    starts from: the current position, unless the track is looping and
    that position maps outside the active region, in which case [p] is
    the position wrapped into the region.  The one exception is the
    wrap at the end: when the track is looping and
    [p + consumed / sampleRate] reaches the end of the active region,
    the position becomes the start of the region.  Nothing of this
    depends on the stretcher or on how many frames it returns. *)
Theorem stretched_position_follows_input (t : AudioTrack ST)
    (out : AudioBuffer) (start n : Z) :
  (Qabs (stretchRatio t - 1) <? 0.02) = false ->
  snd (processBlock t out start n) <> [] ->
  exists (cs : Z) (p : Q) (w : bool),
    locate t = At cs p w
    /\ (w = false -> p = currentPosition t)
    /\ let consumed := Z.min (n * 2) (loopEndSample t - cs) in
       (0 < consumed)%Z
       /\ Forall (fun r => r = mkRead cs consumed)
                 (snd (processBlock t out start n))
       /\ currentPosition (fst (fst (processBlock t out start n)))
          = if looping t
               && (snd (loopBounds t)
                   <=? p + inject_Z consumed / sampleRate t)
            then fst (loopBounds t)
            else p + inject_Z consumed / sampleRate t.
Proof.
  intros Hmode Hfed. unfold processBlock in *. rewrite Hmode in *.
  destruct (_ || _); [now elim Hfed|].
  destruct (_ || _); [now elim Hfed|].
  destruct (_ <? _)%Z; [now elim Hfed|].
  pose proof (processWithSoundTouch_outcome t out start n) as Ho.
  destruct (processWithSoundTouch t out start n) as [[t' out'] reads].
  simpl in *. destruct Ho as [_ Ho].
  destruct Ho as [_ ->|cs p w _ _ _ _ ->|cs p w Hlen L Hc Hpos Hreads];
    try now elim Hfed.
  exists cs, p, w. split; [exact L|]. split.
  - intros ->. now apply (locate_unwrapped t cs p).
  - split; [exact Hc|]. split; [exact Hreads|].
    rewrite Hpos. unfold advance. now destruct (_ && _).
Qed.

End Rendering.

(** ** Tempo changes: what [setTempo] rescales by *)

Section TempoScaling.

Context {ST : Type} `{SoundTouch ST}.

(** A scale factor of one leaves a clamped ratio alone. *)
Lemma scaleStretchRatio_unit (k : Q) (t : AudioTrack ST) :
  k == 1 -> ratioInRange t -> scaleStretchRatio k t = t.
Proof.
  intros Hk Ht. unfold ratioInRange in Ht. unfold scaleStretchRatio.
  assert (E : stretchRatio t * k == stretchRatio t) by (rewrite Hk; ring).
  destruct (ltb_reflect 0.001
              (Qabs (jlimit 0.25 4 (stretchRatio t * k) - stretchRatio t)))
    as [Hfar|_]; [|reflexivity].
  exfalso. revert Hfar. apply Qle_not_lt.
  apply Qabs_Qle_condition.
  unfold jlimit. set (y := stretchRatio t * k) in *.
  destruct (ltb_reflect y 0.25), (ltb_reflect 4 y); lra.
Qed.

Lemma stretchRatio_scale (k : Q) (t : AudioTrack ST) :
  stretchRatio (scaleStretchRatio k t)
  = if 0.001 <? Qabs (jlimit 0.25 4 (stretchRatio t * k) - stretchRatio t)
    then jlimit 0.25 4 (stretchRatio t * k) else stretchRatio t.
Proof. unfold scaleStretchRatio. now destruct (0.001 <? _). Qed.

Lemma far_iff (x : Q) : 0.001 < Qabs x <-> x < -(0.001) \/ 0.001 < x.
Proof.
  split.
  - intro Hfar. destruct (Qlt_le_dec x (-(0.001))) as [|Hlo]; [now left|].
    destruct (Qlt_le_dec 0.001 x) as [|Hhi]; [now right|].
    exfalso. revert Hfar. apply Qle_not_lt. apply Qabs_Qle_condition. lra.
  - intros Hx. apply Qnot_le_lt. intro Hle.
    apply Qabs_Qle_condition in Hle. lra.
Qed.

Lemma jlimit_cases (v : Q) :
  (v < 0.25 /\ jlimit 0.25 4 v = 0.25)
  \/ (4 < v /\ jlimit 0.25 4 v = 4)
  \/ (0.25 <= v <= 4 /\ jlimit 0.25 4 v = v).
Proof.
  unfold jlimit. destruct (ltb_reflect v 0.25); [now left|].
  destruct (ltb_reflect 4 v); [right; now left|].
  right; right. split; [lra | reflexivity].
Qed.

(** Rescaling is invertible where it does not clamp: scaling by [k]
    and then by [1 / k] brings the ratio back, up to the 0.001 band
    inside which [scaleStretchRatio] leaves a ratio alone. *)
Lemma scaleStretchRatio_inverse (k : Q) (t : AudioTrack ST) :
  0 < k -> ratioInRange t -> 0.25 <= stretchRatio t * k <= 4 ->
  Qabs (stretchRatio (scaleStretchRatio (1 / k) (scaleStretchRatio k t))
        - stretchRatio t) <= 0.0011.
Proof.
  intros Hk Hr Hrk. unfold ratioInRange in Hr.
  rewrite (stretchRatio_scale (1 / k)), (stretchRatio_scale k t).
  set (r := stretchRatio t) in *.
  destruct (jlimit_cases (r * k)) as [[? _]|[[? _]|[_ ->]]]; try lra.
  destruct (ltb_reflect 0.001 (Qabs (r * k - r))) as [Hfar|Hnear].
  - assert (E : r * k * (1 / k) == r) by (field; lra).
    destruct (jlimit_cases (r * k * (1 / k))) as [[? _]|[[? _]|[_ ->]]];
      try lra.
    apply far_iff in Hfar.
    destruct (ltb_reflect 0.001 (Qabs (r * k * (1 / k) - r * k)))
      as [_|Hnear2].
    + apply Qabs_Qle_condition. lra.
    + exfalso. apply Hnear2. apply far_iff. lra.
  - apply Qnot_lt_le, Qabs_Qle_condition in Hnear.
    set (y := r * (1 / k)) in *.
    assert (E : y * k == r) by (unfold y; field; lra).
    assert (Hk1 : 0.996 <= k) by nra.
    assert (Hy : r - 0.0011 <= y <= r + 0.0011) by nra.
    destruct (ltb_reflect 0.001 (Qabs (jlimit 0.25 4 y - r))) as [_|_].
    + apply Qabs_Qle_condition.
      destruct (jlimit_cases y) as [[? ->]|[[? ->]|[_ ->]]]; lra.
    + apply Qabs_Qle_condition. lra.
Qed.

(** [setTempo] divides by [previousMasterTempo], and only afterwards
    stores the old master tempo there.  So calling it with the tempo
    that [previousMasterTempo] already holds rescales nothing. *)
Lemma setTempo_to_previous (bpm : Q) (m : MainComponent ST) :
  previousMasterTempo m == bpm -> ~ bpm == 0 ->
  Forall ratioInRange (audioTracks m) ->
  map stretchRatio (audioTracks (setTempo bpm m))
  = map stretchRatio (audioTracks m).
Proof.
  intros Hprev Hnz Hall. unfold setTempo. simpl.
  rewrite !map_map. apply map_ext_in. intros t Ht.
  rewrite Forall_forall in Hall. specialize (Hall t Ht).
  cbn [stretchRatio setMasterBPM with_masterBPM].
  destruct (isLoaded t); [|reflexivity].
  rewrite scaleStretchRatio_unit; [reflexivity | | exact Hall].
  rewrite Hprev. field. exact Hnz.
Qed.

(** Hence the second call of [setTempo (X); setTempo (M)], [M] being
    the master tempo before the first call, changes no stretch ratio:
    the ratios stay where the first call put them. *)
Lemma setTempo_back_rescales_nothing (x : Q) (m : MainComponent ST) :
  ~ masterTempo m == 0 ->
  Forall ratioInRange (audioTracks m) ->
  map stretchRatio (audioTracks (setTempo (masterTempo m) (setTempo x m)))
  = map stretchRatio (audioTracks (setTempo x m)).
Proof.
  intros Hnz Hall. apply setTempo_to_previous.
  - reflexivity.
  - exact Hnz.
  - now apply setTempo_range.
Qed.

End TempoScaling.

(** ** The properties on concrete inputs *)

Module Examples.

Import Fixtures BPM.

(** Decides a closed comparison of rationals. *)
Ltac qdecide :=
  vm_compute; first [reflexivity | discriminate | intro; discriminate].

(** C1.  One second of silence at 8000 Hz: the onset stage finds no
    onset and returns its default 120, which the chain accepts; the
    autocorrelation stage, had it been consulted, returns 117.1875,
    inside [60, 200].  The detected BPM is 120, not 117.1875. *)
Theorem silence_keeps_onset_default :
  let t := loaded quietSecond in
  (length (onsetTimesOf t (calculateOnsetStrength t)) < 4)%nat
  /\ detectBPMAutocorrelation t == 117.1875
  /\ 60 <= detectBPMAutocorrelation t <= 200
  /\ detectedBPM t == 120.
Proof.
  intro t.
  assert (Hauto : detectBPMAutocorrelation t = 480000 # 4096)
    by (vm_compute; reflexivity).
  assert (Honsets : onsetTimesOf t (calculateOnsetStrength t) = [])
    by (vm_compute; reflexivity).
  rewrite Hauto, Honsets.
  split; [simpl; lia|]. split; [qdecide|]. split; [split; qdecide|].
  qdecide.
Qed.

(** C2.  Two loaded tracks with ratios 1 and 0.8 at master tempo 120.
    [setTempo (150)] followed by [setTempo (120)] brings the master
    tempo back to 120 but leaves the ratios at 1.25 and 1: the second
    call divides by the stale [previousMasterTempo], which is 120, so
    it rescales by 1. *)
Theorem tempo_round_trip_leaves_ratios_scaled :
  let m := twoLoaded in
  let m' := setTempo 120 (setTempo 150 m) in
  map isLoaded (firstn 2 (audioTracks m)) = [true; true]
  /\ masterTempo m == 120 /\ masterTempo m' == 120
  /\ ratioOf 0 m == 1 /\ ratioOf 0 m' == 1.25
  /\ ratioOf 1 m == 0.8 /\ ratioOf 1 m' == 1.
Proof.
  repeat split; qdecide.
Qed.

(** Witness of C3 on a loaded session: extreme requests stay clamped. *)
Lemma stretchRatio_always_clamped_example :
  Forall (fun t => stretchRatio t == 1) (audioTracks oneLoaded)
  /\ Forall (fun t => 0.25 <= stretchRatio t <= 4)
       (audioTracks
          (applyCalls
             [CallSetStretchRatio 0 10; CallSetTempo 1000;
              CallScaleStretchRatio 0 (1 # 100); CallAutoSyncToMaster 1;
              CallSetInitialMasterBPM 90 (Some 0%nat)]
             oneLoaded)).
Proof.
  assert (Hstart : Forall (fun t => stretchRatio t == 1)
                     (audioTracks oneLoaded)).
  { vm_compute. repeat constructor. }
  split; [exact Hstart|].
  exact (stretchRatio_always_clamped oneLoaded _ Hstart).
Defined.

(** Counterexample to C4 as stated: with the region [1 ms, 20 ms) at
    44100 Hz the first block reads frame 44, which lies before
    [0.001 * 44100 = 44.1]. *)
Lemma read_before_region_start :
  let t := loaded shortRamp in
  validRegion t 0.001 0.02
  /\ exists r i,
       In r (snd (renderBlocks (setLoopRegion 0.001 0.02 t)
                    [mkCall (outMono 512) 0 512]))
       /\ touches r i
       /\ ~ (0.001 * sampleRate t <= inject_Z i < 0.02 * sampleRate t).
Proof.
  intro t. split.
  - unfold validRegion. repeat split; qdecide.
  - exists (mkRead 44 512), 44%Z. split; [vm_compute; auto|].
    split; [unfold touches; simpl; lia|].
    intros [Hlow _]. apply (Qle_not_lt _ _ Hlow). qdecide.
Qed.

(** Witness of C4 on the same region: the second block reads frames
    556 to 881, inside [44, 882). *)
Lemma reads_stay_in_truncated_region_example :
  let t := loaded shortRamp in
  validRegion t 0.001 0.02
  /\ (to_int (0.001 * sampleRate t) <= 881
      < Z.min (to_int (0.02 * sampleRate t))
              (getNumSamples (audioBuffer t)))%Z.
Proof.
  intro t.
  assert (Hv : validRegion t 0.001 0.02)
    by (unfold validRegion; repeat split; qdecide).
  split; [exact Hv|].
  refine (proj1 (reads_stay_in_truncated_region t 0.001 0.02
                   [mkCall (outMono 512) 0 512; mkCall (outMono 512) 0 512]
                   (mkRead 556 326) 881 Hv _ _)).
  - vm_compute. auto.
  - unfold touches. simpl. lia.
Defined.

(** Witness of C8 on a fresh session: loading track 0 makes its BPM the master
    tempo. *)
Lemma only_loaded_track_sets_master_tempo_example :
  masterTempo oneLoaded = detectedBPM (loaded shortRamp)
  /\ previousMasterTempo oneLoaded = 120.
Proof.
  assert (Hothers : forall j tj, j <> 0%nat ->
            nth_error (audioTracks (@newMainComponent (list Q) _)) j = Some tj ->
            isLoaded tj = false).
  { intros j tj _ Hj. apply nth_error_In in Hj. simpl in Hj.
    repeat (destruct Hj as [<-|Hj]; [reflexivity|]). contradiction. }
  pose proof (only_loaded_track_sets_master_tempo newMainComponent 0
                shortRamp (setMasterBPM 120 newTrack) eq_refl eq_refl
                Hothers) as (_ & Hmaster & Hprev & _).
  split; [exact Hmaster | exact Hprev].
Defined.

(** Counterexample to C9 as stated: a looping track of 1000 frames,
    stretched, asked for a block of 512 frames from position 0, feeds
    its 1000 frames to the stretcher and is back at position 0, not at
    [0 + 1000 / 44100]. *)
Lemma stretched_position_wraps_at_end :
  let t := fastRamp in
  let consumed :=
    Z.min (512 * 2)
          (loopEndSample t - to_int (currentPosition t * sampleRate t)) in
  (Qabs (stretchRatio t - 1) <? 0.02) = false
  /\ snd (processBlock t (outMono 512) 0 512) = [mkRead 0 consumed]
  /\ ~ (currentPosition (fst (fst (processBlock t (outMono 512) 0 512)))
        == currentPosition t + inject_Z consumed / sampleRate t).
Proof.
  split; [vm_compute; reflexivity|]. split; [vm_compute; reflexivity|].
  qdecide.
Qed.

(** Witness of C9 on a block that ends inside the region: 128 frames
    consumed for 64 requested, position 0 -> 128 / 44100. *)
Lemma stretched_position_follows_input_example :
  exists (cs : Z) (p : Q) (w : bool),
    locate fastRamp = At cs p w
    /\ (w = false -> p = currentPosition fastRamp)
    /\ let consumed := Z.min (64 * 2) (loopEndSample fastRamp - cs) in
       (0 < consumed)%Z
       /\ Forall (fun r => r = mkRead cs consumed)
                 (snd (processBlock fastRamp (outMono 64) 0 64))
       /\ currentPosition
            (fst (fst (processBlock fastRamp (outMono 64) 0 64)))
          = if looping fastRamp
               && (snd (loopBounds fastRamp)
                   <=? p + inject_Z consumed / sampleRate fastRamp)
            then fst (loopBounds fastRamp)
            else p + inject_Z consumed / sampleRate fastRamp.
Proof.
  apply (stretched_position_follows_input fastRamp (outMono 64) 0 64).
  - vm_compute. reflexivity.
  - vm_compute. discriminate.
Defined.

(** Witness of C10 on a block that starts before the buffer and on one that ends
    after it. *)
Lemma processBlock_outside_buffer_is_noop_example :
  processBlock fastRamp (outMono 8) (-1) 4 = (fastRamp, outMono 8, [])
  /\ processBlock fastRamp (outMono 8) 6 4 = (fastRamp, outMono 8, []).
Proof.
  split.
  - apply processBlock_outside_buffer_is_noop. left. lia.
  - apply processBlock_outside_buffer_is_noop. right. simpl. lia.
Defined.

End Examples.

(** * Further properties *)

(** ** Track controls *)

Section TrackControls.

Context {ST : Type} `{SoundTouch ST}.

Lemma duration_nonneg (t : AudioTrack ST) : 0 <= getDurationInSeconds t.
Proof.
  unfold getDurationInSeconds.
  destruct (Z.ltb_spec 0 (getNumSamples (audioBuffer t))) as [Hn|Hn];
    [|simpl; lra].
  destruct (ltb_reflect 0 (sampleRate t)) as [Hr|Hr]; [|simpl; lra].
  simpl. apply Qle_shift_div_l; [exact Hr|].
  rewrite Qmult_0_l. change 0 with (inject_Z 0). rewrite <- Zle_Qle. lia.
Qed.

Lemma loopBounds_ordered (t : AudioTrack ST) :
  fst (loopBounds t) <= snd (loopBounds t).
Proof.
  unfold loopBounds.
  destruct (hasCustomLoopRegion t); simpl.
  - destruct (ltb_reflect (loopStartTime t) (loopEndTime t)); simpl.
    + lra.
    + apply duration_nonneg.
  - apply duration_nonneg.
Qed.

Lemma setStretchRatio_near (ratio : Q) (t : AudioTrack ST) :
  Qabs (stretchRatio (setStretchRatio ratio t) - jlimit 0.25 4 ratio)
  <= 0.001.
Proof.
  unfold setStretchRatio.
  set (c := jlimit 0.25 4 ratio).
  destruct (ltb_reflect 0.001 (Qabs (c - stretchRatio t))) as [Hfar|Hnear].
  - cbn [stretchRatio with_stretchRatio].
    apply Qabs_Qle_condition. lra.
  - apply Qnot_lt_le in Hnear. apply Qabs_Qle_condition in Hnear.
    apply Qabs_Qle_condition. lra.
Qed.

(** X1.  [setStretchRatio] settles: asking twice for the same ratio is
    asking once, and afterwards the ratio is within 0.001 of the
    request clamped to [0.25, 4]. *)
Theorem setStretchRatio_settles (ratio : Q) (t : AudioTrack ST) :
  setStretchRatio ratio (setStretchRatio ratio t) = setStretchRatio ratio t
  /\ Qabs (stretchRatio (setStretchRatio ratio t) - jlimit 0.25 4 ratio)
     <= 0.001.
Proof.
  unfold setStretchRatio.
  set (c := jlimit 0.25 4 ratio).
  destruct (ltb_reflect 0.001 (Qabs (c - stretchRatio t))) as [Hfar|Hnear].
  - cbn [stretchRatio with_stretchRatio].
    assert (Hz : Qabs (c - c) <= 0.001).
    { apply Qabs_Qle_condition. lra. }
    destruct (ltb_reflect 0.001 (Qabs (c - c))) as [Hbad|_]; [lra|].
    split; [reflexivity | exact Hz].
  - destruct (ltb_reflect 0.001 (Qabs (c - stretchRatio t)));
      [contradiction|].
    split; [reflexivity|].
    apply Qnot_lt_le in Hnear. apply Qabs_Qle_condition in Hnear.
    apply Qabs_Qle_condition. lra.
Qed.

Lemma setPosition_bounds (p : Q) (t : AudioTrack ST) :
  loopBounds (setPosition p t) = loopBounds t
  /\ fst (loopBounds t) <= currentPosition (setPosition p t)
     <= snd (loopBounds t).
Proof.
  pose proof (loopBounds_ordered t) as Hord.
  unfold setPosition, loopBounds in *.
  destruct (hasCustomLoopRegion t && (loopStartTime t <? loopEndTime t))
    eqn:E; cbn [hasCustomLoopRegion loopStartTime loopEndTime
                with_currentPosition currentPosition fst snd] in *;
    rewrite E; (split; [reflexivity | now apply jlimit_range]).
Qed.

Lemma setPosition_lower (p : Q) (t : AudioTrack ST) :
  fst (loopBounds t) <= currentPosition (setPosition p t).
Proof. apply setPosition_bounds. Qed.

(** X2.  [setPosition] always lands inside the active loop bounds: the
    installed region when there is one, the whole clip otherwise. *)
Theorem setPosition_inside_bounds (p : Q) (t : AudioTrack ST) :
  loopBounds (setPosition p t) = loopBounds t
  /\ fst (loopBounds t) <= currentPosition (setPosition p t)
     <= snd (loopBounds t).
Proof.
  destruct (setPosition_bounds p t) as [Hsame Hin].
  split; [exact Hsame | exact Hin].
Qed.

(** X3.  Clearing the loop region twice is clearing it once, and
    afterwards the position is not past the end of the clip. *)
Theorem clearLoopRegion_idempotent (t : AudioTrack ST) :
  clearLoopRegion (clearLoopRegion t) = clearLoopRegion t
  /\ currentPosition (clearLoopRegion t) <= getDurationInSeconds t.
Proof.
  pose proof (duration_nonneg t) as Hd.
  unfold clearLoopRegion.
  change (getDurationInSeconds (with_loopRegion false 0 0 t))
    with (getDurationInSeconds t).
  cbn [currentPosition with_loopRegion].
  destruct (ltb_reflect (getDurationInSeconds t) (currentPosition t))
    as [Hpast|Hin].
  - change (getDurationInSeconds
              (with_loopRegion false 0 0
                 (with_currentPosition 0 (with_loopRegion false 0 0 t))))
      with (getDurationInSeconds t).
    cbn [currentPosition with_loopRegion with_currentPosition].
    destruct (ltb_reflect (getDurationInSeconds t) 0); [lra|].
    split; [reflexivity | exact Hd].
  - change (getDurationInSeconds
              (with_loopRegion false 0 0 (with_loopRegion false 0 0 t)))
      with (getDurationInSeconds t).
    cbn [currentPosition with_loopRegion].
    destruct (ltb_reflect (getDurationInSeconds t) (currentPosition t));
      [contradiction|].
    split; [reflexivity | lra].
Qed.

End TrackControls.

(** ** Invariants of a track over its whole life *)

Section TrackInvariants.

Context {ST : Type} `{SoundTouch ST}.

(** Frames can only be rendered from a clip with a positive sample
    rate: otherwise the active region is empty. *)
Lemma rate_positive (t : AudioTrack ST) :
  (loopStartSample t < loopEndSample t)%Z -> 0 < sampleRate t.
Proof.
  intro Hlen. destruct (Qlt_le_dec 0 (sampleRate t)) as [|Hr]; [assumption|].
  exfalso. revert Hlen. unfold loopStartSample, loopEndSample, loopBounds.
  destruct (hasCustomLoopRegion t); simpl.
  - destruct (ltb_reflect (loopStartTime t) (loopEndTime t)) as [Hse|Hse];
      simpl.
    + assert (Hm : loopEndTime t * sampleRate t
                   <= loopStartTime t * sampleRate t) by nra.
      apply to_int_mono in Hm. lia.
    + unfold getDurationInSeconds.
      destruct (ltb_reflect 0 (sampleRate t)); [lra|].
      rewrite andb_false_r.
      assert (E : 0 * sampleRate t == 0) by ring.
      rewrite E. change (to_int 0) with 0%Z. lia.
  - unfold getDurationInSeconds.
    destruct (ltb_reflect 0 (sampleRate t)); [lra|].
    rewrite andb_false_r.
    assert (E : 0 * sampleRate t == 0) by ring.
    rewrite E. change (to_int 0) with 0%Z. lia.
Qed.

Lemma loopStart_nonneg (t : AudioTrack ST) :
  regionInsideClip t -> 0 <= fst (loopBounds t).
Proof.
  unfold regionInsideClip, loopBounds. intro Hreg.
  destruct (hasCustomLoopRegion t); simpl; [|lra].
  destruct (loopStartTime t <? loopEndTime t); simpl; [|lra].
  now apply Hreg.
Qed.

Lemma sameRegion_inside (t t' : AudioTrack ST) :
  sameRegion t t' -> regionInsideClip t -> regionInsideClip t'.
Proof.
  intros (Hb & Hr & Hh & Hs & He) Hreg.
  unfold regionInsideClip, getDurationInSeconds in *.
  now rewrite Hb, Hr, Hh, Hs, He.
Qed.

Lemma sameSource_sameRegion (t t' : AudioTrack ST) :
  sameSource t t' -> sameRegion t t'.
Proof.
  intros (Ha & _ & Hsr & _ & _ & _ & _ & _ & _ & _ & Hh & Hls & Hle).
  repeat split; assumption.
Qed.

Ltac same_region :=
  unfold sameRegion; repeat split; reflexivity.

Lemma applyTrackCall_region (t : AudioTrack ST) (c : TrackCall) :
  regionInsideClip t -> regionInsideClip (applyTrackCall t c).
Proof.
  intro Hreg. destruct c as [[r|]|ratio|k|p| |bpm|bpm| |s e| |b|b|b|v|c];
    cbn [applyTrackCall]; try exact Hreg.
  - destruct (loadAudioFile_fields r t) as (_ & _ & _ & _ & Hno).
    intro Hhas. cbv zeta in Hno. congruence.
  - apply (sameRegion_inside t); [|exact Hreg].
    unfold setStretchRatio. destruct (0.001 <? _); same_region.
  - apply (sameRegion_inside t); [|exact Hreg].
    unfold scaleStretchRatio. destruct (0.001 <? _); same_region.
  - apply (sameRegion_inside t); [|exact Hreg].
    unfold setPosition. destruct (_ && _); same_region.
  - apply (sameRegion_inside t); [|exact Hreg].
    unfold reset. destruct (_ && _); same_region.
  - apply (sameRegion_inside t); [|exact Hreg].
    unfold setManualBPM. destruct (_ && _); same_region.
  - apply (sameRegion_inside t); [|exact Hreg].
    unfold autoSyncToMaster, setStretchRatio.
    destruct (_ && _); [destruct (0.001 <? _)|]; same_region.
  - destruct (validRegion_dec t s e) as [Hv|Hnv].
    + destruct (setLoopRegion_installed t s e Hv) as (p & -> & _).
      intros _. exact Hv.
    + now rewrite setLoopRegion_rejected.
  - unfold clearLoopRegion. destruct (_ <? _); intro Hhas; discriminate.
  - pose proof (processBlock_outcome t (callBuffer c) (callStart c)
                  (callFrames c)) as Ho.
    destruct (processBlock t _ _ _) as [[t' out'] reads]. simpl.
    destruct Ho as [Hs _].
    apply (sameRegion_inside t); [|exact Hreg].
    now apply sameSource_sameRegion.
Qed.

(** The position a block starts from is not negative. *)
Lemma locate_position_nonneg (t : AudioTrack ST) (cs : Z) (p : Q) (w : bool) :
  0 <= fst (loopBounds t) ->
  (loopStartSample t < loopEndSample t)%Z ->
  0 <= currentPosition t ->
  locate t = At cs p w -> 0 <= p.
Proof.
  intros Hls Hlen Hpos. pose proof (rate_positive t Hlen) as Hr.
  assert (Hlss : (0 <= loopStartSample t)%Z).
  { unfold loopStartSample. apply to_int_nonneg.
    apply Qmult_le_0_compat; lra. }
  unfold locate.
  set (cs0 := to_int (currentPosition t * sampleRate t)).
  destruct (looping t).
  - destruct (Z.ltb_spec cs0 (loopStartSample t)) as [Hlo|Hlo].
    { intro E. injection E as <- <- <-. exact Hls. }
    destruct (Z.leb_spec (loopEndSample t) cs0) as [Hhi|Hhi].
    + intro E. injection E as <- <- <-.
      pose proof (Z.rem_bound_pos (cs0 - loopStartSample t)
                    (loopEndSample t - loopStartSample t)) as Hrem.
      apply Qle_shift_div_l; [exact Hr|]. rewrite Qmult_0_l.
      change 0 with (inject_Z 0). rewrite <- Zle_Qle. lia.
    + intro E. injection E as <- <- <-. exact Hpos.
  - destruct (Z.leb_spec (loopEndSample t) cs0); [discriminate|].
    intro E. injection E as <- <- <-. exact Hpos.
Qed.

Lemma outcome_position_nonneg (t t' : AudioTrack ST) (cap : Z)
    (reads : list SourceRead) :
  regionInsideClip t -> 0 <= currentPosition t ->
  Outcome t cap t' reads -> 0 <= currentPosition t'.
Proof.
  intros Hreg Hpos Ho. pose proof (loopStart_nonneg t Hreg) as Hls.
  destruct Ho as [-> _|cs p w Hlen L _ -> _|cs p w Hlen L Hc -> _].
  - exact Hpos.
  - now apply (locate_position_nonneg t cs p w).
  - pose proof (locate_position_nonneg t cs p w Hls Hlen Hpos L) as Hp.
    pose proof (rate_positive t Hlen) as Hr.
    unfold advance. destruct (_ && _); simpl; [exact Hls|].
    assert (0 <= inject_Z (Z.min cap (loopEndSample t - cs)) / sampleRate t).
    { apply Qle_shift_div_l; [exact Hr|]. rewrite Qmult_0_l.
      change 0 with (inject_Z 0). rewrite <- Zle_Qle. lia. }
    lra.
Qed.

Lemma applyTrackCall_position (t : AudioTrack ST) (c : TrackCall) :
  regionInsideClip t -> 0 <= currentPosition t ->
  0 <= currentPosition (applyTrackCall t c).
Proof.
  intros Hreg Hpos.
  destruct c as [[r|]|ratio|k|p| |bpm|bpm| |s e| |b|b|b|v|c];
    cbn [applyTrackCall]; try exact Hpos.
  - destruct (loadAudioFile_fields r t) as (_ & _ & _ & Hzero & _).
    cbv zeta in Hzero. rewrite Hzero. lra.
  - unfold setStretchRatio. now destruct (0.001 <? _).
  - unfold scaleStretchRatio. now destruct (0.001 <? _).
  - pose proof (setPosition_lower p t) as Hlo.
    pose proof (loopStart_nonneg t Hreg). lra.
  - unfold reset.
    destruct (hasCustomLoopRegion t); simpl; [|lra].
    destruct (leb_reflect 0 (loopStartTime t)); simpl; lra.
  - unfold setManualBPM. now destruct (_ && _).
  - unfold autoSyncToMaster, setStretchRatio.
    destruct (_ && _); [destruct (0.001 <? _)|]; exact Hpos.
  - destruct (validRegion_dec t s e) as [Hv|Hnv].
    + destruct (setLoopRegion_installed t s e Hv) as (q & -> & Hout & Hins).
      simpl. destruct Hv as (Hs & _).
      destruct (Qlt_le_dec (currentPosition t) s) as [Hlo|Hlo];
        [rewrite Hout by auto; exact Hs|].
      destruct (Qlt_le_dec e (currentPosition t)) as [Hhi|Hhi];
        [rewrite Hout by auto; exact Hs|].
      rewrite Hins by lra. exact Hpos.
    + now rewrite setLoopRegion_rejected.
  - unfold clearLoopRegion. destruct (_ <? _); simpl; [lra | exact Hpos].
  - pose proof (processBlock_outcome t (callBuffer c) (callStart c)
                  (callFrames c)) as Ho.
    destruct (processBlock t _ _ _) as [[t' out'] reads]. simpl.
    destruct Ho as [_ [cap Ho]].
    now apply (outcome_position_nonneg t t' cap reads).
Qed.

Lemma applyTrackCalls_invariant (cs : list TrackCall) (t : AudioTrack ST) :
  regionInsideClip t -> 0 <= currentPosition t ->
  regionInsideClip (applyTrackCalls cs t)
  /\ 0 <= currentPosition (applyTrackCalls cs t).
Proof.
  revert t. induction cs as [|c cs IH]; intros t Hreg Hpos; simpl.
  - now split.
  - apply IH.
    + now apply applyTrackCall_region.
    + now apply applyTrackCall_position.
Qed.

Lemma newTrack_region : regionInsideClip (@newTrack ST _).
Proof. intro Hhas. discriminate. Qed.

(** X4.  From construction on, whatever is done to a track (loads,
    tempo and position changes, loop-region edits, rendering), an
    installed loop region lies inside the clip:
    [0 <= loopStart < loopEnd <= duration]. *)
Theorem loop_region_always_inside_clip (calls : list TrackCall) :
  let t := applyTrackCalls calls (@newTrack ST _) in
  hasCustomLoopRegion t = true ->
  0 <= loopStartTime t /\ loopStartTime t < loopEndTime t
  /\ loopEndTime t <= getDurationInSeconds t.
Proof.
  apply (applyTrackCalls_invariant calls newTrack newTrack_region).
  simpl. lra.
Qed.

(** X5.  From construction on, the playback position never becomes
    negative. *)
Theorem position_never_negative (calls : list TrackCall) :
  0 <= currentPosition (applyTrackCalls calls (@newTrack ST _)).
Proof.
  apply (applyTrackCalls_invariant calls newTrack newTrack_region).
  simpl. lra.
Qed.

Lemma applyTrackCall_bpm (t : AudioTrack ST) (c : TrackCall) :
  bpmSettled t -> bpmSettled (applyTrackCall t c).
Proof.
  intro Hb. destruct c as [[r|]|ratio|k|p| |bpm|bpm| |s e| |b|b|b|v|c];
    cbn [applyTrackCall]; try exact Hb.
  - right. destruct (BPMFacts.loadAudioFile_detectedBPM r t)
      as (t2 & _ & _ & ->). apply BPMFacts.estimateBPM_range.
  - unfold setStretchRatio. now destruct (0.001 <? _).
  - unfold scaleStretchRatio. now destruct (0.001 <? _).
  - unfold setPosition. now destruct (_ && _).
  - unfold reset. now destruct (_ && _).
  - unfold setManualBPM.
    destruct (leb_reflect 60 bpm); simpl; [|exact Hb].
    destruct (leb_reflect bpm 200); simpl; [|exact Hb].
    right. split; assumption.
  - unfold autoSyncToMaster, setStretchRatio.
    destruct (_ && _); [destruct (0.001 <? _)|]; exact Hb.
  - unfold setLoopRegion. destruct (_ && _); [|exact Hb].
    now destruct (_ || _).
  - unfold clearLoopRegion. now destruct (_ <? _).
  - pose proof (processBlock_outcome t (callBuffer c) (callStart c)
                  (callFrames c)) as Ho.
    destruct (processBlock t _ _ _) as [[t' out'] reads]. simpl.
    destruct Ho as [Hs _].
    unfold bpmSettled.
    replace (detectedBPM t') with (detectedBPM t); [exact Hb|].
    symmetry. apply Hs.
Qed.

(** X6.  From construction on, the detected BPM of a track is 0
    (nothing loaded yet) or lies in [60, 200]: loads put it there and
    [setManualBPM] refuses anything else. *)
Theorem detected_bpm_zero_or_in_range (calls : list TrackCall) :
  let t := applyTrackCalls calls (@newTrack ST _) in
  detectedBPM t = 0 \/ 60 <= detectedBPM t <= 200.
Proof.
  simpl. change (bpmSettled (applyTrackCalls calls (@newTrack ST _))).
  assert (Hnew : bpmSettled (@newTrack ST _)) by (left; reflexivity).
  revert Hnew. generalize (@newTrack ST _).
  induction calls as [|c cs IH]; intros t Ht; simpl.
  - exact Ht.
  - apply IH. now apply applyTrackCall_bpm.
Qed.

End TrackInvariants.

(** ** Buffers: adding samples *)

Lemma update_nat_nil (i : nat) (f : Q -> Q) : update_nat i f [] = [].
Proof. now destruct i. Qed.

Lemma length_update_nat (i : nat) (f : Q -> Q) (l : list Q) :
  length (update_nat i f l) = length l.
Proof.
  revert i. induction l as [|x r IH]; intros [|i]; simpl; auto.
Qed.

Lemma nth_update_nat (j i : nat) (f : Q -> Q) (l : list Q) :
  nth i (update_nat j f l) 0
  = if Nat.eqb i j && Nat.ltb j (length l) then f (nth j l 0)
    else nth i l 0.
Proof.
  revert j i. induction l as [|x r IH]; intros j i.
  - rewrite update_nat_nil. simpl. rewrite andb_false_r. reflexivity.
  - destruct j as [|j], i as [|i]; simpl; try reflexivity.
    rewrite IH. reflexivity.
Qed.

Lemma length_update (j : Z) (f : Q -> Q) (l : list Q) :
  length (update j f l) = length l.
Proof.
  unfold update. destruct (j <? 0)%Z; [reflexivity|].
  apply length_update_nat.
Qed.

Lemma at_update (j i : Z) (f : Q -> Q) (l : list Q) :
  at_ (update j f l) i
  = if ((i =? j) && (0 <=? j) && (j <? Z.of_nat (length l)))%Z
    then f (at_ l j) else at_ l i.
Proof.
  unfold at_, update.
  destruct (Z.eqb_spec i j) as [->|Hij]; simpl.
  - destruct (Z.ltb_spec j 0) as [Hj|Hj].
    + destruct (Z.leb_spec 0 j); [lia|]. reflexivity.
    + destruct (Z.leb_spec 0 j); [|lia]. simpl.
      rewrite nth_update_nat, Nat.eqb_refl. simpl.
      destruct (Nat.ltb_spec (Z.to_nat j) (length l)),
               (Z.ltb_spec j (Z.of_nat (length l))); try reflexivity; lia.
  - destruct (Z.ltb_spec i 0) as [Hi|Hi]; [reflexivity|].
    destruct (Z.ltb_spec j 0) as [Hj|Hj]; [reflexivity|].
    rewrite nth_update_nat.
    destruct (Nat.eqb_spec (Z.to_nat i) (Z.to_nat j)); [lia|]. reflexivity.
Qed.

Lemma nth_update_channel_nat (j i : nat) (f : list Q -> list Q)
    (cs : list (list Q)) :
  f [] = [] ->
  nth i (Buffer.update_channel_nat j f cs) []
  = if Nat.eqb i j then f (nth j cs []) else nth i cs [].
Proof.
  intro Hf. revert j i. induction cs as [|c r IH]; intros j i.
  - destruct j, i; simpl; rewrite ?Hf; try reflexivity;
      now destruct (Nat.eqb _ _).
  - destruct j as [|j], i as [|i]; simpl; try reflexivity. apply IH.
Qed.

Lemma channel_update_channel (b : AudioBuffer) (ch ch' : Z)
    (f : list Q -> list Q) :
  f [] = [] ->
  Buffer.channel (Buffer.update_channel b ch f) ch'
  = if (ch' =? ch)%Z then f (Buffer.channel b ch) else Buffer.channel b ch'.
Proof.
  intro Hf. unfold Buffer.channel, Buffer.update_channel.
  destruct (Z.ltb_spec ch 0) as [Hc|Hc].
  - destruct (Z.eqb_spec ch' ch) as [->|Hne]; [|reflexivity].
    destruct (Z.ltb_spec ch 0); [|lia]. now rewrite Hf.
  - simpl. destruct (Z.ltb_spec ch' 0) as [Hc'|Hc'].
    + destruct (Z.eqb_spec ch' ch); [lia | reflexivity].
    + rewrite nth_update_channel_nat by exact Hf.
      destruct (Nat.eqb_spec (Z.to_nat ch') (Z.to_nat ch)),
               (Z.eqb_spec ch' ch); try reflexivity; lia.
Qed.

Lemma update_nil (i : Z) (f : Q -> Q) : update i f [] = [].
Proof.
  unfold update. destruct (i <? 0)%Z; [reflexivity | apply update_nat_nil].
Qed.

Lemma getSample_addSample (b : AudioBuffer) (ch i ch' i' : Z) (v : Q) :
  Buffer.getSample (Buffer.addSample b ch i v) ch' i'
  = if ((ch' =? ch) && (i' =? i) && (0 <=? i) && (i <? sampleCount b ch))%Z
    then Buffer.getSample b ch i + v
    else Buffer.getSample b ch' i'.
Proof.
  unfold Buffer.getSample, Buffer.addSample, sampleCount.
  rewrite channel_update_channel by apply update_nil.
  destruct (Z.eqb_spec ch' ch) as [->|Hne]; simpl; [|reflexivity].
  rewrite at_update. now rewrite <- !andb_assoc.
Qed.

Lemma sampleCount_addSample (b : AudioBuffer) (ch i ch' : Z) (v : Q) :
  sampleCount (Buffer.addSample b ch i v) ch' = sampleCount b ch'.
Proof.
  unfold sampleCount, Buffer.addSample.
  rewrite channel_update_channel by apply update_nil.
  destruct (Z.eqb_spec ch' ch) as [->|]; [|reflexivity].
  now rewrite length_update.
Qed.

Lemma dims_addSample (b : AudioBuffer) (ch i : Z) (v : Q) :
  getNumChannels (Buffer.addSample b ch i v) = getNumChannels b
  /\ getNumSamples (Buffer.addSample b ch i v) = getNumSamples b.
Proof.
  unfold Buffer.addSample, Buffer.update_channel.
  destruct (ch <? 0)%Z; split; reflexivity.
Qed.

(** A property kept by every step of a loop holds after the loop. *)
Lemma fold_left_keeps {A B : Type} (P : A -> Prop) (f : A -> B -> A)
    (xs : list B) (a : A) :
  P a -> (forall a' x, In x xs -> P a' -> P (f a' x)) ->
  P (fold_left f xs a).
Proof.
  revert a. induction xs as [|x xs IH]; intros a Ha Hstep; simpl.
  - exact Ha.
  - apply IH.
    + apply Hstep; [now left | exact Ha].
    + intros a' y Hy. apply Hstep. now right.
Qed.

Lemma NoDup_zrange (lo hi : Z) : NoDup (zrange lo hi).
Proof.
  unfold zrange. apply Injective_map_NoDup.
  - intros a b Hab. lia.
  - apply seq_NoDup.
Qed.

(** [addFrom], sample by sample: inside the destination region (and
    the stored data) the scaled source is added, everything else is
    left as it was. *)
Lemma getSample_addFrom (dest : AudioBuffer) (dch ds : Z) (src : AudioBuffer)
    (sch ss num : Z) (gain : Q) (ch i : Z) :
  Buffer.getSample (Buffer.addFrom dest dch ds src sch ss num gain) ch i
  = if ((ch =? dch) && (ds <=? i) && (i <? ds + num)
        && (0 <=? i) && (i <? sampleCount dest dch))%Z
    then Buffer.getSample dest ch i
         + Buffer.getSample src sch (ss + (i - ds)) * gain
    else Buffer.getSample dest ch i.
Proof.
  unfold Buffer.addFrom.
  assert (Hgen : forall ks d,
    NoDup ks ->
    Buffer.getSample
      (fold_left (fun d k => Buffer.addSample d dch (ds + k)
                    (Buffer.getSample src sch (ss + k) * gain)) ks d) ch i
    = (if ((ch =? dch) && existsb (fun k => (i =? ds + k)%Z) ks
           && (0 <=? i) && (i <? sampleCount d dch))%Z
       then Buffer.getSample d ch i
            + Buffer.getSample src sch (ss + (i - ds)) * gain
       else Buffer.getSample d ch i)
    /\ sampleCount
         (fold_left (fun d k => Buffer.addSample d dch (ds + k)
                       (Buffer.getSample src sch (ss + k) * gain)) ks d) dch
       = sampleCount d dch).
  { induction ks as [|k ks IH]; intros d Hnd; simpl.
    - rewrite andb_false_r. simpl. split; reflexivity.
    - inversion Hnd as [|? ? Hk Hnd']; subst.
      destruct (IH (Buffer.addSample d dch (ds + k)
                      (Buffer.getSample src sch (ss + k) * gain)) Hnd')
        as [Hval Hcount].
      rewrite Hval, Hcount, sampleCount_addSample, getSample_addSample.
      split; [|reflexivity].
      destruct (Z.eqb_spec ch dch) as [->|Hne]; simpl; [|reflexivity].
      destruct (Z.eqb_spec i (ds + k)) as [->|Hik]; simpl.
      + assert (Hnot : existsb (fun k0 => (ds + k =? ds + k0)%Z) ks = false).
        { destruct (existsb _ ks) eqn:E; [|reflexivity].
          apply existsb_exists in E. destruct E as (k0 & Hin & Heq).
          apply Z.eqb_eq in Heq. assert (k0 = k) by lia. subst.
          contradiction. }
        rewrite Hnot. simpl.
        replace (ss + (ds + k - ds))%Z with (ss + k)%Z by lia.
        destruct (0 <=? ds + k)%Z, (ds + k <? sampleCount d dch)%Z;
          reflexivity.
      + destruct (existsb _ ks); simpl; [|reflexivity].
        destruct (0 <=? i)%Z, (i <? sampleCount d dch)%Z; reflexivity. }
  destruct (Hgen (zrange 0 num) dest (NoDup_zrange 0 num)) as [Hval _].
  rewrite Hval. clear Hgen Hval.
  assert (Hex : existsb (fun k => (i =? ds + k)%Z) (zrange 0 num)
                = ((ds <=? i) && (i <? ds + num))%Z).
  { destruct (existsb _ _) eqn:E.
    - apply existsb_exists in E. destruct E as (k & Hin & Heq).
      apply in_zrange in Hin. apply Z.eqb_eq in Heq.
      destruct (Z.leb_spec ds i), (Z.ltb_spec i (ds + num));
        try reflexivity; lia.
    - destruct (Z.leb_spec ds i), (Z.ltb_spec i (ds + num));
        try reflexivity.
      assert (Hyes : existsb (fun k => (i =? ds + k)%Z) (zrange 0 num)
                     = true); [|congruence].
      apply existsb_exists. exists (i - ds)%Z. split.
      + apply in_zrange. lia.
      + apply Z.eqb_eq. lia. }
  rewrite Hex. now rewrite <- !andb_assoc.
Qed.

Lemma sampleCount_addFrom (dest : AudioBuffer) (dch ds : Z)
    (src : AudioBuffer) (sch ss num : Z) (gain : Q) (ch : Z) :
  sampleCount (Buffer.addFrom dest dch ds src sch ss num gain) ch
  = sampleCount dest ch.
Proof.
  unfold Buffer.addFrom.
  apply (fold_left_keeps (fun d => sampleCount d ch = sampleCount dest ch)).
  - reflexivity.
  - intros d k _ Hd. now rewrite sampleCount_addSample.
Qed.

Lemma dims_addFrom (dest : AudioBuffer) (dch ds : Z)
    (src : AudioBuffer) (sch ss num : Z) (gain : Q) :
  getNumChannels (Buffer.addFrom dest dch ds src sch ss num gain)
  = getNumChannels dest
  /\ getNumSamples (Buffer.addFrom dest dch ds src sch ss num gain)
     = getNumSamples dest.
Proof.
  unfold Buffer.addFrom.
  apply (fold_left_keeps
           (fun d => getNumChannels d = getNumChannels dest
                     /\ getNumSamples d = getNumSamples dest)).
  - split; reflexivity.
  - intros d k _ [H1 H2].
    destruct (dims_addSample d dch (ds + k)
                (Buffer.getSample src sch (ss + k) * gain)) as [E1 E2].
    split; congruence.
Qed.

(** ** What a rendered block writes *)

Section BlockOutput.

Context {ST : Type} `{SoundTouch ST}.

(** The channel loop of the direct path, sample by sample. *)
Lemma getSample_direct_channels (src : AudioBuffer) (start cs c : Z)
    (vol : Q) (chs : list Z) (out : AudioBuffer) (ch i : Z) :
  NoDup chs ->
  Buffer.getSample
    (fold_left (fun b k => Buffer.addFrom b k start src k cs c vol) chs out)
    ch i
  = if (existsb (Z.eqb ch) chs && (start <=? i) && (i <? start + c)
        && (0 <=? i) && (i <? sampleCount out ch))%Z
    then Buffer.getSample out ch i
         + Buffer.getSample src ch (cs + (i - start)) * vol
    else Buffer.getSample out ch i.
Proof.
  revert out. induction chs as [|k chs IH]; intros out Hnd; simpl.
  - reflexivity.
  - inversion Hnd as [|? ? Hk Hnd']; subst.
    rewrite (IH _ Hnd'), sampleCount_addFrom, getSample_addFrom.
    destruct (Z.eqb_spec ch k) as [->|Hne]; simpl.
    + assert (Hnot : existsb (Z.eqb k) chs = false).
      { destruct (existsb _ chs) eqn:E; [|reflexivity].
        apply existsb_exists in E. destruct E as (k0 & Hin & Heq).
        apply Z.eqb_eq in Heq. subst. contradiction. }
      rewrite Hnot. simpl. reflexivity.
    + destruct (existsb (Z.eqb ch) chs); reflexivity.
Qed.

Lemma existsb_zrange (lo hi ch : Z) :
  existsb (Z.eqb ch) (zrange lo hi) = ((lo <=? ch) && (ch <? hi))%Z.
Proof.
  destruct (existsb _ _) eqn:E.
  - apply existsb_exists in E. destruct E as (k & Hin & Heq).
    apply in_zrange in Hin. apply Z.eqb_eq in Heq. subst.
    destruct (Z.leb_spec lo k), (Z.ltb_spec k hi); try reflexivity; lia.
  - destruct (Z.leb_spec lo ch), (Z.ltb_spec ch hi); try reflexivity.
    assert (Hyes : existsb (Z.eqb ch) (zrange lo hi) = true); [|congruence].
    apply existsb_exists. exists ch. split.
    + apply in_zrange. lia.
    + apply Z.eqb_refl.
Qed.

(** Samples outside [start, start + n) survive the mixing of stretched
    frames. *)
Lemma mixStretched_outside (t : AudioTrack ST)
    (stretched out : AudioBuffer) (start n received ch i : Z) :
  ~ (start <= i < start + n)%Z ->
  Buffer.getSample (mixStretched t stretched out start n received) ch i
  = Buffer.getSample out ch i.
Proof.
  intro Hout. unfold mixStretched.
  destruct (getNumChannels (audioBuffer t) =? 1)%Z.
  - apply (fold_left_keeps
             (fun b => Buffer.getSample b ch i = Buffer.getSample out ch i)).
    + reflexivity.
    + intros b k Hk Hb. apply in_zrange in Hk.
      assert (Hne : (i =? start + k)%Z = false) by (apply Z.eqb_neq; lia).
      destruct (2 <=? getNumChannels out)%Z;
        rewrite ?getSample_addSample, ?Hne, ?andb_false_r; simpl;
        rewrite ?getSample_addSample, ?Hne, ?andb_false_r; simpl;
        exact Hb.
  - apply (fold_left_keeps
             (fun b => Buffer.getSample b ch i = Buffer.getSample out ch i)).
    + reflexivity.
    + intros b k Hk Hb. apply in_zrange in Hk.
      assert (Hne : (i =? start + k)%Z = false) by (apply Z.eqb_neq; lia).
      apply (fold_left_keeps
               (fun b' => Buffer.getSample b' ch i
                          = Buffer.getSample out ch i)).
      * exact Hb.
      * intros b' c _ Hb'.
        rewrite getSample_addSample, Hne, andb_false_r. simpl. exact Hb'.
Qed.

Lemma direct_outside (t : AudioTrack ST) (out : AudioBuffer)
    (start n ch i : Z) :
  ~ (start <= i < start + n)%Z ->
  Buffer.getSample (snd (fst (processDirectPlayback t out start n))) ch i
  = Buffer.getSample out ch i.
Proof.
  intro Hout. unfold processDirectPlayback.
  destruct (_ <=? 0)%Z; [reflexivity|].
  destruct (locate t) as [|cs p w]; [reflexivity|].
  destruct (Z.leb_spec (Z.min n (loopEndSample t - cs)) 0);
    [reflexivity|].
  cbv zeta. cbn [fst snd].
  set (c := Z.min n (loopEndSample t - cs)) in *.
  assert (Hreg : ((start <=? i) && (i <? start + c))%Z = false).
  { destruct (Z.leb_spec start i), (Z.ltb_spec i (start + c));
      try reflexivity; lia. }
  assert (Hloop : forall chs b,
            Buffer.getSample b ch i = Buffer.getSample out ch i ->
            Buffer.getSample
              (fold_left (fun b k => Buffer.addFrom b k start (audioBuffer t)
                                       k cs c (volume t)) chs b) ch i
            = Buffer.getSample out ch i).
  { intros chs b Hb.
    apply (fold_left_keeps
             (fun b' => Buffer.getSample b' ch i
                        = Buffer.getSample out ch i)); [exact Hb|].
    intros b' k _ Hb'. rewrite getSample_addFrom.
    rewrite <- (andb_assoc (ch =? k)%Z), Hreg, andb_false_r. exact Hb'. }
  destruct ((getNumChannels (audioBuffer t) =? 1)%Z
            && (2 <=? getNumChannels out)%Z).
  - rewrite getSample_addFrom.
    rewrite <- (andb_assoc (ch =? 1)%Z), Hreg, andb_false_r.
    now apply Hloop.
  - now apply Hloop.
Qed.

Lemma stretched_outside (t : AudioTrack ST) (out : AudioBuffer)
    (start n ch i : Z) :
  ~ (start <= i < start + n)%Z ->
  Buffer.getSample (snd (fst (processWithSoundTouch t out start n))) ch i
  = Buffer.getSample out ch i.
Proof.
  intro Hout. unfold processWithSoundTouch.
  destruct (_ <=? 0)%Z; [reflexivity|].
  destruct (locate t) as [|cs p w]; [reflexivity|].
  destruct (_ <=? 0)%Z; [reflexivity|].
  destruct (st_receiveSamples _ _) as [[data received] st3].
  destruct (advance t p _) as [p' atEnd].
  cbv zeta. cbn [fst snd].
  destruct (0 <? received)%Z; [|reflexivity].
  now apply mixStretched_outside.
Qed.

Lemma processBlock_outside (t : AudioTrack ST) (out : AudioBuffer)
    (start n ch i : Z) :
  ~ (start <= i < start + n)%Z ->
  Buffer.getSample (snd (fst (processBlock t out start n))) ch i
  = Buffer.getSample out ch i.
Proof.
  intro Hout. unfold processBlock.
  destruct (_ || _); [reflexivity|].
  destruct (_ || _); [reflexivity|].
  destruct (_ <? _)%Z; [reflexivity|].
  destruct (Qabs _ <? 0.02).
  - now apply direct_outside.
  - now apply stretched_outside.
Qed.

(** X7.  A [processBlock] call changes no output sample outside
    [startSample, startSample + numSamples), in either playback mode
    and whatever the stretcher returns. *)
Theorem processBlock_writes_only_its_region (t : AudioTrack ST)
    (out : AudioBuffer) (start n ch i : Z) :
  ~ (start <= i < start + n)%Z ->
  Buffer.getSample (snd (fst (processBlock t out start n))) ch i
  = Buffer.getSample out ch i.
Proof.
  intro Hout. pose proof (processBlock_outside t out start n ch i Hout) as E.
  destruct (processBlock t out start n) as [[t' out'] reads].
  exact E.
Qed.

(** X8.  Direct playback adds the source, scaled by the volume, to
    what the output already holds: for every read [cs, cs + c) the
    call reports, every channel both buffers have and every frame
    [k < c] the output stores,
    [out'[ch][start + k] = out[ch][start + k]
    + source[ch][cs + k] * volume]. *)
Theorem direct_playback_adds_scaled_source (t : AudioTrack ST)
    (out : AudioBuffer) (start n cs c ch k : Z) :
  (Qabs (stretchRatio t - 1) <? 0.02) = true ->
  In (mkRead cs c) (snd (processBlock t out start n)) ->
  (0 <= ch < Z.min (getNumChannels out) (getNumChannels (audioBuffer t)))%Z ->
  (0 <= k < c)%Z ->
  (start + k < sampleCount out ch)%Z ->
  Buffer.getSample (snd (fst (processBlock t out start n))) ch (start + k)
  = Buffer.getSample out ch (start + k)
    + Buffer.getSample (audioBuffer t) ch (cs + k) * volume t.
Proof.
  intros Hmode Hin Hch Hk Hstored. revert Hin. unfold processBlock.
  rewrite Hmode.
  destruct (negb (isLoaded t) || muted t || (n <=? 0)%Z || (start <? 0)%Z)
    eqn:G; [cbn [snd In]; intros []|].
  apply orb_false_iff in G. destruct G as [_ Hstart].
  apply Z.ltb_ge in Hstart. cbv zeta.
  destruct ((getNumChannels out <=? 0)%Z
            || (getNumChannels (audioBuffer t) <=? 0)%Z
            || (getNumSamples (audioBuffer t) <=? 0)%Z);
    [cbn [snd In]; intros []|].
  destruct (getNumSamples out <? start + n)%Z; [cbn [snd In]; intros []|].
  unfold processDirectPlayback.
  destruct (_ <=? 0)%Z; [cbn [snd In]; intros []|].
  destruct (locate t) as [|cs0 p w]; [cbn [snd In]; intros []|].
  destruct (Z.leb_spec (Z.min n (loopEndSample t - cs0)) 0);
    [cbn [snd In]; intros []|].
  cbv zeta. cbn [fst snd].
  set (c0 := Z.min n (loopEndSample t - cs0)) in *.
  intro Hin.
  assert (E : mkRead cs c = mkRead cs0 c0).
  { apply in_app_or in Hin. destruct Hin as [Hin|Hin].
    - apply in_map_iff in Hin. now destruct Hin as (_ & <- & _).
    - destruct (_ && _); [|destruct Hin].
      destruct Hin as [<-|[]]. reflexivity. }
  injection E as <- <-.
  set (ctp := Z.min (getNumChannels out) (getNumChannels (audioBuffer t)))
    in *.
  assert (Hloop :
    Buffer.getSample
      (fold_left (fun b j => Buffer.addFrom b j start (audioBuffer t) j cs c
                               (volume t)) (zrange 0 ctp) out)
      ch (start + k)
    = Buffer.getSample out ch (start + k)
      + Buffer.getSample (audioBuffer t) ch (cs + k) * volume t).
  { rewrite getSample_direct_channels by apply NoDup_zrange.
    rewrite existsb_zrange.
    replace (cs + (start + k - start))%Z with (cs + k)%Z by lia.
    destruct (Z.leb_spec 0 ch), (Z.ltb_spec ch ctp),
             (Z.leb_spec start (start + k)),
             (Z.ltb_spec (start + k) (start + c)),
             (Z.leb_spec 0 (start + k)),
             (Z.ltb_spec (start + k) (sampleCount out ch));
      simpl; try reflexivity; lia. }
  destruct ((getNumChannels (audioBuffer t) =? 1)%Z
            && (2 <=? getNumChannels out)%Z) eqn:M.
  - rewrite getSample_addFrom.
    apply andb_true_iff in M. destruct M as [M1 _].
    apply Z.eqb_eq in M1.
    assert (Hne : (ch =? 1)%Z = false) by (apply Z.eqb_neq; lia).
    rewrite Hne. simpl. exact Hloop.
  - exact Hloop.
Qed.

End BlockOutput.

(** ** Looping and one-shot playback *)

Section EndOfRegion.

Context {ST : Type} `{SoundTouch ST}.

Lemma locate_finished (t : AudioTrack ST) :
  looping t = false ->
  (loopEndSample t <= to_int (currentPosition t * sampleRate t))%Z ->
  locate t = Stop.
Proof.
  intros Hl Hend. unfold locate. rewrite Hl.
  destruct (Z.leb_spec (loopEndSample t)
              (to_int (currentPosition t * sampleRate t)));
    [reflexivity | lia].
Qed.

(** One block on a one-shot track that has reached the end. *)
Lemma finished_block (t : AudioTrack ST) (out : AudioBuffer) (start n : Z) :
  looping t = false ->
  (loopEndSample t <= to_int (currentPosition t * sampleRate t))%Z ->
  let r := processBlock t out start n in
  sameSource t (fst (fst r))
  /\ currentPosition (fst (fst r)) = currentPosition t
  /\ snd (fst r) = out /\ snd r = [].
Proof.
  intros Hl Hend. pose proof (locate_finished t Hl Hend) as L.
  cbv zeta. unfold processBlock.
  destruct (negb (isLoaded t) || muted t || (n <=? 0)%Z || (start <? 0)%Z).
  { repeat split; reflexivity. }
  destruct ((getNumChannels out <=? 0)%Z
            || (getNumChannels (audioBuffer t) <=? 0)%Z
            || (getNumSamples (audioBuffer t) <=? 0)%Z).
  { repeat split; reflexivity. }
  destruct (getNumSamples out <? start + n)%Z.
  { repeat split; reflexivity. }
  destruct (Qabs (stretchRatio t - 1) <? 0.02).
  - unfold processDirectPlayback. rewrite L.
    destruct (loopEndSample t - loopStartSample t <=? 0)%Z;
      repeat split; reflexivity.
  - unfold processWithSoundTouch. rewrite L.
    destruct (loopEndSample t - loopStartSample t <=? 0)%Z;
      repeat split; reflexivity.
Qed.

(** X9.  A track that is not looping and has reached the end of its
    active region stays there: no later [processBlock] call reads a
    frame, moves the position or changes an output buffer. *)
Theorem finished_track_stays_silent (t : AudioTrack ST)
    (calls : list BlockCall) :
  looping t = false ->
  (loopEndSample t <= to_int (currentPosition t * sampleRate t))%Z ->
  let t' := fst (renderBlocks t calls) in
  snd (renderBlocks t calls) = []
  /\ currentPosition t' = currentPosition t
  /\ forall out start n, snd (fst (processBlock t' out start n)) = out.
Proof.
  revert t. induction calls as [|c rest IH]; intros t Hl Hend; cbv zeta.
  - simpl. repeat split.
    intros out start n. now apply finished_block.
  - cbn [renderBlocks].
    pose proof (finished_block t (callBuffer c) (callStart c) (callFrames c)
                  Hl Hend) as Hstep.
    cbv zeta in Hstep.
    destruct (processBlock t (callBuffer c) (callStart c) (callFrames c))
      as [[t1 out1] reads].
    cbn [fst snd] in Hstep. destruct Hstep as (Hs & Hp & _ & ->).
    destruct (sameSource_bounds t t1 Hs) as (_ & _ & Hle).
    assert (Hl1 : looping t1 = false).
    { destruct Hs as (_ & _ & _ & _ & _ & _ & _ & _ & Hlo & _). congruence. }
    assert (Hsr : sampleRate t1 = sampleRate t) by apply Hs.
    assert (Hend1 : (loopEndSample t1
                     <= to_int (currentPosition t1 * sampleRate t1))%Z).
    { now rewrite Hle, Hp, Hsr. }
    specialize (IH t1 Hl1 Hend1). cbv zeta in IH.
    destruct (renderBlocks t1 rest) as [t2 reads2].
    cbn [fst snd] in *. destruct IH as (-> & Hp2 & Hout).
    repeat split; [congruence | exact Hout].
Qed.

(** Where a looping track starts reading: always inside the region. *)
Lemma locate_looping (t : AudioTrack ST) :
  looping t = true ->
  (loopStartSample t < loopEndSample t)%Z ->
  exists cs p w, locate t = At cs p w
                 /\ (loopStartSample t <= cs < loopEndSample t)%Z.
Proof.
  intros Hl Hlen. unfold locate. rewrite Hl.
  set (cs0 := to_int (currentPosition t * sampleRate t)).
  destruct (Z.ltb_spec cs0 (loopStartSample t)) as [Hlo|Hlo].
  { eexists _, _, _. split; [reflexivity | lia]. }
  destruct (Z.leb_spec (loopEndSample t) cs0) as [Hhi|Hhi].
  - eexists _, _, _. split; [reflexivity|].
    pose proof (Z.rem_bound_pos (cs0 - loopStartSample t)
                  (loopEndSample t - loopStartSample t)). lia.
  - eexists _, _, _. split; [reflexivity | lia].
Qed.

(** X10.  A looping track never runs dry: whenever [processBlock] is
    asked for frames of an audible track whose region is not empty, it
    reads at least one frame from inside the region. *)
Theorem looping_track_always_reads (t : AudioTrack ST) (out : AudioBuffer)
    (start n : Z) :
  looping t = true -> isLoaded t = true -> muted t = false ->
  (0 < n)%Z -> (0 <= start)%Z -> (start + n <= getNumSamples out)%Z ->
  (0 < getNumChannels out)%Z -> (0 < getNumChannels (audioBuffer t))%Z ->
  (loopStartSample t < loopEndSample t)%Z ->
  exists cs c : Z,
    (0 < c)%Z /\ (loopStartSample t <= cs)%Z
    /\ (cs + c <= loopEndSample t)%Z
    /\ snd (processBlock t out start n) <> []
    /\ Forall (fun r => r = mkRead cs c) (snd (processBlock t out start n)).
Proof.
  intros Hl Hload Hmute Hn Hstart Hroom Hoc Hic Hlen.
  destruct (locate_looping t Hl Hlen) as (cs & p & w & L & Hcs).
  assert (Hne : forall k c0, (0 < k)%Z ->
            map (fun _ : Z => mkRead cs c0) (zrange 0 k) <> []).
  { intros k c0 Hk E. apply map_eq_nil in E.
    assert (Hin : In 0%Z (zrange 0 k)) by (apply in_zrange; lia).
    rewrite E in Hin. destruct Hin. }
  assert (Hall : forall k c0,
            Forall (fun r => r = mkRead cs c0)
                   (map (fun _ : Z => mkRead cs c0) (zrange 0 k))).
  { intros k c0. apply Forall_forall. intros r Hin.
    apply in_map_iff in Hin. now destruct Hin as (_ & <- & _). }
  unfold processBlock. unfold isLoaded in Hload. rewrite Hmute.
  assert (G1 : (negb (isLoaded t) || false || (n <=? 0)%Z
                || (start <? 0)%Z) = false).
  { unfold isLoaded. rewrite Hload. simpl.
    destruct (Z.leb_spec n 0), (Z.ltb_spec start 0); try reflexivity; lia. }
  rewrite G1. cbv zeta.
  apply Z.ltb_lt in Hload.
  assert (G2 : ((getNumChannels out <=? 0)%Z
                || (getNumChannels (audioBuffer t) <=? 0)%Z
                || (getNumSamples (audioBuffer t) <=? 0)%Z) = false).
  { destruct (Z.leb_spec (getNumChannels out) 0),
             (Z.leb_spec (getNumChannels (audioBuffer t)) 0),
             (Z.leb_spec (getNumSamples (audioBuffer t)) 0);
      try reflexivity; lia. }
  rewrite G2.
  assert (G3 : (getNumSamples out <? start + n)%Z = false)
    by (apply Z.ltb_ge; lia).
  rewrite G3.
  assert (G4 : (loopEndSample t - loopStartSample t <=? 0)%Z = false)
    by (apply Z.leb_gt; lia).
  destruct (Qabs (stretchRatio t - 1) <? 0.02).
  - exists cs, (Z.min n (loopEndSample t - cs)).
    unfold processDirectPlayback. rewrite G4, L.
    assert (G5 : (Z.min n (loopEndSample t - cs) <=? 0)%Z = false)
      by (apply Z.leb_gt; lia).
    rewrite G5. cbv zeta. cbn [fst snd].
    repeat split; try lia.
    + intro E. apply app_eq_nil in E. destruct E as [E _].
      revert E. apply Hne. lia.
    + apply Forall_app. split; [apply Hall|].
      destruct (_ && _); repeat constructor.
  - exists cs, (Z.min (n * 2) (loopEndSample t - cs)).
    unfold processWithSoundTouch. rewrite G4, L.
    assert (G5 : (Z.min (n * 2) (loopEndSample t - cs) <=? 0)%Z = false)
      by (apply Z.leb_gt; lia).
    rewrite G5. cbv zeta.
    destruct (st_receiveSamples _ _) as [[data received] st3].
    destruct (advance t p _) as [p' atEnd].
    cbn [fst snd].
    repeat split; try lia.
    + apply Hne. lia.
    + apply Hall.
Qed.

End EndOfRegion.

(** ** The stretched path: what goes into the stretcher and how its
    output is mixed *)

Lemma length_zrange (lo hi : Z) : length (zrange lo hi) = Z.to_nat (hi - lo).
Proof. unfold zrange. now rewrite length_map, length_seq. Qed.

Lemma nth_zrange (lo hi d : Z) (k : nat) :
  (k < Z.to_nat (hi - lo))%nat ->
  nth k (zrange lo hi) d = (lo + Z.of_nat k)%Z.
Proof.
  intro Hk. unfold zrange.
  rewrite (nth_indep _ d (lo + Z.of_nat 0)%Z)
    by now rewrite length_map, length_seq.
  rewrite (map_nth (fun j => (lo + Z.of_nat j)%Z)), seq_nth by exact Hk.
  reflexivity.
Qed.

(** Reading element [k] of a list built over [0 .. n). *)
Lemma nth_map_zrange {A : Type} (f : Z -> A) (n k : Z) (d : A) :
  (0 <= k < n)%Z -> nth (Z.to_nat k) (map f (zrange 0 n)) d = f k.
Proof.
  intro Hk.
  rewrite (nth_indep _ d (f 0%Z)) by (rewrite length_map, length_zrange; lia).
  rewrite (map_nth f), (nth_zrange 0 n 0%Z) by lia. f_equal. lia.
Qed.

Lemma at_map_zrange (f : Z -> Q) (n k : Z) :
  (0 <= k < n)%Z -> at_ (map f (zrange 0 n)) k = f k.
Proof.
  intro Hk. unfold at_.
  destruct (Z.ltb_spec k 0); [lia|]. now apply nth_map_zrange.
Qed.

(** Element [i * m + c] of a concatenation of blocks of length [m]. *)
Lemma nth_flat_map_blocks {A : Type} (f : A -> list Q) (m : nat)
    (l : list A) (i c : nat) (da : A) :
  (forall x, length (f x) = m) ->
  (i < length l)%nat -> (c < m)%nat ->
  nth (i * m + c) (flat_map f l) 0 = nth c (f (nth i l da)) 0.
Proof.
  intros Hm. revert i. induction l as [|x l IH]; intros i Hi Hc.
  - simpl in Hi. lia.
  - simpl flat_map. destruct i as [|i].
    + simpl. rewrite app_nth1 by (rewrite Hm; exact Hc). reflexivity.
    + rewrite app_nth2 by (rewrite Hm; simpl; lia).
      rewrite Hm. replace (S i * m + c - m)%nat with (i * m + c)%nat
        by (simpl; lia).
      simpl in Hi. apply IH; [lia | exact Hc].
Qed.

Lemma length_flat_map_blocks {A : Type} (f : A -> list Q) (m : nat)
    (l : list A) :
  (forall x, length (f x) = m) ->
  length (flat_map f l) = (length l * m)%nat.
Proof.
  intro Hm. induction l as [|x l IH]; simpl; [reflexivity|].
  now rewrite length_app, Hm, IH.
Qed.

Section StretchedPath.

Context {ST : Type} `{SoundTouch ST}.

(** X11.  The stretcher is fed whole frames, channel after channel:
    sample [k * channels + ch] of the input handed to [putSamples] is
    frame [currentSample + k] of channel [ch] of the clip, and the
    input holds [samplesToRead * channels] samples. *)
Theorem stretchInput_interleaves_frames (t : AudioTrack ST)
    (cs c k ch : Z) :
  (0 <= k < c)%Z -> (0 <= ch < getNumChannels (audioBuffer t))%Z ->
  length (stretchInput t cs c)
  = Z.to_nat (c * getNumChannels (audioBuffer t))
  /\ at_ (stretchInput t cs c) (k * getNumChannels (audioBuffer t) + ch)
     = Buffer.getSample (audioBuffer t) ch (cs + k).
Proof.
  intros Hk Hch. unfold stretchInput.
  set (nCh := getNumChannels (audioBuffer t)) in *.
  set (input := mkBuffer nCh c
                  (map (fun ch0 => Buffer.slice (audioBuffer t) ch0 cs c)
                       (zrange 0 nCh))).
  assert (Hchan : forall ch0, (0 <= ch0 < nCh)%Z ->
            Buffer.channel input ch0 = Buffer.slice (audioBuffer t) ch0 cs c).
  { intros ch0 H0. unfold Buffer.channel, input. cbn [channelData].
    destruct (Z.ltb_spec ch0 0); [lia|].
    now apply (nth_map_zrange
                 (fun ch1 => Buffer.slice (audioBuffer t) ch1 cs c)). }
  assert (Hsample : forall ch0 k0, (0 <= ch0 < nCh)%Z -> (0 <= k0 < c)%Z ->
            Buffer.getSample input ch0 k0
            = Buffer.getSample (audioBuffer t) ch0 (cs + k0)).
  { intros ch0 k0 H0 H1. unfold Buffer.getSample at 1.
    rewrite Hchan by exact H0. unfold Buffer.slice.
    now apply (at_map_zrange
                 (fun k1 => Buffer.getSample (audioBuffer t) ch0 (cs + k1))). }
  destruct (Z.eqb_spec nCh 1) as [E1|E1].
  - assert (ch = 0)%Z by lia. subst ch.
    rewrite Hchan by lia. split.
    + unfold Buffer.slice. rewrite length_map, length_zrange. f_equal. lia.
    + replace (k * nCh + 0)%Z with k by lia.
      unfold Buffer.slice.
      now apply (at_map_zrange
                   (fun k1 => Buffer.getSample (audioBuffer t) 0 (cs + k1))).
  - set (frame := fun sample =>
                    map (fun ch0 => Buffer.getSample input ch0 sample)
                        (zrange 0 nCh)).
    assert (Hlen : forall x, length (frame x) = Z.to_nat nCh).
    { intro x. unfold frame. rewrite length_map, length_zrange.
      f_equal. lia. }
    split.
    + rewrite (length_flat_map_blocks frame (Z.to_nat nCh)) by exact Hlen.
      rewrite length_zrange. lia.
    + unfold at_. destruct (Z.ltb_spec (k * nCh + ch) 0); [nia|].
      replace (Z.to_nat (k * nCh + ch))
        with (Z.to_nat k * Z.to_nat nCh + Z.to_nat ch)%nat by nia.
      rewrite (nth_flat_map_blocks frame (Z.to_nat nCh) _ _ _ 0%Z)
        by (try exact Hlen; rewrite ?length_zrange; lia).
      rewrite nth_zrange by lia. unfold frame.
      rewrite (nth_map_zrange
                 (fun ch0 => Buffer.getSample input ch0
                               (0 + Z.of_nat (Z.to_nat k)))) by lia.
      replace (0 + Z.of_nat (Z.to_nat k))%Z with k by lia.
      now apply Hsample.
Qed.

(** One frame of the channel loop of the mixing. *)
Lemma getSample_frame_channels (stretched : AudioBuffer)
    (inCh start i : Z) (vol : Q) (chs : list Z) (b : AudioBuffer)
    (ch j : Z) :
  NoDup chs ->
  Buffer.getSample
    (fold_left
       (fun b0 c => Buffer.addSample b0 c (start + i)
                      (Buffer.getSample stretched 0 (i * inCh + c) * vol))
       chs b) ch j
  = if (existsb (Z.eqb ch) chs && (j =? start + i) && (0 <=? j)
        && (j <? sampleCount b ch))%Z
    then Buffer.getSample b ch j
         + Buffer.getSample stretched 0 (i * inCh + ch) * vol
    else Buffer.getSample b ch j.
Proof.
  revert b. induction chs as [|c chs IH]; intros b Hnd; simpl.
  - reflexivity.
  - inversion Hnd as [|? ? Hc Hnd']; subst.
    rewrite (IH _ Hnd'), sampleCount_addSample, getSample_addSample.
    destruct (Z.eqb_spec ch c) as [->|Hne]; simpl.
    + assert (Hnot : existsb (Z.eqb c) chs = false).
      { destruct (existsb _ chs) eqn:E; [|reflexivity].
        apply existsb_exists in E. destruct E as (k0 & Hin & Heq).
        apply Z.eqb_eq in Heq. subst. contradiction. }
      rewrite Hnot. simpl.
      destruct (Z.eqb_spec j (start + i)) as [E|E]; [rewrite E|];
        reflexivity.
    + destruct (existsb (Z.eqb ch) chs); reflexivity.
Qed.

Lemma sampleCount_fold (f : AudioBuffer -> Z -> AudioBuffer)
    (xs : list Z) (b : AudioBuffer) (ch : Z) :
  (forall b0 x, sampleCount (f b0 x) ch = sampleCount b0 ch) ->
  sampleCount (fold_left f xs b) ch = sampleCount b ch.
Proof.
  intro Hf.
  apply (fold_left_keeps (fun b0 => sampleCount b0 ch = sampleCount b ch));
    [reflexivity|].
  intros b0 x _ Hb. now rewrite Hf.
Qed.

(** A loop over frames whose body adds [v ch i] to sample [start + i]
    of the channels selected by [cond]. *)
Lemma getSample_frames (step : AudioBuffer -> Z -> AudioBuffer)
    (cond : Z -> bool) (v : Z -> Z -> Q) (start : Z) :
  (forall b i ch j,
     Buffer.getSample (step b i) ch j
     = if (cond ch && (j =? start + i) && (0 <=? j)
           && (j <? sampleCount b ch))%Z
       then Buffer.getSample b ch j + v ch i
       else Buffer.getSample b ch j) ->
  (forall b i ch, sampleCount (step b i) ch = sampleCount b ch) ->
  forall (frames : list Z) (out : AudioBuffer) (ch i : Z),
    NoDup frames -> In i frames ->
    cond ch = true -> (0 <= start + i < sampleCount out ch)%Z ->
    Buffer.getSample (fold_left step frames out) ch (start + i)
    = Buffer.getSample out ch (start + i) + v ch i.
Proof.
  intros Hstep Hcount frames.
  assert (Hkeep : forall fs out ch i,
            ~ In i fs ->
            Buffer.getSample (fold_left step fs out) ch (start + i)
            = Buffer.getSample out ch (start + i)).
  { induction fs as [|f fs IH]; intros out ch i Hni; simpl; [reflexivity|].
    rewrite IH by (intro; apply Hni; now right).
    rewrite Hstep.
    assert (Hne : (start + i =? start + f)%Z = false).
    { apply Z.eqb_neq. intro E. apply Hni. left. lia. }
    now rewrite Hne, andb_false_r. }
  induction frames as [|f frames IH]; intros out ch i Hnd Hin Hc Hst.
  - destruct Hin.
  - inversion Hnd as [|? ? Hf Hnd']; subst. simpl.
    destruct Hin as [->|Hin].
    + rewrite Hkeep by exact Hf. rewrite Hstep, Hc, Z.eqb_refl.
      destruct (Z.leb_spec 0 (start + i)),
               (Z.ltb_spec (start + i) (sampleCount out ch));
        try reflexivity; lia.
    + rewrite IH; try assumption; [|now rewrite Hcount].
      rewrite Hstep.
      assert (Hne : (start + i =? start + f)%Z = false).
      { apply Z.eqb_neq. intro E. apply Hf.
        replace f with i by lia. exact Hin. }
      now rewrite Hne, andb_false_r.
Qed.

(** X12.  The frames the stretcher returned are mixed in frame by
    frame: output sample [startSample + i] of channel [ch] gains
    sample [i * channels + ch] of the received data, scaled by the
    volume, for every frame [i] below both [receivedSamples] and
    [numSamples]. *)
Theorem mixStretched_adds_received_frames (t : AudioTrack ST)
    (stretched out : AudioBuffer) (start n received ch i : Z) :
  (0 <= i < Z.min received n)%Z ->
  (0 <= ch < Z.min (getNumChannels out)
                   (getNumChannels (audioBuffer t)))%Z ->
  (0 <= start)%Z -> (start + i < sampleCount out ch)%Z ->
  Buffer.getSample (mixStretched t stretched out start n received)
                   ch (start + i)
  = Buffer.getSample out ch (start + i)
    + Buffer.getSample stretched 0
        (i * getNumChannels (audioBuffer t) + ch) * volume t.
Proof.
  intros Hi Hch Hstart Hst. unfold mixStretched.
  set (inCh := getNumChannels (audioBuffer t)) in *.
  set (outCh := getNumChannels out) in *.
  assert (Hin : In i (zrange 0 (Z.min received n)))
    by (apply in_zrange; lia).
  destruct (Z.eqb_spec inCh 1) as [E1|E1].
  - assert (ch = 0)%Z by lia. subst ch.
    replace (i * inCh + 0)%Z with i by lia.
    apply (getSample_frames
             (fun b i0 =>
                let sample := Buffer.getSample stretched 0 i0 in
                let b1 := Buffer.addSample b 0 (start + i0)
                            (sample * volume t) in
                if (2 <=? outCh)%Z
                then Buffer.addSample b1 1 (start + i0) (sample * volume t)
                else b1)
             (fun c => (c =? 0)%Z || ((c =? 1)%Z && (2 <=? outCh)%Z))
             (fun c i0 => Buffer.getSample stretched 0 i0 * volume t));
      try assumption; try reflexivity; try apply NoDup_zrange; try lia.
    + intros b i0 c j. cbv zeta.
      destruct (2 <=? outCh)%Z;
        rewrite ?getSample_addSample, ?sampleCount_addSample.
      * destruct (Z.eqb_spec c 0) as [->|H0]; simpl.
        { destruct (Z.eqb_spec j (start + i0)) as [E|E]; [rewrite E|];
            reflexivity. }
        destruct (Z.eqb_spec c 1) as [->|H1]; simpl; [|reflexivity].
        destruct (Z.eqb_spec j (start + i0)) as [E|E]; [rewrite E|];
          reflexivity.
      * rewrite andb_false_r, orb_false_r.
        destruct (Z.eqb_spec c 0) as [->|H0]; simpl; [|reflexivity].
        destruct (Z.eqb_spec j (start + i0)) as [E|E]; [rewrite E|];
          reflexivity.
    + intros b i0 c. cbv zeta.
      destruct (2 <=? outCh)%Z; now rewrite ?sampleCount_addSample.
  - apply (getSample_frames
             (fun b i0 =>
                fold_left
                  (fun b0 c =>
                     let sample :=
                       Buffer.getSample stretched 0 (i0 * inCh + c) in
                     Buffer.addSample b0 c (start + i0) (sample * volume t))
                  (zrange 0 (Z.min outCh inCh)) b)
             (fun c => existsb (Z.eqb c) (zrange 0 (Z.min outCh inCh)))
             (fun c i0 =>
                Buffer.getSample stretched 0 (i0 * inCh + c) * volume t));
      try assumption; try apply NoDup_zrange; try lia.
    + intros b i0 c j. cbv zeta.
      now rewrite getSample_frame_channels by apply NoDup_zrange.
    + intros b i0 c. apply sampleCount_fold.
      intros b0 x. apply sampleCount_addSample.
    + rewrite existsb_zrange.
      destruct (Z.leb_spec 0 ch), (Z.ltb_spec ch (Z.min outCh inCh));
        try reflexivity; lia.
Qed.

End StretchedPath.

(** ** BPM estimation: the octave loops, the fallback estimators and
    the peak display *)

Module Estimation.

Import BPM BPMFacts.


Lemma doubleWhileSlow_pow (fuel : nat) (bpm : Q) :
  exists k : nat, doubleWhileSlow fuel bpm == bpm * pow2 k.
Proof.
  revert bpm. induction fuel as [|f IH]; intro bpm; simpl.
  - exists O. rewrite pow2_0. ring.
  - destruct (_ && _).
    + destruct (IH (bpm * 2)) as [k Hk]. exists (S k).
      rewrite Hk, pow2_S. ring.
    + exists O. rewrite pow2_0. ring.
Qed.

Lemma halveWhileFast_pow (fuel : nat) (bpm : Q) :
  exists k : nat, halveWhileFast fuel bpm * pow2 k == bpm.
Proof.
  revert bpm. induction fuel as [|f IH]; intro bpm; simpl.
  - exists O. rewrite pow2_0. ring.
  - destruct (180 <? bpm).
    + destruct (IH (bpm / 2)) as [k Hk]. exists (S k).
      rewrite pow2_S.
      setoid_replace (halveWhileFast f (bpm / 2) * (2 * pow2 k))
        with (2 * (halveWhileFast f (bpm / 2) * pow2 k)) by ring.
      rewrite Hk. field.
    + exists O. rewrite pow2_0. ring.
Qed.

Lemma doubleWhileSlow_fixed (fuel : nat) (bpm : Q) :
  70 <= bpm -> doubleWhileSlow fuel bpm = bpm.
Proof.
  intro Hb. destruct fuel as [|f]; simpl; [reflexivity|].
  destruct (ltb_reflect bpm 70); [lra | reflexivity].
Qed.

Lemma halveWhileFast_fixed (fuel : nat) (bpm : Q) :
  bpm <= 180 -> halveWhileFast fuel bpm = bpm.
Proof.
  intro Hb. destruct fuel as [|f]; simpl; [reflexivity|].
  destruct (ltb_reflect 180 bpm); [lra | reflexivity].
Qed.

(** X13.  The octave correction of both estimators only changes the
    octave: for a positive tempo the result lies in [70, 180], differs
    from the input by a power of two, and is the input itself when
    that is already in [70, 180]. *)
Theorem octaveCorrection_changes_octave_only (bpm : Q) :
  0 < bpm ->
  70 <= octaveCorrection bpm <= 180
  /\ (exists up down : nat,
        octaveCorrection bpm * pow2 down == bpm * pow2 up)
  /\ (70 <= bpm <= 180 -> octaveCorrection bpm = bpm).
Proof.
  intro Hpos. split; [now apply octaveCorrection_range|]. split.
  - unfold octaveCorrection.
    destruct (doubleWhileSlow_pow (fuelUp bpm) bpm) as [up Hup].
    destruct (halveWhileFast_pow
                (fuelDown (doubleWhileSlow (fuelUp bpm) bpm))
                (doubleWhileSlow (fuelUp bpm) bpm)) as [down Hdown].
    exists up, down. now rewrite Hdown.
  - intros [Hlo Hhi]. unfold octaveCorrection.
    rewrite (doubleWhileSlow_fixed _ bpm Hlo).
    now apply halveWhileFast_fixed.
Qed.

Lemma followers_le (x : Q) (l : list Q) :
  (followers x l <= Z.of_nat (length l))%Z.
Proof.
  induction l as [|y l IH]; cbn [followers length]; [lia|].
  rewrite Nat2Z.inj_succ.
  destruct (Qabs (y - x) <=? tolerance); lia.
Qed.

Lemma followers_all (x : Q) (l : list Q) :
  Forall (fun y => y == x) l -> followers x l = Z.of_nat (length l).
Proof.
  induction 1 as [|y l Hy _ IH]; cbn [followers length]; [reflexivity|].
  assert (Hnear : Qabs (y - x) <= tolerance).
  { apply Qabs_Qle_condition. unfold tolerance. rewrite Hy. lra. }
  destruct (leb_reflect (Qabs (y - x)) tolerance); [|contradiction].
  rewrite IH, Nat2Z.inj_succ. lia.
Qed.

(** Once the best count covers the rest of the list, no later interval
    replaces the best one. *)
Lemma histogram_keeps (l : list Q) (best : Q) (maxCount : Z) :
  (Z.of_nat (length l) <= maxCount)%Z ->
  fst (histogram l best maxCount) = best.
Proof.
  revert best maxCount. induction l as [|x l IH]; intros best maxCount Hc.
  - reflexivity.
  - cbn [histogram]. pose proof (followers_le x l) as Hf.
    cbn [length] in Hc. rewrite Nat2Z.inj_succ in Hc.
    destruct (Z.ltb_spec maxCount (1 + followers x l)); [lia|].
    apply IH. lia.
Qed.

Lemma beatIntervals_even (d : Q) (l : list Q) :
  0.1 < d -> d < 2 -> evenlySpaced d l ->
  Forall (fun y => y == d) (beatIntervals l)
  /\ length (beatIntervals l) = pred (length l).
Proof.
  intros Hlo Hhi. induction l as [|a l IH]; intro He.
  - split; [constructor | reflexivity].
  - destruct l as [|b l].
    + split; [constructor | reflexivity].
    + destruct He as [Hd He]. specialize (IH He).
      change (beatIntervals (a :: b :: l))
        with (if (0.1 <? b - a) && (b - a <? 2)
              then (b - a) :: beatIntervals (b :: l)
              else beatIntervals (b :: l)).
      destruct (ltb_reflect 0.1 (b - a)) as [_|Hbad];
        [|rewrite Hd in Hbad; lra].
      destruct (ltb_reflect (b - a) 2) as [_|Hbad];
        [|rewrite Hd in Hbad; lra].
      cbn [andb]. destruct IH as [IHall IHlen]. split.
      * constructor; assumption.
      * cbn [length]. rewrite IHlen. reflexivity.
Qed.

(** X14.  A regular click train is recognised exactly: at least four
    onsets spaced by a constant [d] with [60 / d] inside [70, 180]
    give the tempo [60 / d]. *)
Theorem findBestBPMCandidate_regular_train (d : Q) (onsetTimes : list Q) :
  (4 <= length onsetTimes)%nat ->
  evenlySpaced d onsetTimes ->
  1 # 3 <= d -> d <= 6 # 7 ->
  findBestBPMCandidate onsetTimes == 60 / d.
Proof.
  intros Hlen He Hlo Hhi. unfold findBestBPMCandidate.
  destruct (Nat.ltb_spec (length onsetTimes) 4); [lia|].
  destruct (beatIntervals_even d onsetTimes) as [Hall Hcount];
    [lra | lra | exact He |].
  destruct (beatIntervals onsetTimes) as [|i0 rest] eqn:Ei.
  { simpl in Hcount. lia. }
  assert (Hsorted : Forall (fun y => y == d) (sort (i0 :: rest))).
  { apply Forall_forall. intros y Hy.
    apply (Permutation_in _ (sort_perm (i0 :: rest))) in Hy.
    revert y Hy. now apply Forall_forall. }
  destruct (sort (i0 :: rest)) as [|x0 xs] eqn:Es.
  { pose proof (Permutation_length (sort_perm (i0 :: rest))) as Hl.
    rewrite Es in Hl. discriminate. }
  inversion Hsorted as [|? ? Hx0 Hxs]; subst.
  assert (Hbest : fst (histogram (x0 :: xs) 0 0) = x0).
  { cbn [histogram]. rewrite followers_all.
    - destruct (Z.ltb_spec 0 (1 + Z.of_nat (length xs))); [|lia].
      apply histogram_keeps. lia.
    - apply Forall_forall. intros y Hy.
      rewrite Forall_forall in Hxs. rewrite (Hxs y Hy). now symmetry. }
  rewrite Hbest.
  destruct (ltb_reflect 0 x0) as [Hpos|Hneg]; [|rewrite Hx0 in Hneg; lra].
  assert (Hd : 0 < d) by lra.
  assert (Hrange : 70 <= 60 / x0 <= 180).
  { rewrite Hx0. split.
    - apply Qle_shift_div_l; [exact Hd | lra].
    - apply Qle_shift_div_r; [exact Hd | lra]. }
  unfold octaveCorrection.
  rewrite (doubleWhileSlow_fixed _ _ (proj1 Hrange)).
  rewrite (halveWhileFast_fixed _ _ (proj2 Hrange)).
  now rewrite Hx0.
Qed.

Section Fallbacks.

Context {ST : Type} `{SoundTouch ST}.

(** X15.  The duration-based estimator answers 120 or a tempo that
    makes the clip 4, 8, 16 or 32 beats long, and always stays inside
    [60, 200]. *)
Theorem detectBPMImproved_whole_beats (t : AudioTrack ST) :
  60 <= detectBPMImproved t <= 200
  /\ (detectBPMImproved t = 120
      \/ exists beats : Z,
           In beats [4; 8; 16; 32]%Z
           /\ detectBPMImproved t
              = inject_Z beats * 60 / getDurationInSeconds t).
Proof.
  unfold detectBPMImproved.
  destruct (_ || _); [split; [lra | now left]|].
  cbv zeta.
  assert (Hcand : forall bpm,
            In bpm (possibleBPMs (getDurationInSeconds t)) ->
            60 <= bpm <= 200
            /\ exists beats : Z,
                 In beats [4; 8; 16; 32]%Z
                 /\ bpm = inject_Z beats * 60 / getDurationInSeconds t).
  { intros bpm Hin. unfold possibleBPMs in Hin.
    apply filter_In in Hin. destruct Hin as [Hin Hok].
    apply andb_true_iff in Hok. destruct Hok as [Hlo Hhi].
    apply leb_le in Hlo. apply leb_le in Hhi. split; [lra|].
    apply in_map_iff in Hin. destruct Hin as (beats & <- & Hb).
    now exists beats. }
  destruct (possibleBPMs (getDurationInSeconds t)) as [|c0 cs] eqn:Ec.
  { split; [lra | now left]. }
  destruct (find _ (c0 :: cs)) as [bpm|] eqn:Ef.
  - apply find_some in Ef. destruct Ef as [Hin _].
    destruct (Hcand bpm Hin) as [Hr Hb]. split; [exact Hr | now right].
  - destruct (Hcand c0 (or_introl eq_refl)) as [Hr Hb].
    split; [exact Hr | now right].
Qed.




(** The largest element of a [jmax] loop dominates its start value
    and everything it visits. *)
Lemma jmax_fold_ge (g : Z -> Q) (xs : list Z) (m : Q) :
  m <= fold_left (fun a x => jmax a (g x)) xs m
  /\ forall x, In x xs -> g x <= fold_left (fun a x => jmax a (g x)) xs m.
Proof.
  revert m. induction xs as [|y xs IH]; intro m; simpl.
  - split; [lra | intros x []].
  - destruct (IH (jmax m (g y))) as [Hm Hx].
    assert (Hj : m <= jmax m (g y) /\ g y <= jmax m (g y)).
    { unfold jmax. destruct (ltb_reflect m (g y)); lra. }
    split; [lra|]. intros x [<-|Hin]; [lra | now apply Hx].
Qed.

Lemma jmax_nested_ge (g : Z -> Z -> Q) (chs xs : list Z) (m : Q) :
  m <= fold_left
         (fun a ch => fold_left (fun a x => jmax a (g ch x)) xs a) chs m
  /\ forall ch x, In ch chs -> In x xs ->
       g ch x <= fold_left
                   (fun a ch => fold_left (fun a x => jmax a (g ch x)) xs a)
                   chs m.
Proof.
  revert m. induction chs as [|c chs IH]; intro m; simpl.
  - split; [lra | intros ch x []].
  - destruct (IH (fold_left (fun a x => jmax a (g c x)) xs m)) as [Hm Hx].
    destruct (jmax_fold_ge (g c) xs m) as [Hm0 Hx0].
    split; [lra|]. intros ch x [<-|Hin] Hxin.
    + specialize (Hx0 x Hxin). lra.
    + now apply Hx.
Qed.

(** X17.  The waveform display never understates the signal: with
    [samplesPerPeak = max (1, (int) (sampleRate / 100))], there is one
    peak per started window of [samplesPerPeak] frames, no peak is
    negative, and every sample of every channel is at most the peak of
    its window in absolute value. *)
Theorem waveform_peaks_dominate_samples (t : AudioTrack ST) (ch s : Z) :
  let samplesPerPeak := Z.max 1 (to_int (sampleRate t / 100)) in
  (0 <= ch < getNumChannels (audioBuffer t))%Z ->
  (0 <= s < getNumSamples (audioBuffer t))%Z ->
  Z.of_nat (length (generateWaveformPeaks t))
  = ((getNumSamples (audioBuffer t) + samplesPerPeak - 1) / samplesPerPeak)%Z
  /\ Forall (fun p => 0 <= p) (generateWaveformPeaks t)
  /\ Qabs (Buffer.getSample (audioBuffer t) ch s)
     <= at_ (generateWaveformPeaks t) (s / samplesPerPeak).
Proof.
  intros spp Hch Hs. unfold generateWaveformPeaks.
  destruct (Z.eqb_spec (getNumSamples (audioBuffer t)) 0) as [E0|E0];
    [lia|].
  cbv zeta. fold spp.
  set (n := getNumSamples (audioBuffer t)) in *.
  assert (Hspp : (1 <= spp)%Z) by (unfold spp; lia).
  rewrite Z.quot_div_nonneg by lia.
  set (numPeaks := ((n + spp - 1) / spp)%Z).
  assert (Hdiv : (0 <= s / spp < numPeaks)%Z).
  { split; [apply Z.div_pos; lia|]. unfold numPeaks.
    apply Z.div_lt_upper_bound; [lia|].
    pose proof (Z.mul_succ_div_gt (n + spp - 1) spp ltac:(lia)). nia. }
  split; [|split].
  - rewrite length_map, length_zrange. lia.
  - apply Forall_forall. intros p Hp. apply in_map_iff in Hp.
    destruct Hp as (k & <- & _).
    apply (jmax_nested_ge
             (fun c x => Qabs (Buffer.getSample (audioBuffer t) c x))).
  - rewrite (at_map_zrange
               (fun peakIndex =>
                  fold_left
                    (fun maxPeak channel =>
                       fold_left
                         (fun maxPeak0 sample =>
                            jmax maxPeak0
                              (Qabs (Buffer.getSample (audioBuffer t)
                                       channel sample)))
                         (zrange (peakIndex * spp)
                                 (Z.min (peakIndex * spp + spp) n))
                         maxPeak)
                    (zrange 0 (getNumChannels (audioBuffer t))) 0))
      by exact Hdiv.
    apply (jmax_nested_ge
             (fun c x => Qabs (Buffer.getSample (audioBuffer t) c x))).
    + apply in_zrange. lia.
    + apply in_zrange.
      pose proof (Z.mul_div_le s spp ltac:(lia)).
      pose proof (Z.mul_succ_div_gt s spp ltac:(lia)). nia.
Qed.









End Fallbacks.

End Estimation.

(** ** The session: mixing, tempo and the events it reacts to *)

Section SessionFacts.

Context {ST : Type} `{SoundTouch ST} `{LibM}.

Lemma processBlock_sameSource (t : AudioTrack ST) (out : AudioBuffer)
    (start n : Z) :
  sameSource t (fst (fst (processBlock t out start n))).
Proof.
  pose proof (processBlock_outcome t out start n) as Ho.
  destruct (processBlock t out start n) as [[t' out'] reads].
  apply Ho.
Qed.

(** The track loop of the callback, track by track. *)
Lemma renderTracks_spec (hasSolo : bool) (ts : list (AudioTrack ST))
    (out : AudioBuffer) (start n : Z) :
  let r := renderTracks hasSolo ts out start n in
  length (fst r) = length ts
  /\ (forall i t, nth_error ts i = Some t ->
        exists t', nth_error (fst r) i = Some t'
                   /\ sameSource t t'
                   /\ (skipped hasSolo t = true -> t' = t))
  /\ (forall ch j, ~ (start <= j < start + n)%Z ->
        Buffer.getSample (snd r) ch j = Buffer.getSample out ch j)
  /\ (Forall (fun t => skipped hasSolo t = true) ts -> snd r = out).
Proof.
  revert out. induction ts as [|t ts IH]; intro out; cbv zeta.
  - simpl. repeat split; auto. intros [|i] t0 Hi; discriminate.
  - cbn [renderTracks].
    set (step := if isLoaded t
                 then if muted t || hasSolo && negb (solo t)
                      then (t, out)
                      else fst (processBlock t out start n)
                 else (t, out)).
    assert (Hstep : sameSource t (fst step)
                    /\ (skipped hasSolo t = true -> step = (t, out))
                    /\ (forall ch j, ~ (start <= j < start + n)%Z ->
                          Buffer.getSample (snd step) ch j
                          = Buffer.getSample out ch j)).
    { unfold step, skipped. destruct (isLoaded t); simpl.
      - destruct (muted t || hasSolo && negb (solo t)); simpl.
        + repeat split; auto; apply sameSource_refl.
        + split; [apply processBlock_sameSource|].
          split; [discriminate|].
          intros ch j Hj. now apply processBlock_outside.
      - repeat split; auto; apply sameSource_refl. }
    destruct step as [t' out'] eqn:Es. cbn [fst snd] in Hstep.
    destruct Hstep as (Hs & Hskip & Hout).
    specialize (IH out'). cbv zeta in IH.
    destruct (renderTracks hasSolo ts out' start n) as [r' out''].
    cbn [fst snd] in *. destruct IH as (Hlen & Hnth & Hkeep & Hall).
    split; [simpl; now rewrite Hlen|]. split; [|split].
    + intros [|i] t0 Hi; simpl in Hi.
      * injection Hi as <-. exists t'. simpl.
        split; [reflexivity|]. split; [exact Hs|].
        intro Hsk. specialize (Hskip Hsk). congruence.
      * simpl. now apply Hnth.
    + intros ch j Hj. now rewrite Hkeep, Hout.
    + intro Hf. inversion Hf as [|? ? Ht Hts]; subst.
      specialize (Hskip Ht). injection Hskip as _ ->. now apply Hall.
Qed.

(** The metronome leaves the tracks, the tempo and the transport state
    alone, and writes only frames [0, nSamples) of channels 0 and 1. *)
Lemma processMetronome_keeps (m : MainComponent ST) (out : AudioBuffer)
    (n : Z) :
  let r := processMetronome m out n in
  audioTracks (fst r) = audioTracks m
  /\ masterTempo (fst r) = masterTempo m
  /\ (forall ch j, ~ (0 <= j < n)%Z \/ ~ (0 <= ch < 2)%Z ->
        Buffer.getSample (snd r) ch j = Buffer.getSample out ch j).
Proof.
  cbv zeta. unfold processMetronome.
  destruct (_ || _); [repeat split; reflexivity|].
  match goal with
  | |- context [fold_left ?f ?xs ?a] =>
      assert (Hfold : forall ch j,
                ~ (0 <= j < n)%Z \/ ~ (0 <= ch < 2)%Z ->
                Buffer.getSample (snd (fold_left f xs a)) ch j
                = Buffer.getSample out ch j)
  end.
  { intros ch j Hj.
    apply (fold_left_keeps
             (fun st : Q * Q * AudioBuffer =>
                Buffer.getSample (snd st) ch j = Buffer.getSample out ch j));
      [reflexivity|].
    intros [[lastBeat phase] b] sample Hin Hb. apply in_zrange in Hin.
    cbn [snd] in Hb.
    destruct (_ <=? _); cbn [snd].
    - assert (Hcase : (ch =? 0)%Z && (j =? sample)%Z = false
                      /\ (ch =? 1)%Z && (j =? sample)%Z = false).
      { destruct (Z.eqb_spec ch 0), (Z.eqb_spec ch 1),
                 (Z.eqb_spec j sample); simpl; split; try reflexivity; lia. }
      destruct Hcase as [Hc0 Hc1].
      destruct (1 <=? getNumChannels b)%Z;
        destruct (2 <=? getNumChannels _)%Z;
        rewrite ?getSample_addSample, ?Hc0, ?Hc1; simpl;
        rewrite ?getSample_addSample, ?Hc0, ?Hc1; simpl; exact Hb.
    - assert (Hcase : (ch =? 0)%Z && (j =? sample)%Z = false
                      /\ (ch =? 1)%Z && (j =? sample)%Z = false).
      { destruct (Z.eqb_spec ch 0), (Z.eqb_spec ch 1),
                 (Z.eqb_spec j sample); simpl; split; try reflexivity; lia. }
      destruct Hcase as [Hc0 Hc1].
      destruct (1 <=? getNumChannels b)%Z;
        destruct (2 <=? getNumChannels _)%Z;
        rewrite ?getSample_addSample, ?Hc0, ?Hc1; simpl;
        rewrite ?getSample_addSample, ?Hc0, ?Hc1; simpl; exact Hb. }
  destruct (fold_left _ _ _) as [[lastBeat phase] out1].
  cbn [fst snd] in *. repeat split; try reflexivity. exact Hfold.
Qed.

(** X19.  Muted tracks, and tracks left out by another track's solo,
    are frozen by the callback: it returns them exactly as they were,
    position and stretcher included. *)
Theorem passed_by_tracks_are_frozen (m : MainComponent ST)
    (bufferToFill : AudioSourceChannelInfo) (i : nat) (t : AudioTrack ST) :
  nth_error (audioTracks m) i = Some t ->
  skipped (existsb solo (audioTracks m)) t = true ->
  nth_error (audioTracks (fst (getNextAudioBlock m bufferToFill))) i
  = Some t.
Proof.
  intros Hi Hsk. unfold getNextAudioBlock.
  destruct (isPlaying m); cbn [negb]; [|exact Hi].
  pose proof (renderTracks_spec (existsb solo (audioTracks m))
                (audioTracks m)
                (Buffer.clearRegion (buffer bufferToFill)
                   (startSample bufferToFill) (numSamples bufferToFill))
                (startSample bufferToFill) (numSamples bufferToFill))
    as Hr.
  cbv zeta in Hr.
  destruct (renderTracks _ _ _ _ _) as [ts out1]. cbn [fst snd] in Hr.
  destruct Hr as (_ & Hnth & _ & _).
  destruct (Hnth i t Hi) as (t' & Ht' & _ & Hsame).
  rewrite (Hsame Hsk) in Ht'.
  cbn [metronomeEnabled with_audioTracks].
  destruct (metronomeEnabled m).
  - pose proof (processMetronome_keeps (with_audioTracks ts m) out1
                  (numSamples bufferToFill)) as Hm.
    cbv zeta in Hm.
    destruct (processMetronome _ _ _) as [m2 out2]. cbn [fst snd] in *.
    destruct Hm as (Hts & _).
    cbn [fst audioTracks with_playing]. rewrite Hts. exact Ht'.
  - exact Ht'.
Qed.

(** X20.  With every track muted, empty or left out by a solo, and the
    metronome off, the callback delivers the cleared region and
    nothing else. *)
Theorem all_tracks_passed_by_gives_silence (m : MainComponent ST)
    (bufferToFill : AudioSourceChannelInfo) :
  Forall (fun t => skipped (existsb solo (audioTracks m)) t = true)
         (audioTracks m) ->
  metronomeEnabled m = false ->
  snd (getNextAudioBlock m bufferToFill)
  = Buffer.clearRegion (buffer bufferToFill) (startSample bufferToFill)
      (numSamples bufferToFill).
Proof.
  intros Hall Hoff. unfold getNextAudioBlock.
  destruct (isPlaying m); cbn [negb]; [|reflexivity].
  pose proof (renderTracks_spec (existsb solo (audioTracks m))
                (audioTracks m)
                (Buffer.clearRegion (buffer bufferToFill)
                   (startSample bufferToFill) (numSamples bufferToFill))
                (startSample bufferToFill) (numSamples bufferToFill))
    as Hr.
  cbv zeta in Hr.
  destruct (renderTracks _ _ _ _ _) as [ts out1]. cbn [fst snd] in Hr.
  destruct Hr as (_ & _ & _ & Hsame).
  cbn [metronomeEnabled with_audioTracks]. rewrite Hoff.
  cbn [snd]. now apply Hsame.
Qed.

(** X21.  The callback changes nothing outside the region it was asked
    to fill, except that the metronome, when enabled, writes frames
    [0, numSamples) of channels 0 and 1 whatever [startSample] is. *)
Theorem callback_writes_only_its_region (m : MainComponent ST)
    (bufferToFill : AudioSourceChannelInfo) (ch i : Z) :
  ~ (startSample bufferToFill <= i
     < startSample bufferToFill + numSamples bufferToFill)%Z ->
  metronomeEnabled m = false
  \/ ~ (0 <= i < numSamples bufferToFill)%Z \/ ~ (0 <= ch < 2)%Z ->
  Buffer.getSample (snd (getNextAudioBlock m bufferToFill)) ch i
  = Buffer.getSample (buffer bufferToFill) ch i.
Proof.
  intros Hout Hmet.
  assert (Hclear :
    Buffer.getSample
      (Buffer.clearRegion (buffer bufferToFill) (startSample bufferToFill)
         (numSamples bufferToFill)) ch i
    = Buffer.getSample (buffer bufferToFill) ch i).
  { rewrite getSample_clearRegion.
    destruct (Z.leb_spec (startSample bufferToFill) i),
             (Z.ltb_spec i (startSample bufferToFill
                            + numSamples bufferToFill));
      simpl; try reflexivity; lia. }
  unfold getNextAudioBlock.
  destruct (isPlaying m); cbn [negb]; [|exact Hclear].
  pose proof (renderTracks_spec (existsb solo (audioTracks m))
                (audioTracks m)
                (Buffer.clearRegion (buffer bufferToFill)
                   (startSample bufferToFill) (numSamples bufferToFill))
                (startSample bufferToFill) (numSamples bufferToFill))
    as Hr.
  cbv zeta in Hr.
  destruct (renderTracks _ _ _ _ _) as [ts out1]. cbn [fst snd] in Hr.
  destruct Hr as (_ & _ & Hkeep & _).
  cbn [metronomeEnabled with_audioTracks].
  destruct (metronomeEnabled m) eqn:Em.
  - pose proof (processMetronome_keeps (with_audioTracks ts m) out1
                  (numSamples bufferToFill)) as Hm.
    cbv zeta in Hm.
    destruct (processMetronome _ _ _) as [m2 out2]. cbn [fst snd] in *.
    destruct Hm as (_ & _ & Hclick).
    destruct Hmet as [Hoff|Hmet]; [discriminate|].
    now rewrite Hclick, Hkeep.
  - cbn [snd]. now rewrite Hkeep.
Qed.






Lemma countLoadedFrom_count (k : nat) (ts : list (AudioTrack ST)) (c : Z)
    (o : option nat) :
  fst (countLoadedFrom k ts c o)
  = (c + Z.of_nat (length (filter isLoaded ts)))%Z.
Proof.
  revert k c o. induction ts as [|t ts IH]; intros k c o; simpl.
  - lia.
  - destruct (isLoaded t); rewrite IH; simpl length; lia.
Qed.

Lemma onTrackLoaded_other_counts (bpm : Q) (m : MainComponent ST) :
  length (filter isLoaded (audioTracks m)) <> 1%nat ->
  onTrackLoaded bpm m = m.
Proof.
  intro Hcount. unfold onTrackLoaded.
  pose proof (countLoadedFrom_count 0 (audioTracks m) 0 None) as Hc.
  destruct (countLoadedFrom 0 (audioTracks m) 0 None) as [n d].
  cbn [fst] in Hc. destruct d as [d|]; [|reflexivity].
  destruct (Z.eqb_spec n 1); [lia | reflexivity].
Qed.

(** X23.  [onTrackLoaded] redefines the master tempo only for the
    single loaded track of the session: with no track or with two or
    more tracks loaded, or with a BPM that is not positive, it changes
    nothing. *)
Theorem onTrackLoaded_needs_single_track (bpm : Q) (m : MainComponent ST) :
  length (filter isLoaded (audioTracks m)) <> 1%nat \/ bpm <= 0 ->
  onTrackLoaded bpm m = m.
Proof.
  intros [Hcount|Hbpm]; [now apply onTrackLoaded_other_counts|].
  unfold onTrackLoaded.
  destruct (countLoadedFrom 0 (audioTracks m) 0 None) as [n d].
  destruct d as [d|]; [|reflexivity].
  destruct (ltb_reflect 0 bpm); [lra|].
  now rewrite andb_false_r.
Qed.

Lemma loaded_counted (ts : list (AudioTrack ST)) (i : nat)
    (t : AudioTrack ST) :
  nth_error ts i = Some t -> isLoaded t = true ->
  (1 <= length (filter isLoaded ts))%nat.
Proof.
  revert i. induction ts as [|t0 ts IH]; intros [|i] Hi Ht;
    try discriminate; simpl in *.
  - injection Hi as ->. rewrite Ht. simpl. lia.
  - specialize (IH i Hi Ht). destruct (isLoaded t0); simpl; lia.
Qed.

Lemma two_loaded_counted (ts : list (AudioTrack ST)) (i j : nat)
    (a b : AudioTrack ST) :
  i <> j ->
  nth_error ts i = Some a -> isLoaded a = true ->
  nth_error ts j = Some b -> isLoaded b = true ->
  (2 <= length (filter isLoaded ts))%nat.
Proof.
  revert i j. induction ts as [|t0 ts IH]; intros [|i] [|j] Hne Hi Ha Hj Hb;
    try discriminate; try lia; simpl in *.
  - injection Hi as ->. rewrite Ha. simpl.
    pose proof (loaded_counted ts j b Hj Hb). lia.
  - injection Hj as ->. rewrite Hb. simpl.
    pose proof (loaded_counted ts i a Hi Ha). lia.
  - assert (Hne' : i <> j) by lia.
    specialize (IH i j Hne' Hi Ha Hj Hb). destruct (isLoaded t0); simpl; lia.
Qed.

(** X24.  Loading a clip into a track while another track is already
    loaded leaves the session's tempo alone: the master tempo, the
    previous master tempo and every other track are unchanged, and the
    new track is the freshly loaded one, at stretch ratio 1 (it is not
    synchronised to the master). *)
Theorem second_track_keeps_master_tempo (m : MainComponent ST) (i j : nat)
    (r : AudioFormatReader) (ti tj : AudioTrack ST) :
  i <> j ->
  nth_error (audioTracks m) i = Some ti ->
  nth_error (audioTracks m) j = Some tj -> isLoaded tj = true ->
  (0 < lengthInSamples r)%Z ->
  let m' := loadButtonClicked i (Some r) m in
  masterTempo m' = masterTempo m
  /\ previousMasterTempo m' = previousMasterTempo m
  /\ nth_error (audioTracks m') i = Some (loadAudioFile (Some r) ti)
  /\ stretchRatio (loadAudioFile (Some r) ti) = 1
  /\ forall k, k <> i ->
       nth_error (audioTracks m') k = nth_error (audioTracks m) k.
Proof.
  intros Hne Hi Hj Hloaded Hlen. cbv zeta.
  destruct (loadAudioFile_fields r ti) as (Hbuf & _ & Hratio & _).
  cbv zeta in Hbuf, Hratio.
  set (m1 := with_audioTracks
               (atTrack i (loadAudioFile (Some r)) (audioTracks m)) m).
  assert (Hi1 : nth_error (audioTracks m1) i
                = Some (loadAudioFile (Some r) ti)).
  { unfold m1. cbn [audioTracks with_audioTracks].
    now rewrite nth_error_atTrack, Nat.eqb_refl, Hi. }
  assert (Hj1 : nth_error (audioTracks m1) j = Some tj).
  { unfold m1. cbn [audioTracks with_audioTracks].
    rewrite nth_error_atTrack.
    destruct (Nat.eqb_spec j i); [congruence | exact Hj]. }
  assert (Hnew : isLoaded (loadAudioFile (Some r) ti) = true).
  { unfold isLoaded. rewrite Hbuf. unfold readInto. cbn [getNumSamples].
    now apply Z.ltb_lt. }
  assert (Hsame : loadButtonClicked i (Some r) m = m1).
  { unfold loadButtonClicked. fold m1. rewrite Hi1.
    destruct (0 <? _); [|reflexivity].
    apply onTrackLoaded_other_counts.
    pose proof (two_loaded_counted (audioTracks m1) i j _ _ Hne Hi1 Hnew
                  Hj1 Hloaded).
    lia. }
  rewrite Hsame. repeat split; try assumption.
  intros k Hk. unfold m1. cbn [audioTracks with_audioTracks].
  rewrite nth_error_atTrack.
  destruct (Nat.eqb_spec k i); [contradiction | reflexivity].
Qed.

(** X25.  [syncNewTrackToMaster] makes a loaded track follow the
    master: its reference becomes the master tempo and, when the ratio
    needed lies in the clamp range, its stretched tempo is within 0.1
    percent of the master tempo's share:
    [|ratio * master - detected| <= 0.001 * master]. *)
Theorem syncNewTrackToMaster_matches_tempo (m : MainComponent ST) (i : nat)
    (t : AudioTrack ST) :
  nth_error (audioTracks m) i = Some t -> isLoaded t = true ->
  0 < detectedBPM t -> 0 < masterTempo m ->
  0.25 <= detectedBPM t / masterTempo m <= 4 ->
  exists t',
    nth_error (audioTracks (syncNewTrackToMaster i m)) i = Some t'
    /\ masterBPM t' = masterTempo m
    /\ Qabs (stretchRatio t' * masterTempo m - detectedBPM t)
       <= 0.001 * masterTempo m.
Proof.
  intros Hi Hload Hd Hm Hrange.
  exists (autoSyncToMaster (setMasterBPM (masterTempo m) t)).
  split.
  { unfold syncNewTrackToMaster. cbn [audioTracks with_audioTracks].
    rewrite nth_error_atTrack, Nat.eqb_refl, Hi. cbn [option_map].
    now rewrite Hload. }
  unfold autoSyncToMaster.
  cbn [detectedBPM masterBPM setMasterBPM with_masterBPM].
  destruct (ltb_reflect 0 (detectedBPM t)) as [_|Hbad]; [|contradiction].
  destruct (ltb_reflect 0 (masterTempo m)) as [_|Hbad]; [|contradiction].
  cbn [andb].
  pose proof (setStretchRatio_near (detectedBPM t / masterTempo m)
                (with_masterBPM (masterTempo m) t)) as Hnear.
  set (t' := setStretchRatio _ _) in *.
  assert (Hmb : masterBPM t' = masterTempo m).
  { unfold t', setStretchRatio. destruct (0.001 <? _); reflexivity. }
  split; [exact Hmb|].
  assert (Hj : jlimit 0.25 4 (detectedBPM t / masterTempo m)
               = detectedBPM t / masterTempo m).
  { unfold jlimit.
    destruct (ltb_reflect (detectedBPM t / masterTempo m) 0.25)
      as [Hbad|_]; [lra|].
    destruct (ltb_reflect 4 (detectedBPM t / masterTempo m))
      as [Hbad|_]; [lra|].
    reflexivity. }
  rewrite Hj in Hnear. apply Qabs_Qle_condition in Hnear.
  assert (Hq : detectedBPM t / masterTempo m * masterTempo m
               == detectedBPM t) by (field; lra).
  set (q := detectedBPM t / masterTempo m) in *. clearbody q.
  set (r := stretchRatio t') in *. clearbody r.
  set (mt := masterTempo m) in *. clearbody mt.
  set (d := detectedBPM t) in *. clearbody d.
  apply Qabs_Qle_condition. split; nra.
Qed.

End SessionFacts.

(** ** Every track refers to the session's master tempo *)

Section SharedTempo.

Context {ST : Type} `{SoundTouch ST} `{LibM}.

Lemma length_atTrack (i : nat) (f : AudioTrack ST -> AudioTrack ST)
    (ts : list (AudioTrack ST)) :
  length (atTrack i f ts) = length ts.
Proof.
  revert i. induction ts as [|t ts IH]; intros [|i]; simpl;
    try reflexivity. now rewrite IH.
Qed.

Lemma length_mapTracksFrom (k : nat)
    (f : nat -> AudioTrack ST -> AudioTrack ST) (ts : list (AudioTrack ST)) :
  length (mapTracksFrom k f ts) = length ts.
Proof.
  revert k. induction ts as [|t ts IH]; intro k; simpl;
    [reflexivity | now rewrite IH].
Qed.

Lemma Forall_by_index {A : Type} (P : A -> Prop) (l : list A) :
  (forall j x, nth_error l j = Some x -> P x) -> Forall P l.
Proof.
  intro Hl. apply Forall_forall. intros x Hx.
  apply In_nth_error in Hx. destruct Hx as [j Hj]. exact (Hl j x Hj).
Qed.

Lemma index_of_Forall {A : Type} (P : A -> Prop) (l : list A) (j : nat)
    (x : A) :
  Forall P l -> nth_error l j = Some x -> P x.
Proof.
  intros Hl Hj. rewrite Forall_forall in Hl. apply Hl.
  now apply nth_error_In in Hj.
Qed.

Lemma loadAudioFile_masterBPM (reader : option AudioFormatReader)
    (t : AudioTrack ST) :
  masterBPM (loadAudioFile reader t) = masterBPM t.
Proof.
  destruct reader as [r|]; [|reflexivity].
  unfold loadAudioFile, initializeSoundTouch. cbv zeta.
  match goal with |- context [if ?c then _ else _] => destruct c end;
    reflexivity.
Qed.

(** A change of single tracks that keeps their reference keeps the
    agreement. *)
Lemma tempoShared_onTrack (i : nat) (f : AudioTrack ST -> AudioTrack ST)
    (m : MainComponent ST) :
  (forall t, masterBPM (f t) = masterBPM t) ->
  tempoShared m -> tempoShared (onTrack i f m).
Proof.
  intros Hf [Hlen Hall]. unfold tempoShared, onTrack.
  cbn [audioTracks masterTempo with_audioTracks].
  split; [now rewrite length_atTrack|].
  apply atTrack_Forall; [|exact Hall]. intros t Ht. now rewrite Hf.
Qed.

Lemma tempoShared_map (f : AudioTrack ST -> AudioTrack ST)
    (m : MainComponent ST) :
  (forall t, masterBPM (f t) = masterBPM t) ->
  tempoShared m ->
  length (map f (audioTracks m)) = maxTracks
  /\ Forall (fun t => masterBPM t = masterTempo m) (map f (audioTracks m)).
Proof.
  intros Hf [Hlen Hall]. split; [now rewrite length_map|].
  apply map_Forall; [|exact Hall]. intros t Ht. now rewrite Hf.
Qed.

Lemma setPosition_masterBPM (p : Q) (t : AudioTrack ST) :
  masterBPM (setPosition p t) = masterBPM t.
Proof. unfold setPosition. now destruct (_ && _). Qed.

Lemma reset_masterBPM (t : AudioTrack ST) :
  masterBPM (reset t) = masterBPM t.
Proof. unfold reset. now destruct (_ && _). Qed.

Lemma setStretchRatio_masterBPM (ratio : Q) (t : AudioTrack ST) :
  masterBPM (setStretchRatio ratio t) = masterBPM t.
Proof. unfold setStretchRatio. now destruct (0.001 <? _). Qed.

Lemma setLoopRegion_masterBPM (s e : Q) (t : AudioTrack ST) :
  masterBPM (setLoopRegion s e t) = masterBPM t.
Proof.
  unfold setLoopRegion. destruct (_ && _); [|reflexivity].
  cbv zeta. now destruct (_ || _).
Qed.

Lemma clearLoopRegion_masterBPM (t : AudioTrack ST) :
  masterBPM (clearLoopRegion t) = masterBPM t.
Proof. unfold clearLoopRegion. cbv zeta. now destruct (_ <? _). Qed.

Lemma setManualBPM_masterBPM (bpm : Q) (t : AudioTrack ST) :
  masterBPM (setManualBPM bpm t) = masterBPM t.
Proof. unfold setManualBPM. now destruct (_ && _). Qed.

Lemma tempoShared_setTempo (bpm : Q) (m : MainComponent ST) :
  tempoShared m -> tempoShared (setTempo bpm m).
Proof.
  intros [Hlen _]. unfold tempoShared, setTempo.
  cbn [audioTracks masterTempo with_audioTracks with_tempo].
  split; [now rewrite !length_map|].
  apply Forall_forall. intros t Ht. apply in_map_iff in Ht.
  now destruct Ht as (t0 & <- & _).
Qed.

Lemma tempoShared_setInitialMasterBPM (bpm : Q) (d : option nat)
    (m : MainComponent ST) :
  tempoShared m -> tempoShared (setInitialMasterBPM bpm d m).
Proof.
  intros [Hlen _]. split.
  - unfold setInitialMasterBPM. cbn [audioTracks with_audioTracks].
    rewrite length_mapTracksFrom.
    destruct d; [now rewrite length_atTrack | exact Hlen].
  - apply Forall_by_index. intros j x Hj.
    assert (Hmt : masterTempo (setInitialMasterBPM bpm d m) = bpm)
      by reflexivity.
    rewrite Hmt. destruct d as [d|].
    + rewrite setInitialMasterBPM_tracks in Hj.
      destruct (nth_error (audioTracks m) j) as [t|]; [|discriminate].
      cbn [option_map] in Hj. injection Hj as <-.
      now destruct (Nat.eqb j d).
    + unfold setInitialMasterBPM in Hj.
      cbn [audioTracks with_audioTracks] in Hj.
      rewrite nth_error_mapTracksFrom in Hj.
      destruct (nth_error (audioTracks m) j) as [t|]; [|discriminate].
      cbn [option_map] in Hj. now injection Hj as <-.
Qed.

Lemma tempoShared_onTrackLoaded (bpm : Q) (m : MainComponent ST) :
  tempoShared m -> tempoShared (onTrackLoaded bpm m).
Proof.
  intro Hm. unfold onTrackLoaded.
  destruct (countLoadedFrom 0 (audioTracks m) 0 None) as [n [d|]];
    [|exact Hm].
  destruct (_ && _); [|exact Hm].
  now apply tempoShared_setInitialMasterBPM.
Qed.

Lemma tempoShared_getNextAudioBlock (m : MainComponent ST)
    (bufferToFill : AudioSourceChannelInfo) :
  tempoShared m -> tempoShared (fst (getNextAudioBlock m bufferToFill)).
Proof.
  intros [Hlen Hall]. unfold getNextAudioBlock.
  destruct (isPlaying m); cbn [negb]; [|now split].
  pose proof (renderTracks_spec (existsb solo (audioTracks m))
                (audioTracks m)
                (Buffer.clearRegion (buffer bufferToFill)
                   (startSample bufferToFill) (numSamples bufferToFill))
                (startSample bufferToFill) (numSamples bufferToFill))
    as Hr.
  cbv zeta in Hr.
  destruct (renderTracks _ _ _ _ _) as [ts out1]. cbn [fst snd] in Hr.
  destruct Hr as (Hlen' & Hnth & _ & _).
  assert (Hts : Forall (fun t => masterBPM t = masterTempo m) ts).
  { apply Forall_by_index. intros j x Hj.
    destruct (nth_error (audioTracks m) j) as [t|] eqn:Et.
    - destruct (Hnth j t Et) as (t' & Ht' & Hs & _).
      rewrite Hj in Ht'. injection Ht' as <-.
      assert (E : masterBPM x = masterBPM t) by apply Hs.
      rewrite E. exact (index_of_Forall _ _ j t Hall Et).
    - apply nth_error_None in Et.
      assert (j < length ts)%nat
        by (apply nth_error_Some; congruence).
      lia. }
  cbn [metronomeEnabled with_audioTracks].
  destruct (metronomeEnabled m).
  - pose proof (processMetronome_keeps (with_audioTracks ts m) out1
                  (numSamples bufferToFill)) as Hm.
    cbv zeta in Hm.
    destruct (processMetronome _ _ _) as [m2 out2]. cbn [fst snd] in *.
    destruct Hm as (Ets & Emt & _).
    unfold tempoShared. cbn [audioTracks masterTempo with_playing].
    rewrite Ets, Emt. cbn [audioTracks masterTempo with_audioTracks].
    split; [congruence | exact Hts].
  - unfold tempoShared.
    cbn [fst audioTracks masterTempo with_playing with_audioTracks].
    split; [congruence | exact Hts].
Qed.

Lemma tempoShared_step (m : MainComponent ST) (c : SessionCall) :
  tempoShared m -> tempoShared (applySessionCall m c).
Proof.
  intro Hm. destruct c; cbn [applySessionCall].
  - (* play *)
    unfold play. destruct (negb (isPlaying m)); [|exact Hm].
    apply (tempoShared_map (setPosition (currentPlayPosition m)) m);
      [apply setPosition_masterBPM | exact Hm].
  - (* stop *)
    apply (tempoShared_map reset m); [apply reset_masterBPM | exact Hm].
  - now apply tempoShared_setTempo.
  - (* auto-sync *)
    unfold autoSyncAllTracks. cbv zeta.
    destruct (autoSyncEnabled (with_autoSync _ m)); [|exact Hm].
    destruct (0 <? _); [|exact Hm].
    now apply tempoShared_setTempo.
  - exact Hm.
  - (* load button *)
    unfold loadButtonClicked. cbv zeta.
    assert (Hm1 : tempoShared
                    (with_audioTracks
                       (atTrack track (loadAudioFile reader) (audioTracks m))
                       m)).
    { apply (tempoShared_onTrack track (loadAudioFile reader) m);
        [apply loadAudioFile_masterBPM | exact Hm]. }
    destruct (nth_error _ track) as [t|]; [|exact Hm].
    destruct (0 <? detectedBPM t); [|exact Hm1].
    now apply tempoShared_onTrackLoaded.
  - now apply tempoShared_onTrack.
  - now apply tempoShared_onTrack.
  - now apply tempoShared_onTrack.
  - now apply tempoShared_onTrack.
  - apply tempoShared_onTrack; [apply setStretchRatio_masterBPM | exact Hm].
  - apply tempoShared_onTrack; [apply setPosition_masterBPM | exact Hm].
  - apply tempoShared_onTrack; [apply setLoopRegion_masterBPM | exact Hm].
  - apply tempoShared_onTrack; [apply clearLoopRegion_masterBPM | exact Hm].
  - (* BPM edited on the waveform *)
    unfold onWaveformBPMChanged. apply tempoShared_onTrackLoaded.
    apply (tempoShared_onTrack track (setManualBPM bpm) m);
      [apply setManualBPM_masterBPM | exact Hm].
  - apply (tempoShared_map (setPosition (currentPlayPosition m)) m);
      [apply setPosition_masterBPM | exact Hm].
  - unfold setTrackPosition. destruct (_ && _); [|exact Hm].
    apply (tempoShared_onTrack (Z.to_nat trackIndex) (setPosition position) m);
      [apply setPosition_masterBPM | exact Hm].
  - (* syncNewTrackToMaster *)
    destruct Hm as [Hlen Hall]. unfold tempoShared, syncNewTrackToMaster.
    cbn [audioTracks masterTempo with_audioTracks].
    split; [now rewrite length_atTrack|].
    apply atTrack_Forall; [|exact Hall].
    intros t Ht. destruct (isLoaded t); [|exact Ht].
    unfold autoSyncToMaster. destruct (_ && _); [|reflexivity].
    now rewrite setStretchRatio_masterBPM.
  - now apply tempoShared_getNextAudioBlock.
Qed.

(** X26.  From start-up on, whatever the user and the audio device do
    (transport buttons, tempo changes, loads, every track control,
    audio callbacks), the session keeps its eight tracks, and every
    track's master-BPM reference is the session's master tempo. *)
Theorem tracks_share_master_tempo (calls : list SessionCall) :
  let m := applySessionCalls calls (@newMainComponent ST _) in
  length (audioTracks m) = 8%nat
  /\ Forall (fun t => masterBPM t = masterTempo m) (audioTracks m).
Proof.
  cbv zeta. change 8%nat with maxTracks.
  change (tempoShared (applySessionCalls calls (@newMainComponent ST _))).
  assert (Hnew : tempoShared (@newMainComponent ST _)).
  { split; [reflexivity|]. apply Forall_forall. intros t Ht.
    apply repeat_spec in Ht. now subst. }
  revert Hnew. generalize (@newMainComponent ST _).
  induction calls as [|c calls IH]; intros m Hm; simpl.
  - exact Hm.
  - apply IH. now apply tempoShared_step.
Qed.

End SharedTempo.

(** ** The waveform display: zoom, time axis and beat grid *)

Section ViewFacts.

Import View.

Lemma jmax_ge (a b : Q) : a <= jmax a b /\ b <= jmax a b.
Proof. unfold jmax. destruct (ltb_reflect a b); lra. Qed.

(** X27.  Whenever [setZoomFactor] changes the view, the new zoom is
    the request clamped to [0.1, 20], and the visible window starts at
    or after 0 and ends at or before the end of the clip (or, zoomed
    out beyond the clip, still starts at 0). *)
Theorem setZoomFactor_keeps_window_inside (zoom : Q)
    (v : WaveformComponent) :
  0 <= totalDuration v -> 0 < zoomFactor v ->
  let v' := setZoomFactor zoom v in
  v' = v
  \/ (zoomFactor v' = jlimit 0.1 20 zoom
      /\ 0.1 <= zoomFactor v' <= 20
      /\ 0 <= viewStartTime v'
      /\ viewStartTime v' + totalDuration v' / zoomFactor v'
         <= jmax (totalDuration v') (totalDuration v' / zoomFactor v')).
Proof.
  intros Htotal _. cbv zeta. unfold setZoomFactor.
  assert (Hz : 0.1 <= jlimit 0.1 20 zoom <= 20)
    by (apply jlimit_range; lra).
  set (z := jlimit 0.1 20 zoom) in *.
  destruct (0.01 <? Qabs (zoomFactor v - z)); [right | now left].
  cbv zeta.
  set (vis := totalDuration v / z).
  assert (Hvis : 0 <= vis).
  { unfold vis. apply Qle_shift_div_l; lra. }
  destruct (ltb_reflect 0 vis) as [Hpos|Hzero];
    destruct (ltb_reflect 0 (totalDuration v)) as [Ht|Ht]; cbn [andb];
    cbn [zoomFactor viewStartTime totalDuration with_view]; fold vis;
    (split; [reflexivity|]); (split; [exact Hz|]).
  - pose proof (jmax_ge 0 (totalDuration v - vis)) as [Hm0 Hm1].
    pose proof (jlimit_range 0 (jmax 0 (totalDuration v - vis))
                  (viewStartTime v + totalDuration v / zoomFactor v * 0.5
                   - vis * 0.5) Hm0) as [Hlo Hhi].
    split; [exact Hlo|].
    pose proof (jmax_ge (totalDuration v) vis) as [Hj0 Hj1].
    unfold jmax at 2 in Hhi.
    destruct (ltb_reflect 0 (totalDuration v - vis)); lra.
  - assert (E : totalDuration v == 0) by lra.
    assert (Ev : vis == 0) by (unfold vis; rewrite E; field; lra).
    lra.
  - pose proof (jmax_ge (totalDuration v) vis). lra.
  - pose proof (jmax_ge (totalDuration v) vis). lra.
Qed.




End ViewFacts.

Section GridDrag.

Context {ST : Type} `{SoundTouch ST}.

(** X30.  Dragging a grid line always produces a tempo the track
    accepts: for a dragged line that exists and is not at time 0, the
    BPM passed to [onBPMChanged] lies in [60, 200], is the display's
    new BPM, and [setManualBPM] stores it. *)
Theorem grid_drag_bpm_is_accepted (v v' : View.WaveformComponent)
    (bpm : Q) (t : AudioTrack ST) :
  (View.draggedGridIndex v < Z.of_nat (length (View.gridPositions v)))%Z ->
  ~ at_ (View.gridPositions v) (View.draggedGridIndex v) == 0 ->
  View.updateBPMFromGrid v = (v', Some bpm) ->
  60 <= bpm <= 200
  /\ View.detectedBPM v' = bpm
  /\ detectedBPM (setManualBPM bpm t) = bpm.
Proof.
  intros _ _ Hdrag. unfold View.updateBPMFromGrid in Hdrag.
  destruct (_ || _); [discriminate|]. cbv zeta in Hdrag.
  destruct (0.1 <? _); [|discriminate].
  injection Hdrag as <- <-.
  match goal with
  | |- context [jlimit 60 200 ?x] =>
      pose proof (jlimit_range 60 200 x ltac:(lra)) as Hr;
      set (b := jlimit 60 200 x) in *
  end.
  split; [exact Hr|]. split; [reflexivity|].
  unfold setManualBPM.
  destruct (leb_reflect 60 b) as [_|Hb]; [|lra].
  destruct (leb_reflect b 200) as [_|Hb]; [|lra].
  reflexivity.
Qed.

End GridDrag.

(** ** The further properties on concrete inputs *)

Module Scenarios.

Import Fixtures Inputs BPM.

(** Decides a closed comparison of rationals by evaluation. *)
Ltac qcheck :=
  vm_compute; first [reflexivity | discriminate | intro; discriminate].

(** A region set on the loaded ramp lies inside the clip. *)
Lemma loop_region_always_inside_clip_example :
  let t := applyTrackCalls
             [DoLoadAudioFile (Some shortRamp); DoSetLoopRegion 0.005 0.02]
             (@newTrack (list Q) _) in
  hasCustomLoopRegion t = true
  /\ 0 <= loopStartTime t /\ loopStartTime t < loopEndTime t
  /\ loopEndTime t <= getDurationInSeconds t.
Proof.
  assert (Hhas : hasCustomLoopRegion
                   (applyTrackCalls
                      [DoLoadAudioFile (Some shortRamp);
                       DoSetLoopRegion 0.005 0.02]
                      (@newTrack (list Q) _)) = true)
    by (vm_compute; reflexivity).
  split; [exact Hhas|].
  exact (loop_region_always_inside_clip
           [DoLoadAudioFile (Some shortRamp); DoSetLoopRegion 0.005 0.02]
           Hhas).
Defined.

(** Frame 5 lies before the block [16, 32) and keeps its value. *)
Lemma processBlock_writes_only_its_region_example :
  Buffer.getSample
    (snd (fst (processBlock (loaded shortRamp) (outMono 64) 16 16))) 0 5
  = Buffer.getSample (outMono 64) 0 5.
Proof.
  apply processBlock_writes_only_its_region. lia.
Defined.

(** Frame 3 of the first block of the ramp: 0 + 3 * 1. *)
Lemma direct_playback_adds_scaled_source_example :
  Buffer.getSample
    (snd (fst (processBlock (loaded shortRamp) (outMono 64) 0 16))) 0 (0 + 3)
  = Buffer.getSample (outMono 64) 0 (0 + 3)
    + Buffer.getSample (audioBuffer (loaded shortRamp)) 0 (0 + 3)
      * volume (loaded shortRamp).
Proof.
  apply (direct_playback_adds_scaled_source (loaded shortRamp) (outMono 64)
           0 16 0 16 0 3).
  - vm_compute. reflexivity.
  - vm_compute. left. reflexivity.
  - vm_compute. split; [discriminate | reflexivity].
  - lia.
  - vm_compute. reflexivity.
Defined.

(** The one-shot ramp at its end: two more blocks read nothing. *)
Lemma finished_track_stays_silent_example :
  snd (renderBlocks finishedRamp
         [mkCall (outMono 64) 0 16; mkCall (outMono 64) 16 16]) = []
  /\ currentPosition
       (fst (renderBlocks finishedRamp
               [mkCall (outMono 64) 0 16; mkCall (outMono 64) 16 16]))
     = currentPosition finishedRamp.
Proof.
  pose proof (finished_track_stays_silent finishedRamp
                [mkCall (outMono 64) 0 16; mkCall (outMono 64) 16 16])
    as Hsilent.
  cbv zeta in Hsilent.
  destruct Hsilent as (Hreads & Hpos & _).
  - vm_compute. reflexivity.
  - vm_compute. discriminate.
  - split; [exact Hreads | exact Hpos].
Defined.

(** The looping ramp asked for 16 frames reads frames 0 to 15. *)
Lemma looping_track_always_reads_example :
  exists cs c : Z,
    (0 < c)%Z /\ (loopStartSample (loaded shortRamp) <= cs)%Z
    /\ (cs + c <= loopEndSample (loaded shortRamp))%Z
    /\ snd (processBlock (loaded shortRamp) (outMono 64) 0 16) <> []
    /\ Forall (fun r => r = mkRead cs c)
              (snd (processBlock (loaded shortRamp) (outMono 64) 0 16)).
Proof.
  apply looping_track_always_reads;
    try (vm_compute; reflexivity); try lia.
  vm_compute. discriminate.
Defined.

(** Four frames of the mono ramp from frame 0: sample 1 is frame 1. *)
Lemma stretchInput_interleaves_frames_example :
  length (stretchInput (loaded shortRamp) 0 4)
  = Z.to_nat (4 * getNumChannels (audioBuffer (loaded shortRamp)))
  /\ at_ (stretchInput (loaded shortRamp) 0 4)
         (1 * getNumChannels (audioBuffer (loaded shortRamp)) + 0)
     = Buffer.getSample (audioBuffer (loaded shortRamp)) 0 (0 + 1).
Proof.
  apply stretchInput_interleaves_frames; [lia|].
  vm_compute. split; [discriminate | reflexivity].
Defined.

(** Eight received frames mixed into a block of sixteen: frame 3. *)
Lemma mixStretched_adds_received_frames_example :
  Buffer.getSample
    (mixStretched (loaded shortRamp) (outMono 8) (outMono 64) 0 16 8)
    0 (0 + 3)
  = Buffer.getSample (outMono 64) 0 (0 + 3)
    + Buffer.getSample (outMono 8) 0
        (3 * getNumChannels (audioBuffer (loaded shortRamp)) + 0)
      * volume (loaded shortRamp).
Proof.
  apply mixStretched_adds_received_frames.
  - lia.
  - vm_compute. split; [discriminate | reflexivity].
  - lia.
  - vm_compute. reflexivity.
Defined.

(** 50 BPM is doubled once. *)
Lemma octaveCorrection_changes_octave_only_example :
  70 <= octaveCorrection 50 <= 180
  /\ (exists up down : nat,
        octaveCorrection 50 * pow2 down == 50 * pow2 up)
  /\ (70 <= 50 <= 180 -> octaveCorrection 50 = 50).
Proof.
  apply Estimation.octaveCorrection_changes_octave_only. qcheck.
Defined.

(** Four clicks half a second apart: 120 BPM. *)
Lemma findBestBPMCandidate_regular_train_example :
  findBestBPMCandidate [0; 0.5; 1; 1.5] == 60 / 0.5.
Proof.
  apply Estimation.findBestBPMCandidate_regular_train.
  - simpl. lia.
  - simpl. repeat split; reflexivity.
  - qcheck.
  - qcheck.
Defined.


(** Frame 5 of the ramp is below its peak. *)
Lemma waveform_peaks_dominate_samples_example :
  let t := loaded shortRamp in
  let samplesPerPeak := Z.max 1 (to_int (sampleRate t / 100)) in
  Z.of_nat (length (generateWaveformPeaks t))
  = ((getNumSamples (audioBuffer t) + samplesPerPeak - 1) / samplesPerPeak)%Z
  /\ Forall (fun p => 0 <= p) (generateWaveformPeaks t)
  /\ Qabs (Buffer.getSample (audioBuffer t) 0 5)
     <= at_ (generateWaveformPeaks t) (5 / samplesPerPeak).
Proof.
  apply (Estimation.waveform_peaks_dominate_samples (loaded shortRamp) 0 5).
  - vm_compute. split; [discriminate | reflexivity].
  - vm_compute. split; [discriminate | reflexivity].
Defined.


(** The muted track 0 comes back from the callback as it went in. *)
Lemma passed_by_tracks_are_frozen_example :
  nth_error
    (audioTracks (fst (getNextAudioBlock mutedSession secondQuarter))) 0
  = nth_error (audioTracks mutedSession) 0.
Proof.
  assert (Hi : nth_error (audioTracks mutedSession) 0
               = Some (nth 0 (audioTracks mutedSession) newTrack))
    by (vm_compute; reflexivity).
  rewrite Hi.
  apply passed_by_tracks_are_frozen; [exact Hi|].
  vm_compute. reflexivity.
Defined.

(** One loaded but muted track, seven empty ones, metronome off. *)
Lemma all_tracks_passed_by_gives_silence_example :
  snd (getNextAudioBlock mutedSession secondQuarter)
  = Buffer.clearRegion (outMono 64) 16 16.
Proof.
  apply (all_tracks_passed_by_gives_silence mutedSession secondQuarter).
  - vm_compute. repeat constructor.
  - vm_compute. reflexivity.
Defined.

(** Frame 5 lies before the region [16, 32) to fill. *)
Lemma callback_writes_only_its_region_example :
  Buffer.getSample (snd (getNextAudioBlock mutedSession secondQuarter)) 0 5
  = Buffer.getSample (outMono 64) 0 5.
Proof.
  apply (callback_writes_only_its_region mutedSession secondQuarter 0 5).
  - simpl. lia.
  - left. vm_compute. reflexivity.
Defined.

(** A fresh session has no loaded track. *)
Lemma onTrackLoaded_needs_single_track_example :
  onTrackLoaded 128 (@newMainComponent (list Q) _) = newMainComponent.
Proof.
  apply onTrackLoaded_needs_single_track. left. vm_compute. discriminate.
Defined.

(** Loading track 1 after track 0. *)
Lemma second_track_keeps_master_tempo_example :
  masterTempo (loadButtonClicked 1 (Some shortRamp) oneLoaded)
  = masterTempo oneLoaded.
Proof.
  refine (proj1 (second_track_keeps_master_tempo oneLoaded 1 0 shortRamp
                   (nth 1 (audioTracks oneLoaded) newTrack)
                   (nth 0 (audioTracks oneLoaded) newTrack) _ _ _ _ _)).
  - lia.
  - vm_compute. reflexivity.
  - vm_compute. reflexivity.
  - vm_compute. reflexivity.
  - vm_compute. reflexivity.
Defined.

(** Track 0 of the session it defined the tempo of. *)
Lemma syncNewTrackToMaster_matches_tempo_example :
  exists t',
    nth_error (audioTracks (syncNewTrackToMaster 0 oneLoaded)) 0 = Some t'
    /\ masterBPM t' = masterTempo oneLoaded
    /\ Qabs (stretchRatio t' * masterTempo oneLoaded
             - detectedBPM (nth 0 (audioTracks oneLoaded) newTrack))
       <= 0.001 * masterTempo oneLoaded.
Proof.
  apply (syncNewTrackToMaster_matches_tempo oneLoaded 0
           (nth 0 (audioTracks oneLoaded) newTrack)).
  - vm_compute. reflexivity.
  - vm_compute. reflexivity.
  - qcheck.
  - qcheck.
  - split; qcheck.
Defined.

(** Zooming the ten-second display from 2x to 4x. *)
Lemma setZoomFactor_keeps_window_inside_example :
  let v' := View.setZoomFactor 4 zoomedView in
  v' = zoomedView
  \/ (View.zoomFactor v' = jlimit 0.1 20 4
      /\ 0.1 <= View.zoomFactor v' <= 20
      /\ 0 <= View.viewStartTime v'
      /\ View.viewStartTime v'
         + View.totalDuration v' / View.zoomFactor v'
         <= jmax (View.totalDuration v')
                 (View.totalDuration v' / View.zoomFactor v')).
Proof.
  apply setZoomFactor_keeps_window_inside; qcheck.
Defined.



(** Line 1 dragged to 0.4 s: 150 BPM. *)
Lemma grid_drag_bpm_is_accepted_example :
  exists (v' : View.WaveformComponent) (bpm : Q),
    View.updateBPMFromGrid draggedView = (v', Some bpm)
    /\ bpm == 150
    /\ 60 <= bpm <= 200
    /\ View.detectedBPM v' = bpm
    /\ detectedBPM (setManualBPM bpm (loaded shortRamp)) = bpm.
Proof.
  eexists _, _. split; [vm_compute; reflexivity|].
  split; [qcheck|].
  eapply (grid_drag_bpm_is_accepted draggedView _ _ (loaded shortRamp)).
  - simpl. lia.
  - qcheck.
  - vm_compute. reflexivity.
Defined.

End Scenarios.
